(** * yapi-mcp-server: the API result cache, the cached fetchers and the
      batch / preload drivers

    A shallow embedding of [ApiCache], [getConfigFromArgs],
    [getInterfaceList], [getGroupInfo], [batchGetGroupInfo] and
    [preloadInterfaceData], and the properties of the design document
    checked against it.

    Conventions.
    - A JavaScript [number] is a [Z]: the program only handles millisecond
      timestamps, durations, sizes and identifiers, which are integers.
      The integers are those of binary64: [Number] has the rounding of the
      sums and products that leave them, [Infinity] as the integer 2^1024,
      and the text of a number.  [NaN] appears only as the result of
      [parseInt] and is the [None] of an [option Z].
    - A string is the sequence of the bytes of its UTF-8 encoding.
    - The [Map] of the cache is a list of key/entry pairs in insertion order,
      without duplicate keys: [Map.set] on a present key keeps its place,
      on a new key appends, and iteration follows the list.
    - [Date.now()] is an explicit argument of the cache operations, and is
      read from the outside world in the asynchronous functions. *)

From Stdlib Require Import List ZArith Bool String Ascii Lia Permutation.
From Stdlib Require Import DecimalString.
From Stdlib Require DecimalZ.
Import ListNotations.

Local Open Scope string_scope.
Local Open Scope Z_scope.

(** ** Values *)

Record ApiCategoryChild := {
  child_id     : Z;        (* _id *)
  child_title  : string;
  child_path   : string;
  child_method : string;
  child_catid  : Z
}.

Record ApiCategoryItem := {
  cat_id   : Z;            (* _id *)
  cat_name : string;
  cat_desc : string;
  cat_list : list ApiCategoryChild
}.

Record ApiData := {
  api_id     : Z;          (* _id *)
  api_title  : string;
  api_path   : string;
  api_method : string;
  api_catid  : Z
}.

(** What a cache entry, a fetch result or an argument can be at run time.
    The cache is a [Map<string, CacheEntry<any>>]; [null] and [undefined]
    are values like the others. *)
Inductive JsValue :=
| JsNull
| JsUndefined
| JsNumber (n : Z)
| JsString (s : string)
| JsCategories (l : list ApiCategoryItem)
| JsApiData (d : ApiData).

(** [v !== null] *)
Definition not_null (v : JsValue) : bool :=
  match v with JsNull => false | _ => true end.

(** ** Numbers *)

(** The decimal writing of an integer. *)
Definition string_of_Z (z : Z) : string := NilZero.string_of_int (Z.to_int z).

Module Number.

(** [Infinity], as an integer that no number reaches. *)
Definition infinity : Z := 2 ^ 1024.

(** The number an integer stands for: the integer of binary64 nearest to
    it, with ties going to the even significand.  Every integer up to 2^53
    in magnitude is a number; beyond, one keeps the 53 leading bits; and
    what comes to 2^1024 or more in magnitude is [Infinity] or
    [-Infinity]. *)
Definition round (z : Z) : Z :=
  let a := Z.abs z in
  if a <=? 2 ^ 53 then z
  else
    let shift := Z.log2 a - 52 in
    let q := Z.shiftr a shift in
    let r := a - Z.shiftl q shift in
    let half := Z.shiftl 1 (shift - 1) in
    let up := ((half <? r) || ((r =? half) && Z.odd q))%bool in
    Z.sgn z * Z.min (Z.shiftl (if up then q + 1 else q) shift) infinity.

(** [a + b] and [a * b] on numbers *)
Definition add (a b : Z) : Z := round (a + b).
Definition mul (a b : Z) : Z := round (a * b).


(** The candidates for the digits of the text of [a] with [k] digits: the
    pairs [(s, n)] with [10^(k-1) <= s < 10^k] such that [s * 10^(n-k)] is
    read back as [a]. *)
Definition candidates (a k : Z) : list (Z * Z) :=
  let n0 := Z.of_nat (String.length (string_of_Z a)) in
  flat_map
    (fun n =>
       let e := n - k in
       if e <? 0 then []
       else
         filter
           (fun sn =>
              ((10 ^ (k - 1) <=? fst sn) && (fst sn <? 10 ^ k)
               && (round (fst sn * 10 ^ e) =? a))%bool)
           [(a / 10 ^ e, n); (a / 10 ^ e + 1, n)])
    [n0; n0 + 1].

(** Of two candidates the one nearer to [a], and the even one of two at
    the same distance. *)
Definition closer (a k : Z) (x y : Z * Z) : Z * Z :=
  let dx := Z.abs (fst x * 10 ^ (snd x - k) - a) in
  let dy := Z.abs (fst y * 10 ^ (snd y - k) - a) in
  if dy <? dx then y
  else if ((dy =? dx) && Z.even (fst y) && negb (Z.even (fst x)))%bool then y
  else x.

(** The digits [s], their number [k] and the exponent [n] of the text of
    [a]: the least [k] that has a candidate. *)
Fixpoint shortest (a : Z) (ks : list Z) : option (Z * Z * Z) :=
  match ks with
  | [] => None
  | k :: rest =>
      match candidates a k with
      | [] => shortest a rest
      | c :: cs =>
          let best := fold_left (closer a k) cs c in
          Some (fst best, snd best, k)
      end
  end.

Fixpoint zeros (n : nat) : string :=
  match n with
  | O => ""
  | S n' => "0" ++ zeros n'
  end.

(** The text of a number that is not negative: its decimal writing up to
    2^53; beyond, the fewest digits that are read back as the number,
    followed by zeros below 10^21 and by an exponent from there on. *)
Definition render (a : Z) : string :=
  if a <=? 2 ^ 53 then string_of_Z a
  else
    match shortest a (map Z.of_nat (seq 1 17)) with
    | None => string_of_Z a
    | Some (s, n, k) =>
        let ds := string_of_Z s in
        if n <=? 21 then ds ++ zeros (Z.to_nat (n - k))
        else
          (if k =? 1 then ds
           else String.substring 0 1 ds ++ "."
                ++ String.substring 1 (String.length ds - 1) ds)
          ++ "e+" ++ string_of_Z (n - 1)
    end.

(** [String(x)], [`${x}`] *)
Definition toString (x : Z) : string :=
  if round x =? infinity then "Infinity"
  else if round x =? - infinity then "-Infinity"
  else if round x <? 0 then "-" ++ render (- round x)
  else render (round x).

End Number.

(** ** ApiCache *)

Module Cache.

(** [interface CacheConfig]: every field optional. *)
Record CacheConfig := {
  cfg_ttl     : option Z;
  cfg_maxSize : option Z;
  cfg_enabled : option bool
}.

(** [Required<CacheConfig>], the [config] field of the class. *)
Record Settings := {
  ttl     : Z;
  maxSize : Z;
  enabled : bool
}.

(** [x || d] on an optional number: [undefined] and [0] are falsy. *)
Definition or_default (x : option Z) (d : Z) : Z :=
  match x with
  | Some v => if v =? 0 then d else v
  | None => d
  end.

(** [constructor(config: CacheConfig = {})] *)
Definition constructor (config : CacheConfig) : Settings :=
  {| ttl     := or_default (cfg_ttl config) (5 * 60 * 1000);
     maxSize := or_default (cfg_maxSize config) 100;
     enabled := match cfg_enabled config with
                | Some false => false
                | _ => true
                end |}.

Record CacheEntry := {
  data      : JsValue;
  timestamp : Z;
  expireAt  : Z
}.

Definition Store := list (string * CacheEntry).

Definition keys (s : Store) : list string := map fst s.
Definition size (s : Store) : Z := Z.of_nat (List.length s).

(** [Map.prototype.get] *)
Fixpoint map_get (s : Store) (key : string) : option CacheEntry :=
  match s with
  | [] => None
  | (k, e) :: rest => if String.eqb k key then Some e else map_get rest key
  end.

(** [Map.prototype.has] *)
Definition map_has (s : Store) (key : string) : bool :=
  match map_get s key with Some _ => true | None => false end.

(** [Map.prototype.delete]: the store without the key. *)
Definition map_delete (s : Store) (key : string) : Store :=
  filter (fun ke => negb (String.eqb (fst ke) key)) s.

(** [Map.prototype.set]: a present key keeps its position. *)
Fixpoint map_set (s : Store) (key : string) (e : CacheEntry) : Store :=
  match s with
  | [] => [(key, e)]
  | (k, e') :: rest =>
      if String.eqb k key then (k, e) :: rest
      else (k, e') :: map_set rest key e
  end.

(** [entry.timestamp < oldestTime], where [oldestTime] starts at
    [Infinity] ([None]). *)
Definition older (t : Z) (oldestTime : option Z) : bool :=
  match oldestTime with
  | None => true
  | Some o => t <? o
  end.

(** The scan of [evictIfNeeded]: the loop over [this.cache.entries()],
    carrying [oldestKey] and [oldestTime]. *)
Definition scan_step (acc : string * option Z) (ke : string * CacheEntry)
  : string * option Z :=
  if older (timestamp (snd ke)) (snd acc)
  then (fst ke, Some (timestamp (snd ke)))
  else acc.

Definition scan (s : Store) : string * option Z :=
  fold_left scan_step s ("", None).

(** [if (oldestKey)]: a non-empty string is truthy. *)
Definition truthy (s : string) : bool :=
  match s with EmptyString => false | _ => true end.

(** [private evictIfNeeded()] *)
Definition evictIfNeeded (c : Settings) (s : Store) : Store :=
  if size s >=? maxSize c then
    let oldestKey := fst (scan s) in
    if truthy oldestKey then map_delete s oldestKey else s
  else s.

(** [get<T>(key)]: the value returned and the store left behind. *)
Definition get (c : Settings) (now : Z) (s : Store) (key : string)
  : JsValue * Store :=
  if negb (enabled c) then (JsNull, s)
  else match map_get s key with
       | None => (JsNull, s)
       | Some entry =>
           if now >=? expireAt entry then (JsNull, map_delete s key)
           else (data entry, s)
       end.

(** [set<T>(key, data)], the sum [now + this.config.ttl] taken as it is in
    the integers *)
Definition set (c : Settings) (now : Z) (s : Store) (key : string)
  (d : JsValue) : Store :=
  if negb (enabled c) then s
  else
    let entry := {| data := d; timestamp := now; expireAt := now + ttl c |} in
    map_set (evictIfNeeded c s) key entry.


(** [delete(key)] *)
Definition delete (s : Store) (key : string) : bool * Store :=
  (map_has s key, map_delete s key).

(** [clear()] *)
Definition clear (s : Store) : Store := [].

(** [private cleanup()] *)
Definition cleanup (now : Z) (s : Store) : Store :=
  filter (fun ke => negb (now >=? expireAt (snd ke))) s.

Record Stats := {
  stats_size    : Z;
  stats_maxSize : Z;
  stats_ttl     : Z;
  stats_enabled : bool;
  stats_keys    : list string
}.

(** [getStats()] *)
Definition getStats (c : Settings) (now : Z) (s : Store) : Stats * Store :=
  let s' := cleanup now s in
  ({| stats_size := size s'; stats_maxSize := maxSize c; stats_ttl := ttl c;
      stats_enabled := enabled c; stats_keys := keys s' |}, s').

(** The operations a client of the class can perform, each at the time
    [Date.now()] shows when it runs. *)
Inductive Op :=
| OpGet (key : string)
| OpSet (key : string) (d : JsValue)
| OpDelete (key : string)
| OpClear
| OpGetStats.

Definition step (c : Settings) (s : Store) (top : Z * Op) : Store :=
  match snd top with
  | OpGet key => snd (get c (fst top) s key)
  | OpSet key d => set c (fst top) s key d
  | OpDelete key => snd (delete s key)
  | OpClear => clear s
  | OpGetStats => snd (getStats c (fst top) s)
  end.

(** A new cache, then the operations in turn. *)
Definition run (c : Settings) (ops : list (Z * Op)) : Store :=
  fold_left (step c) ops [].

Definition is_set (op : Op) : bool :=
  match op with OpSet _ _ => true | _ => false end.

Definition set_key_ok (top : Z * Op) : bool :=
  match snd top with
  | OpSet key _ => truthy key
  | _ => true
  end.

(** The entry the design document wants evicted: the first one, in
    insertion order, among those of least creation time. *)
Fixpoint oldest (s : Store) : option (string * CacheEntry) :=
  match s with
  | [] => None
  | ke :: rest =>
      match oldest rest with
      | None => Some ke
      | Some ke' =>
          if timestamp (snd ke) <=? timestamp (snd ke') then Some ke
          else Some ke'
      end
  end.

End Cache.

(** ** Command line *)

Module Cli.

(** [interface Config] *)
Record Config := {
  baseURL       : string;
  cookie        : string;
  requestParams : list (string * string);
  cacheConfig   : Cache.CacheConfig
}.

(** The white space [parseInt] skips: the characters of [WhiteSpace] and
    [LineTerminator].  Those of one byte: *)
Definition is_space (c : ascii) : bool :=
  let n := nat_of_ascii c in
  (Nat.eqb n 32 || (Nat.leb 9 n && Nat.leb n 13))%bool.

(** of two bytes, U+00A0: *)
Definition is_space2 (c1 c2 : ascii) : bool :=
  (Nat.eqb (nat_of_ascii c1) 194 && Nat.eqb (nat_of_ascii c2) 160)%bool.

(** and of three: U+1680, U+2000 to U+200A, U+2028, U+2029, U+202F, U+205F,
    U+3000 and U+FEFF. *)
Definition is_space3 (c1 c2 c3 : ascii) : bool :=
  let n1 := nat_of_ascii c1 in
  let n2 := nat_of_ascii c2 in
  let n3 := nat_of_ascii c3 in
  ((Nat.eqb n1 225 && Nat.eqb n2 154 && Nat.eqb n3 128)
   || (Nat.eqb n1 226 && Nat.eqb n2 128
       && ((Nat.leb 128 n3 && Nat.leb n3 138)
           || Nat.eqb n3 168 || Nat.eqb n3 169 || Nat.eqb n3 175))
   || (Nat.eqb n1 226 && Nat.eqb n2 129 && Nat.eqb n3 159)
   || (Nat.eqb n1 227 && Nat.eqb n2 128 && Nat.eqb n3 128)
   || (Nat.eqb n1 239 && Nat.eqb n2 187 && Nat.eqb n3 191))%bool.

Fixpoint skip_spaces (s : string) : string :=
  match s with
  | String c1 rest1 =>
      if is_space c1 then skip_spaces rest1
      else
        match rest1 with
        | String c2 rest2 =>
            if is_space2 c1 c2 then skip_spaces rest2
            else
              match rest2 with
              | String c3 rest3 =>
                  if is_space3 c1 c2 c3 then skip_spaces rest3 else s
              | EmptyString => s
              end
        | EmptyString => s
        end
  | EmptyString => s
  end.

Definition digit_of (c : ascii) : option Z :=
  let n := nat_of_ascii c in
  if (Nat.leb 48 n && Nat.leb n 57)%bool then Some (Z.of_nat (n - 48))
  else None.

(** The longest prefix of decimal digits; [None] when there is none. *)
Fixpoint digits (s : string) (acc : option Z) : option Z :=
  match s with
  | String c rest =>
      match digit_of c with
      | Some d =>
          digits rest (Some (10 * match acc with Some a => a | None => 0 end + d))
      | None => acc
      end
  | EmptyString => acc
  end.

(** [parseInt(s, 10)]: the number the sign and the digits stand for;
    [None] is [NaN]. *)
Definition parseInt (s : string) : option Z :=
  option_map Number.round
    match skip_spaces s with
    | String "-" rest => option_map Z.opp (digits rest None)
    | String "+" rest => digits rest None
    | t => digits t None
    end.

(** The keys that are array indices, the decimal writings of the integers
    from 0 to 2^32 - 2: an object lists them first, in ascending order,
    and its other keys after them, in the order of their creation. *)
Definition index_of (key : string) : option Z :=
  match digits key None with
  | Some n =>
      if (String.eqb (string_of_Z n) key && (n <=? 4294967294))%bool
      then Some n else None
  | None => None
  end.

(** Whether a new key [key] comes before the key [k] of the object. *)
Definition goes_before (key k : string) : bool :=
  match index_of key, index_of k with
  | Some i, Some j => i <? j
  | Some _, None => true
  | None, _ => false
  end.

(** [o[key] = value] on the own properties of an object, for a key other
    than [__proto__]. *)
Fixpoint define (o : list (string * string)) (key value : string)
  : list (string * string) :=
  match o with
  | [] => [(key, value)]
  | (k, v) :: rest =>
      if String.eqb k key then (k, value) :: rest
      else if goes_before key k then (key, value) :: (k, v) :: rest
      else (k, v) :: define rest key value
  end.

(** [requestParams[key] = value], for a string [value]: the key
    [__proto__] reaches the setter of [Object.prototype], which ignores a
    string, and leaves the object as it is. *)
Definition assign (o : list (string * string)) (key value : string)
  : list (string * string) :=
  if String.eqb key "__proto__" then o else define o key value.

Definition with_baseURL (c : Config) (u : string) : Config :=
  {| baseURL := u; cookie := cookie c; requestParams := requestParams c;
     cacheConfig := cacheConfig c |}.

Definition with_cookie (c : Config) (k : string) : Config :=
  {| baseURL := baseURL c; cookie := k; requestParams := requestParams c;
     cacheConfig := cacheConfig c |}.

Definition with_param (c : Config) (key value : string) : Config :=
  {| baseURL := baseURL c; cookie := cookie c;
     requestParams := assign (requestParams c) key value;
     cacheConfig := cacheConfig c |}.

Definition with_cache (c : Config) (cc : Cache.CacheConfig) : Config :=
  {| baseURL := baseURL c; cookie := cookie c;
     requestParams := requestParams c; cacheConfig := cc |}.

Definition with_ttl (c : Config) (t : Z) : Config :=
  with_cache c {| Cache.cfg_ttl := Some t;
                  Cache.cfg_maxSize := Cache.cfg_maxSize (cacheConfig c);
                  Cache.cfg_enabled := Cache.cfg_enabled (cacheConfig c) |}.

Definition with_maxSize (c : Config) (n : Z) : Config :=
  with_cache c {| Cache.cfg_ttl := Cache.cfg_ttl (cacheConfig c);
                  Cache.cfg_maxSize := Some n;
                  Cache.cfg_enabled := Cache.cfg_enabled (cacheConfig c) |}.

Definition with_enabled (c : Config) (b : bool) : Config :=
  with_cache c {| Cache.cfg_ttl := Cache.cfg_ttl (cacheConfig c);
                  Cache.cfg_maxSize := Cache.cfg_maxSize (cacheConfig c);
                  Cache.cfg_enabled := Some b |}.

(** [&& nextArg]: [args[i + 1]] is there and is not the empty string. *)
Definition present (nextArg : option string) : bool :=
  match nextArg with Some n => Cache.truthy n | None => false end.

Definition text (nextArg : option string) : string :=
  match nextArg with Some n => n | None => "" end.

(** One turn of the loop over the arguments: the configuration after it,
    and whether the turn ends with [i++] (the next argument is skipped). *)
Definition turn (arg : string) (nextArg : option string) (c : Config)
  : Config * bool :=
  if ((String.eqb arg "--baseURL" || String.eqb arg "-u") && present nextArg)%bool
  then (with_baseURL c (text nextArg), true)
  else if ((String.eqb arg "--cookie" || String.eqb arg "-c") && present nextArg)%bool
  then (with_cookie c (text nextArg), true)
  else if ((String.eqb arg "--cache-ttl" || String.eqb arg "-t") && present nextArg)%bool
  then
    (match parseInt (text nextArg) with
     | Some ttlMinutes =>
         if ttlMinutes >? 0
         then with_ttl c (Number.mul (Number.mul ttlMinutes 60) 1000)
         else c
     | None => c
     end, true)
  else if ((String.eqb arg "--cache-size" || String.eqb arg "-s") && present nextArg)%bool
  then
    (match parseInt (text nextArg) with
     | Some size => if size >? 0 then with_maxSize c size else c
     | None => c
     end, true)
  else if String.eqb arg "--no-cache" then (with_enabled c false, false)
  else if String.eqb arg "--enable-cache" then (with_enabled c true, false)
  else if (String.prefix "--" arg && present nextArg
           && negb (String.prefix "--" (text nextArg)))%bool
  then (with_param c (String.substring 2 (String.length arg - 2) arg)
          (text nextArg), true)
  else (c, false).

(** [for (let i = 0; i < args.length; i++)] *)
Fixpoint parse (args : list string) (c : Config) : Config :=
  match args with
  | [] => c
  | arg :: rest =>
      let (c', skip) := turn arg (hd_error rest) c in
      match rest with
      | _ :: rest' => if skip then parse rest' c' else parse rest c'
      | [] => c'
      end
  end.

Definition defaults : Config :=
  {| baseURL := ""; cookie := ""; requestParams := [];
     cacheConfig := {| Cache.cfg_ttl := Some (5 * 60 * 1000);
                       Cache.cfg_maxSize := Some 100;
                       Cache.cfg_enabled := Some true |} |}.

(** [getConfigFromArgs()], on [process.argv]; [None] is [process.exit(1)]. *)
Definition getConfigFromArgs (argv : list string) : option Config :=
  let c := parse (skipn 2 argv) defaults in
  if negb (Cache.truthy (baseURL c)) then None
  else if negb (Cache.truthy (cookie c)) then None
  else Some c.

(** What [getConfigFromArgs] writes with [console.error] when it ends the
    process, before the lines of [printUsage]. *)
Definition exit_message (argv : list string) : option string :=
  let c := parse (skipn 2 argv) defaults in
  if negb (Cache.truthy (baseURL c)) then Some "错误: 缺少 baseURL 参数"
  else if negb (Cache.truthy (cookie c)) then Some "错误: 缺少 cookie 参数"
  else None.

End Cli.

(** ** Errors, promises and the outside world *)

(** What the program throws and what its promises reject with; all of
    them are instances of [Error]. *)
Inductive JsError :=
| ApiError (errcode : Z) (errmsg : string)   (* class ApiError extends Error *)
| AxiosError (message : string)              (* rejection of client.get: the
                                                request was made, and no
                                                response came *)
| PlainError (message : string)              (* new Error(message) *)
| TypeError (message : string)
| AxiosResponseError (status : Z) (statusText : string) (data : JsValue)
    (message : string).                      (* rejection of client.get: the
                                                response has a status that
                                                is not a success *)

(** [error.message] *)
Definition message_of (e : JsError) : string :=
  match e with
  | ApiError errcode errmsg =>
      "API Error: " ++ errmsg ++ " (errcode: " ++ Number.toString errcode ++ ")"
  | AxiosError m | PlainError m | TypeError m => m
  | AxiosResponseError _ _ _ m => m
  end.

(** [error instanceof ApiError] *)
Definition is_ApiError (e : JsError) : bool :=
  match e with ApiError _ _ => true | _ => false end.

(** How a call or a promise ends. *)
Inductive Outcome (A : Type) :=
| Resolved (a : A)
| Rejected (e : JsError).
Arguments Resolved {A} a.
Arguments Rejected {A} e.

(** The body of an answer of the origin: [{ errcode, errmsg, data }]. *)
Record ApiResponse := {
  errcode   : Z;
  errmsg    : string;
  resp_data : JsValue
}.

(** [checkApiResponse(response)] *)
Definition checkApiResponse (response : ApiResponse) : Outcome JsValue :=
  if errcode response =? 0 then Resolved (resp_data response)
  else Rejected (ApiError (errcode response) (errmsg response)).

(** What leaves the process: a [client.get] on a path with its one
    parameter, or a call of the function wrapped by [withCache].  The
    process does not keep them; they are recorded here to count them. *)
Inductive Request :=
| HttpGet (url : string) (param : Z)
| Invoke (method : string) (args : list JsValue).

(** The calls of [getGroupInfo] as the drivers see them: the call is made,
    and later the reactions on its promise run.  They are recorded, in
    the order they happen, to tell what runs concurrently. *)
Inductive CallEvent :=
| Started (id : Z)
| Settled (id : Z).

(** The calls of [console.error] and [console.warn], with the values their
    message is built from.  What [console.log] writes is left out. *)
Inductive LogLine :=
| ListApiFailed (errmsg : string) (errcode : Z)
| ListFailed (message : string)
| DetailApiFailed (errmsg : string) (errcode : Z)
| DetailFailed (message : string)
| BatchItemFailed (id : Z) (errorMsg : string)
| BatchSummary (failed : nat)
| BatchSummaryItem (id : Z) (error : string)
| PreloadItemFailed (id : Z) (message : string)
| PreloadFailed (message : string)
| CategoryApiFailed (errmsg : string) (errcode : Z)
| CategoryFailed (message : string)
| HttpError (status : Z) (statusText : string)
| ResponseData (data : JsValue)
| NetworkError (message : string)
| RequestError (message : string).

(** The response interceptor of the client [createApiClient] builds, on an
    error: what it writes to the console before it passes the error on.
    An error with a response has its status and its data written, an error
    of a request without response its message, and so has any other. *)
Definition intercepted (error : JsError) : list LogLine :=
  match error with
  | AxiosResponseError status statusText data _ =>
      [HttpError status statusText; ResponseData data]
  | AxiosError message => [NetworkError message]
  | _ => [RequestError (message_of error)]
  end.

(** A call of [getGroupInfo] that has run up to its first [await]. *)
Inductive Task :=
| Ready (cached : JsValue)          (* cache hit: nothing in flight *)
| InFlight (cacheKey : string).     (* the request is on its way *)

(** [Array.prototype.slice(i, j)] for [0 <= i <= j] *)
Definition slice {A : Type} (i j : nat) (l : list A) : list A :=
  firstn (j - i) (skipn i l).

(** The list without its element of index [i]. *)
Fixpoint remove_nth {A : Type} (i : nat) (l : list A) : list A :=
  match l, i with
  | [], _ => []
  | _ :: rest, O => rest
  | x :: rest, S i' => x :: remove_nth i' rest
  end.

(** The world outside the process, of states [W]: its clock, the origin
    behind the HTTP client, the order in which requests in flight are
    answered ([pick w n] is the index, modulo [n], of the first of [n]
    pending promises to settle), together with [JSON.stringify] on an
    argument array and the configuration of the one [apiCache] of the
    process. *)
Record Env (W : Type) := {
  clock     : W -> Z;
  http      : string -> Z -> W -> Outcome ApiResponse * W;
  pick      : W -> nat -> nat;
  stringify : list JsValue -> string;
  config    : Cache.Settings
}.
Arguments clock {W} _ _.
Arguments http {W} _ _ _ _.
Arguments pick {W} _ _ _.
Arguments stringify {W} _ _.
Arguments config {W} _.

Section Runtime.

Context {W : Type} (env : Env W).

(** The process once [initialize] has run: the store of [apiCache], the
    world around it, and what an observer has seen of it so far. *)
Record Runtime := {
  cache    : Cache.Store;
  world    : W;
  requests : list Request;
  schedule : list CallEvent;
  console  : list LogLine
}.

(** Asynchronous code run as one logical thread: a state transformer that
    ends in a value or in an exception. *)
Definition M (A : Type) : Type := Runtime -> Outcome A * Runtime.

Definition ret {A : Type} (a : A) : M A := fun rt => (Resolved a, rt).

Definition throw {A : Type} (e : JsError) : M A := fun rt => (Rejected e, rt).

Definition bind {A B : Type} (m : M A) (k : A -> M B) : M B :=
  fun rt =>
    match m rt with
    | (Resolved a, rt') => k a rt'
    | (Rejected e, rt') => (Rejected e, rt')
    end.

(** [try { m } catch (error) { handler }] *)
Definition try_catch {A : Type} (m : M A) (handler : JsError -> M A) : M A :=
  fun rt =>
    match m rt with
    | (Resolved a, rt') => (Resolved a, rt')
    | (Rejected e, rt') => handler e rt'
    end.

Definition lift {A : Type} (o : Outcome A) : M A := fun rt => (o, rt).

Notation "x <- m ;; k" := (bind m (fun x => k))
  (at level 61, m at next level, right associativity).
Notation "m ;;; k" := (bind m (fun _ => k))
  (at level 61, right associativity).

Definition with_cache (rt : Runtime) (s : Cache.Store) : Runtime :=
  {| cache := s; world := world rt; requests := requests rt;
     schedule := schedule rt; console := console rt |}.

Definition with_world (rt : Runtime) (w : W) : Runtime :=
  {| cache := cache rt; world := w; requests := requests rt;
     schedule := schedule rt; console := console rt |}.

(** [cache.get(key)], at the time the clock shows *)
Definition cache_get (key : string) : M JsValue :=
  fun rt =>
    let (v, s) := Cache.get (config env) (clock env (world rt)) (cache rt) key in
    (Resolved v, with_cache rt s).

(** [cache.set(key, data)] *)
Definition cache_set (key : string) (d : JsValue) : M unit :=
  fun rt =>
    (Resolved tt,
     with_cache rt (Cache.set (config env) (clock env (world rt)) (cache rt) key d)).

Definition send (r : Request) : M unit :=
  fun rt =>
    (Resolved tt,
     {| cache := cache rt; world := world rt;
        requests := (requests rt ++ [r])%list;
        schedule := schedule rt; console := console rt |}).

Definition note (ev : CallEvent) : M unit :=
  fun rt =>
    (Resolved tt,
     {| cache := cache rt; world := world rt; requests := requests rt;
        schedule := (schedule rt ++ [ev])%list; console := console rt |}).

Definition log (l : LogLine) : M unit :=
  fun rt =>
    (Resolved tt,
     {| cache := cache rt; world := world rt; requests := requests rt;
        schedule := schedule rt; console := (console rt ++ [l])%list |}).

(** The answer to a [client.get] arrives: the world moves on, and the
    promise resolves with [response.data], or rejects after the interceptor
    of the client has written the error to the console. *)
Definition receive (url : string) (param : Z) : M ApiResponse :=
  fun rt =>
    let (o, w) := http env url param (world rt) in
    match o with
    | Resolved response => (Resolved response, with_world rt w)
    | Rejected error =>
        (Rejected error,
         {| cache := cache rt; world := w; requests := requests rt;
            schedule := schedule rt;
            console := (console rt ++ intercepted error)%list |})
    end.

(** [private generateKey(method, ...args)] *)
Definition generateKey (method : string) (args : list JsValue) : string :=
  method ++ ":" ++ stringify env args.

(** [getInterfaceList(projectId)] *)
Definition getInterfaceList (projectId : Z) : M JsValue :=
  let cacheKey := generateKey "getInterfaceList" [JsNumber projectId] in
  cached <- cache_get cacheKey ;;
  if not_null cached then ret cached
  else
    try_catch
      (send (HttpGet "/api/interface/list_menu" projectId) ;;;
       response <- receive "/api/interface/list_menu" projectId ;;
       result <- lift (checkApiResponse response) ;;
       cache_set cacheKey result ;;;
       ret result)
      (fun error =>
         match error with
         | ApiError code msg => log (ListApiFailed msg code) ;;; throw error
         | _ =>
             log (ListFailed (message_of error)) ;;;
             throw (PlainError "获取接口列表时发生未知错误")
         end).

(** [getGroupInfo(id)] up to its [await]: the cache is asked, and on a
    miss the request leaves. *)
Definition getGroupInfo_begin (id : Z) : M Task :=
  let cacheKey := generateKey "getGroupInfo" [JsNumber id] in
  note (Started id) ;;;
  cached <- cache_get cacheKey ;;
  if not_null cached then ret (Ready cached)
  else send (HttpGet "/api/interface/get" id) ;;; ret (InFlight cacheKey).

(** The moment the promise of [getGroupInfo(id)] settles, either way. *)
Definition observed {A : Type} (id : Z) (m : M A) : M A :=
  fun rt =>
    let (o, rt') := m rt in
    (o, {| cache := cache rt'; world := world rt'; requests := requests rt';
           schedule := (schedule rt' ++ [Settled id])%list;
           console := console rt' |}).

(** [getGroupInfo(id)] from its [await] on. *)
Definition getGroupInfo_end (id : Z) (t : Task) : M JsValue :=
  observed id
    match t with
    | Ready cached => ret cached
    | InFlight cacheKey =>
        try_catch
          (response <- receive "/api/interface/get" id ;;
           result <- lift (checkApiResponse response) ;;
           cache_set cacheKey result ;;;
           ret result)
          (fun error =>
             match error with
             | ApiError code msg => log (DetailApiFailed msg code) ;;; throw error
             | _ =>
                 log (DetailFailed (message_of error)) ;;;
                 throw (PlainError "获取接口详情时发生未知错误")
             end)
    end.

(** [await getGroupInfo(id)] with nothing else running meanwhile. *)
Definition getGroupInfo (id : Z) : M JsValue :=
  t <- getGroupInfo_begin id ;; getGroupInfo_end id t.

(** The loop of [batchGetGroupInfo], carrying [results] and [errors]. *)
Fixpoint batch_loop (ids : list Z) (results : list JsValue)
  (errors : list (Z * string)) : M (list JsValue * list (Z * string)) :=
  match ids with
  | [] => ret (results, errors)
  | id :: rest =>
      acc <- try_catch
               (apiData <- getGroupInfo id ;;
                ret ((results ++ [apiData])%list, errors))
               (fun error =>
                  let errorMsg := message_of error in
                  log (BatchItemFailed id errorMsg) ;;;
                  ret (results, (errors ++ [(id, errorMsg)])%list)) ;;
      batch_loop rest (fst acc) (snd acc)
  end.

(** [errors.forEach(({ id, error }) => console.warn(...))] *)
Fixpoint warn_each (errors : list (Z * string)) : M unit :=
  match errors with
  | [] => ret tt
  | (id, error) :: rest => log (BatchSummaryItem id error) ;;; warn_each rest
  end.

(** [batchGetGroupInfo(ids)] *)
Definition batchGetGroupInfo (ids : list Z) : M (list JsValue) :=
  acc <- batch_loop ids [] [] ;;
  (if (0 <? List.length (snd acc))%nat
   then log (BatchSummary (List.length (snd acc))) ;;; warn_each (snd acc)
   else ret tt) ;;;
  ret (fst acc).

(** [batch.map(id => getGroupInfo(id).catch(...))]: every call is made, in
    order, before any of the promises is looked at. *)
Fixpoint start_all (batch : list Z) : M (list (Z * Task)) :=
  match batch with
  | [] => ret []
  | id :: rest =>
      t <- getGroupInfo_begin id ;;
      ts <- start_all rest ;;
      ret ((id, t) :: ts)
  end.

(** One promise of the batch settles:
    [getGroupInfo(id).catch(err => { console.warn(...); return null; })] *)
Definition settle (it : Z * Task) : M JsValue :=
  try_catch (getGroupInfo_end (fst it) (snd it))
    (fun err =>
       log (PreloadItemFailed (fst it) (message_of err)) ;;; ret JsNull).

(** [await Promise.all(promises)]: the promises settle one after the other,
    in the order the world decides, and the wait ends when all [n] have.
    A rejection of one of them would be the rejection of the whole; the
    promises made by [settle] never reject. *)
Fixpoint promise_all (n : nat) (promises : list (Z * Task))
  : M (list (Z * JsValue)) :=
  match n with
  | O => ret []
  | S n' =>
      fun rt =>
        let i := (pick env (world rt) (List.length promises)
                  mod List.length promises)%nat in
        match nth_error promises i with
        | None => (Resolved [], rt)
        | Some it =>
            (v <- settle it ;;
             vs <- promise_all n' (remove_nth i promises) ;;
             ret ((fst it, v) :: vs)) rt
        end
  end.

Definition batchSize : nat := 5.

(** One turn of the loop of [preloadInterfaceData]. *)
Definition preload_round (i : nat) (interfaceIds : list Z) : M unit :=
  let batch := slice i (i + batchSize) interfaceIds in
  promises <- start_all batch ;;
  promise_all (List.length promises) promises ;;;
  ret tt.

(** [for (let i = 0; i < interfaceIds.length; i += batchSize)]; the loop
    takes at most [fuel] turns. *)
Fixpoint preload_loop (fuel i : nat) (interfaceIds : list Z) : M unit :=
  match fuel with
  | O => ret tt
  | S fuel' =>
      if (i <? List.length interfaceIds)%nat then
        preload_round i interfaceIds ;;;
        preload_loop fuel' (i + batchSize) interfaceIds
      else ret tt
  end.

(** [interfaces.forEach(category => category.list.forEach(item =>
    interfaceIds.push(item._id)))] *)
Definition collect_ids (interfaces : JsValue) : M (list Z) :=
  match interfaces with
  | JsCategories l =>
      ret (flat_map (fun category => map child_id (cat_list category)) l)
  | JsNull =>
      throw (TypeError "Cannot read properties of null (reading 'forEach')")
  | JsUndefined =>
      throw (TypeError "Cannot read properties of undefined (reading 'forEach')")
  | _ => throw (TypeError "interfaces.forEach is not a function")
  end.

(** [preloadInterfaceData(projectId)] *)
Definition preloadInterfaceData (projectId : Z) : M unit :=
  try_catch
    (interfaces <- getInterfaceList projectId ;;
     interfaceIds <- collect_ids interfaces ;;
     preload_loop (List.length interfaceIds) 0 interfaceIds)
    (fun error => log (PreloadFailed (message_of error)) ;;; ret tt).

(** The function [fn] wrapped by [withCache]: it lives in the outside
    world, and ends in a value or a rejection. *)
Definition call (method : string)
  (fn : list JsValue -> W -> Outcome JsValue * W) (args : list JsValue)
  : M JsValue :=
  send (Invoke method args) ;;;
  fun rt => let (o, w) := fn args (world rt) in (o, with_world rt w).

(** [withCache(method, fn)] *)
Definition withCache (method : string)
  (fn : list JsValue -> W -> Outcome JsValue * W)
  : list JsValue -> M JsValue :=
  fun args =>
    let key := generateKey method args in
    cached <- cache_get key ;;
    if not_null cached then ret cached
    else
      result <- call method fn args ;;
      cache_set key result ;;;
      ret result.

(** [n] calls of the wrapped function in a row, with their results. *)
Fixpoint call_times (n : nat) (f : M JsValue)
  : Runtime -> list (Outcome JsValue) * Runtime :=
  match n with
  | O => fun rt => ([], rt)
  | S n' =>
      fun rt =>
        let (o, rt1) := f rt in
        let (os, rt2) := call_times n' f rt1 in
        (o :: os, rt2)
  end.

End Runtime.

(** ** The words of the design document *)

(** [ceil(N / C)] *)
Definition ceil_div (n c : nat) : nat := ((n + c - 1) / c)%nat.

(** Consecutive chunks of at most [c] identifiers, in the original order;
    [fuel] bounds their number. *)
Fixpoint chunks_upto (fuel c : nat) (ids : list Z) : list (list Z) :=
  match fuel with
  | O => []
  | S fuel' =>
      match ids with
      | [] => []
      | _ => firstn c ids :: chunks_upto fuel' c (skipn c ids)
      end
  end.

Definition chunks (c : nat) (ids : list Z) : list (list Z) :=
  chunks_upto (List.length ids) c ids.

(** A schedule made of rounds, one per chunk: in a round every call of the
    chunk is started, in order, before any of them settles; they settle in
    some order; and the next round starts after the last of them. *)
Inductive Rounds : list (list Z) -> list CallEvent -> Prop :=
| Rounds_nil : Rounds [] []
| Rounds_cons (chunk order : list Z) (rest : list (list Z))
    (tr : list CallEvent) :
    Permutation chunk order ->
    Rounds rest tr ->
    Rounds (chunk :: rest) (map Started chunk ++ map Settled order ++ tr)%list.

(** The number of rounds of a schedule: the runs of consecutive starts. *)
Fixpoint count_rounds (starting : bool) (tr : list CallEvent) : nat :=
  match tr with
  | [] => O
  | Started _ :: rest =>
      if starting then count_rounds true rest else S (count_rounds true rest)
  | Settled _ :: rest => count_rounds false rest
  end.

Definition rounds (tr : list CallEvent) : nat := count_rounds false tr.

(** ** A small world to run the program in

    The clock is the whole world and advances by one at every answer.
    Identifier 7 is unknown to the origin, the connection breaks on 9,
    identifier 0 has [null] for data, and project 1 lists the interfaces
    1 to 6 in two categories. *)

Module Demo.

Definition api (id : Z) : ApiData :=
  {| api_id := id; api_title := "t"; api_path := "/p"; api_method := "GET";
     api_catid := 1 |}.

Definition child (id : Z) : ApiCategoryChild :=
  {| child_id := id; child_title := "t"; child_path := "/p";
     child_method := "GET"; child_catid := 1 |}.

Definition project : list ApiCategoryItem :=
  [ {| cat_id := 1; cat_name := "a"; cat_desc := "";
       cat_list := [child 1; child 2; child 3; child 4] |};
    {| cat_id := 2; cat_name := "b"; cat_desc := "";
       cat_list := [child 5; child 6] |} ].

Definition time (w : Z) : Z := w.

Definition origin (url : string) (param : Z) (w : Z)
  : Outcome ApiResponse * Z :=
  (if String.eqb url "/api/interface/list_menu" then
     if param =? 1 then
       Resolved {| errcode := 0; errmsg := "ok";
                   resp_data := JsCategories project |}
     else if param =? 2 then Rejected (AxiosError "connect ECONNREFUSED")
     else Resolved {| errcode := 40011; errmsg := "no such project";
                      resp_data := JsNull |}
   else
     if param =? 7 then
       Resolved {| errcode := 404; errmsg := "not found"; resp_data := JsNull |}
     else if param =? 9 then Rejected (AxiosError "timeout of 1000ms exceeded")
     else if param =? 0 then
       Resolved {| errcode := 0; errmsg := "ok"; resp_data := JsNull |}
     else
       Resolved {| errcode := 0; errmsg := "ok";
                   resp_data := JsApiData (api param) |},
   w + 1).

(** The last request sent is answered first. *)
Definition last_first (w : Z) (n : nat) : nat := (n - 1)%nat.

Definition show (v : JsValue) : string :=
  match v with
  | JsNull => "null"
  | JsUndefined => "null"
  | JsNumber n => string_of_Z n
  | JsString s => s
  | JsCategories _ => "[...]"
  | JsApiData _ => "{...}"
  end.

Definition json (args : list JsValue) : string :=
  "[" ++ String.concat "," (map show args) ++ "]".

Definition settings (max : Z) (on : bool) : Cache.Settings :=
  {| Cache.ttl := 1000; Cache.maxSize := max; Cache.enabled := on |}.

Definition env (max : Z) (on : bool) : Env Z :=
  {| clock := time; http := origin; pick := last_first; stringify := json;
     config := settings max on |}.

Definition boot (s : Cache.Store) (now : Z) : Runtime (W := Z) :=
  {| cache := s; world := now; requests := []; schedule := []; console := [] |}.

Definition entry (v : JsValue) (t : Z) : Cache.CacheEntry :=
  {| Cache.data := v; Cache.timestamp := t; Cache.expireAt := t + 1000 |}.

(** A wrapped function that always fails, and one that resolves with
    [null]. *)
Definition failing (args : list JsValue) (w : Z) : Outcome JsValue * Z :=
  (Rejected (AxiosError "timeout of 1000ms exceeded"), w + 1).

Definition nothing (args : list JsValue) (w : Z) : Outcome JsValue * Z :=
  (Resolved JsNull, w + 1).

Definition answer (args : list JsValue) (w : Z) : Outcome JsValue * Z :=
  (Resolved (JsNumber 42), w + 1).

End Demo.

(** ** Notions used in the statements *)

(** The accumulator of the scan of [evictIfNeeded] after one more entry, if
    there is one. *)
Definition after (acc : string * option Z)
  (o : option (string * Cache.CacheEntry)) : string * option Z :=
  match o with
  | None => acc
  | Some ke => Cache.scan_step acc ke
  end.

(** The invariant behind the capacity bound: the store is within its
    capacity and none of its keys is the empty string. *)
Definition within (c : Cache.Settings) (s : Cache.Store) : Prop :=
  Cache.size s <= Cache.maxSize c
  /\ Forall (fun k => Cache.truthy k = true) (Cache.keys s).

(** Both numbers of a cache configuration are given and positive. *)
Definition positive (cc : Cache.CacheConfig) : Prop :=
  exists t m,
    Cache.cfg_ttl cc = Some t /\ 0 < t /\ Cache.cfg_maxSize cc = Some m /\ 0 < m.

(** What [cache.get(key)] answers in a given state of the process, and the
    store it leaves. *)
Definition lookup {W : Type} (env : Env W) (key : string) (rt : Runtime)
  : JsValue * Cache.Store :=
  Cache.get (config env) (clock env (world rt)) (cache rt) key.

(** A state in which the key, as far as the cache is in use, is absent or
    holds [null]. *)
Definition holds_null {W : Type} (env : Env W) (key : string)
  (rt : @Runtime W) : Prop :=
  Cache.enabled (config env) = true ->
  forall e, Cache.map_get (cache rt) key = Some e -> Cache.data e = JsNull.

(** How an awaited [client.get] followed by [checkApiResponse] ends: in the
    data of the answer, in the error of the origin, or in the error of the
    transport. *)
Definition answered (o : Outcome ApiResponse) : Outcome JsValue :=
  match o with
  | Resolved response => checkApiResponse response
  | Rejected e => Rejected e
  end.

(** The values of the calls that succeeded, and the identifiers and
    messages of those that failed, each in the order of the calls. *)
Fixpoint successes (os : list (Outcome JsValue)) : list JsValue :=
  match os with
  | [] => []
  | Resolved v :: rest => v :: successes rest
  | Rejected _ :: rest => successes rest
  end.

Fixpoint failures (ios : list (Z * Outcome JsValue)) : list (Z * string) :=
  match ios with
  | [] => []
  | (_, Resolved _) :: rest => failures rest
  | (id, Rejected e) :: rest => (id, message_of e) :: failures rest
  end.

(** The identifiers of a listing, in the order of the listing. *)
Definition listed (l : list ApiCategoryItem) : list Z :=
  flat_map (fun category => map child_id (cat_list category)) l.

(** ** The rest of the module: maintenance, lookup by category, start-up,
       and the tools of the server *)

(** [s.includes(sub)] *)
Fixpoint includes (s sub : string) : bool :=
  (String.prefix sub s
   || match s with
      | String _ rest => includes rest sub
      | EmptyString => false
      end)%bool.

(** The double quote, as a string. *)
Definition quote : string := String "034"%char EmptyString.

(** The text of a tool's answer: a literal text, or the
    [JSON.stringify(payload, null, 2)] of a payload. *)
Inductive ToolResult (P : Type) :=
| Text (text : string)
| Stringified (payload : P).
Arguments Text {P} text.
Arguments Stringified {P} payload.

(** What [search_interfaces] pushes for an interface that matches. *)
Record SearchResult := {
  sr_id            : Z;
  sr_title         : string;
  sr_method        : string;
  sr_path          : string;
  sr_category_name : string;
  sr_category_id   : Z
}.

(** [{ total: searchResults.length, results: searchResults }] *)
Record SearchPayload := {
  sp_total   : nat;
  sp_results : list SearchResult
}.

Section Services.

Context {W : Type} (env : Env W).

(** [String.prototype.toLowerCase] *)
Variable toLowerCase : string -> string.

Notation "x <- m ;; k" := (bind m (fun x => k))
  (at level 61, m at next level, right associativity).
Notation "m ;;; k" := (bind m (fun _ => k))
  (at level 61, right associativity).

(** [cache.delete(key)] *)
Definition cache_delete (key : string) : @M W bool :=
  fun rt =>
    let (found, s) := Cache.delete (cache rt) key in
    (Resolved found, with_cache rt s).

(** [cache.clear()] *)
Definition cache_clear : @M W unit :=
  fun rt => (Resolved tt, with_cache rt (Cache.clear (cache rt))).

(** [cache.getStats()] *)
Definition cache_getStats : @M W Cache.Stats :=
  fun rt =>
    let (stats, s) :=
      Cache.getStats (config env) (clock env (world rt)) (cache rt) in
    (Resolved stats, with_cache rt s).

(** [clearProjectCache(projectId)] *)
Definition clearProjectCache (projectId : Z) : @M W unit :=
  let listKey := generateKey env "getInterfaceList" [JsNumber projectId] in
  cache_delete listKey ;;; ret tt.

(** [clearInterfaceCache(id)] *)
Definition clearInterfaceCache (id : Z) : @M W unit :=
  let detailKey := generateKey env "getGroupInfo" [JsNumber id] in
  cache_delete detailKey ;;; ret tt.

(** [getCacheStats()]: the statistics go to [console.log] only. *)
Definition getCacheStats : @M W unit :=
  cache_getStats ;;; ret tt.

(** The test of [interfaces.find] in [getInterfacesByCategory]. *)
Definition category_matches (categoryName : string)
  (category : ApiCategoryItem) : bool :=
  (includes (toLowerCase (cat_name category)) (toLowerCase categoryName)
   || includes (toLowerCase categoryName) (toLowerCase (cat_name category)))%bool.

(** [interfaces.find(...)] *)
Definition find_category (interfaces : JsValue) (categoryName : string)
  : @M W (option ApiCategoryItem) :=
  match interfaces with
  | JsCategories l => ret (find (category_matches categoryName) l)
  | JsNull =>
      throw (TypeError "Cannot read properties of null (reading 'find')")
  | JsUndefined =>
      throw (TypeError "Cannot read properties of undefined (reading 'find')")
  | _ => throw (TypeError "interfaces.find is not a function")
  end.

(** The message of the error for a name no category matches. *)
Definition no_category (categoryName : string) : string :=
  "未找到名称包含 " ++ quote ++ categoryName ++ quote ++ " 的目录".

(** [getInterfacesByCategory(projectId, categoryName)] *)
Definition getInterfacesByCategory (projectId : Z) (categoryName : string)
  : @M W (list ApiCategoryChild) :=
  try_catch
    (interfaces <- getInterfaceList env projectId ;;
     matchedCategory <- find_category interfaces categoryName ;;
     match matchedCategory with
     | None => throw (PlainError (no_category categoryName))
     | Some category => ret (cat_list category)
     end)
    (fun error =>
       match error with
       | ApiError code msg => log (CategoryApiFailed msg code) ;;; throw error
       | _ =>
           log (CategoryFailed (message_of error)) ;;;
           throw (PlainError (message_of error))
       end).

(** *** What the handlers of the server are made of *)

(** [`Error: ${errorMessage}`] *)
Definition error_text (error : JsError) : string :=
  "Error: " ++ message_of error.

(** The [try { ... } catch (error) { return ... }] every handler is made
    of. *)
Definition tool {P : Type} (body : @M W (ToolResult P)) : @M W (ToolResult P) :=
  try_catch body (fun error => ret (Text (error_text error))).

(** [if (!project_id) { throw new Error("project_id is required."); }] *)
Definition required (name : string) (id : Z) : @M W unit :=
  if id =? 0 then throw (PlainError (name ++ " is required."))
  else ret tt.

(** [matchesQuery && matchesMethod] in [search_interfaces]; a [method]
    that is absent or empty filters nothing. *)
Definition search_matches (query : string) (method : option string)
  (item : ApiCategoryChild) : bool :=
  let matchesQuery :=
    (includes (toLowerCase (child_title item)) (toLowerCase query)
     || includes (toLowerCase (child_path item)) (toLowerCase query)
     || includes (toLowerCase (child_method item)) (toLowerCase query))%bool in
  let matchesMethod :=
    match method with
    | None => true
    | Some m =>
        (negb (Cache.truthy m)
         || String.eqb (toLowerCase (child_method item)) (toLowerCase m))%bool
    end in
  (matchesQuery && matchesMethod)%bool.

Definition found (category : ApiCategoryItem) (item : ApiCategoryChild)
  : SearchResult :=
  {| sr_id := child_id item; sr_title := child_title item;
     sr_method := child_method item; sr_path := child_path item;
     sr_category_name := cat_name category; sr_category_id := cat_id category |}.

(** The two nested [forEach] of [search_interfaces]. *)
Definition search (interfaces : JsValue) (query : string)
  (method : option string) : @M W (list SearchResult) :=
  match interfaces with
  | JsCategories l =>
      ret (flat_map
             (fun category =>
                map (found category)
                    (filter (search_matches query method) (cat_list category)))
             l)
  | JsNull =>
      throw (TypeError "Cannot read properties of null (reading 'forEach')")
  | JsUndefined =>
      throw (TypeError "Cannot read properties of undefined (reading 'forEach')")
  | _ => throw (TypeError "interfaces.forEach is not a function")
  end.

End Services.

(** *** Start-up *)

Module Init.

(** The instance [createApiClient] builds: its base URL and its headers.
    Its response interceptor passes every answer and every error on as it
    is; what it writes to the console is in [receive]. *)
Record Client := {
  client_baseURL : string;
  client_headers : list (string * string)
}.

(** [createApiClient(baseURL, cookie)] *)
Definition createApiClient (baseURL cookie : string) : Client :=
  {| client_baseURL := baseURL;
     client_headers := [("Accept", "application/json, text/plain, */*");
                        ("Cookie", cookie)] |}.

(** The three module variables [apiClient], [apiCache] and [config];
    [None] is [null].  The cache is its settings and its store. *)
Record State := {
  apiClient : option Client;
  apiCache  : option (Cache.Settings * Cache.Store);
  config    : option Cli.Config
}.

Definition start : State :=
  {| apiClient := None; apiCache := None; config := None |}.

(** [initialize(newConfig)] *)
Definition initialize (newConfig : Cli.Config) (st : State) : State :=
  match config st with
  | Some _ => st
  | None =>
      {| apiClient := Some (createApiClient (Cli.baseURL newConfig)
                              (Cli.cookie newConfig));
         apiCache := Some (Cache.constructor (Cli.cacheConfig newConfig), []);
         config := Some newConfig |}
  end.

(** [initializeConfig()], on [process.argv]; [None] is [process.exit(1)]. *)
Definition initializeConfig (argv : list string) (st : State) : option State :=
  match config st with
  | Some _ => Some st
  | None =>
      match Cli.getConfigFromArgs argv with
      | Some cliConfig => Some (initialize cliConfig st)
      | None => None
      end
  end.

(** [getApiCache()]: the instance returned, and the state left. *)
Definition getApiCache (argv : list string) (st : State)
  : option (option (Cache.Settings * Cache.Store) * State) :=
  match apiCache st with
  | Some _ => Some (apiCache st, st)
  | None =>
      match initializeConfig argv st with
      | Some st' => Some (apiCache st', st')
      | None => None
      end
  end.

(** [getApiClient()] *)
Definition getApiClient (argv : list string) (st : State)
  : option (option Client * State) :=
  match apiClient st with
  | Some _ => Some (apiClient st, st)
  | None =>
      match initializeConfig argv st with
      | Some st' => Some (apiClient st', st')
      | None => None
      end
  end.

(** What the program can ask of its start-up code. *)
Inductive Step :=
| Initialize (newConfig : Cli.Config)
| InitializeConfig
| GetApiCache
| GetApiClient.

Definition step (argv : list string) (st : State) (s : Step) : option State :=
  match s with
  | Initialize newConfig => Some (initialize newConfig st)
  | InitializeConfig => initializeConfig argv st
  | GetApiCache => option_map snd (getApiCache argv st)
  | GetApiClient => option_map snd (getApiClient argv st)
  end.

Fixpoint steps (argv : list string) (st : State) (l : list Step)
  : option State :=
  match l with
  | [] => Some st
  | s :: rest =>
      match step argv st s with
      | Some st' => steps argv st' rest
      | None => None
      end
  end.

End Init.

(** *** The tools of the server *)

(** What the flag [isInitialized] of the server and the three variables of
    the module can be together.  [initialize] is the only writer of the
    variables of the module: it writes the three together, and once; the
    server sets its flag after it. *)
Inductive Startup :=
| Cold                               (* nothing is initialised *)
| ModuleReady (config : Cli.Config)  (* [initialize(config)] has run, for
                                        another client of the module *)
| ServerReady (config : Cli.Config). (* [initializeIfNeeded()] has run, and
                                        the module has this configuration *)

Definition isInitialized (s : Startup) : bool :=
  match s with
  | ServerReady _ => true
  | _ => false
  end.

(** The variables of the module. *)
Definition module_state (s : Startup) : Init.State :=
  match s with
  | Cold => Init.start
  | ModuleReady config | ServerReady config =>
      Init.initialize config Init.start
  end.

(** [initializeIfNeeded()], on [process.argv]: the configuration the
    module has afterwards; [None] is [process.exit(1)]. *)
Definition initializeIfNeeded (argv : list string) (s : Startup)
  : option Cli.Config :=
  if isInitialized s then Init.config (module_state s)
  else
    match Cli.getConfigFromArgs argv with
    | None => None
    | Some config =>
        match Init.getApiCache argv (Init.initialize config (module_state s)) with
        | Some (_, st) => Init.config st
        | None => None
        end
    end.

Section Server.

Context {W : Type} (env : Env W).

(** [String.prototype.toLowerCase] *)
Variable toLowerCase : string -> string.

Notation "x <- m ;; k" := (bind m (fun x => k))
  (at level 61, m at next level, right associativity).
Notation "m ;;; k" := (bind m (fun _ => k))
  (at level 61, right associativity).

(** The world with the cache [initialize] has built: its settings are
    those of [new ApiCache(config.cacheConfig)]. *)
Definition with_config (c : Cache.Settings) : Env W :=
  {| clock := clock env; http := http env; pick := pick env;
     stringify := stringify env; config := c |}.

(** The store of the cache once [initializeIfNeeded] has run: the one the
    cache had, and the empty one of a cache just built. *)
Definition store_in_use (s : Startup) (rt : @Runtime W) : Runtime :=
  match Init.apiCache (module_state s) with
  | Some _ => rt
  | None => with_cache rt []
  end.

(** A handler of the server:
    [try { initializeIfNeeded(); ... } catch (error) { return ... }].
    Nothing in [initializeIfNeeded] throws; it ends the process or leaves
    it initialised, and the rest runs on the cache of the module.  The
    answer, the process after it and the state of the start-up; [None]
    when the process has exited. *)
Definition handler {P : Type} (argv : list string)
  (body : Env W -> @M W (ToolResult P)) (s : Startup) (rt : Runtime)
  : option (Outcome (ToolResult P) * Runtime * Startup) :=
  match initializeIfNeeded argv s with
  | None => None
  | Some config =>
      let c := Cache.constructor (Cli.cacheConfig config) in
      let (answer, rt') := tool (body (with_config c)) (store_in_use s rt) in
      Some (answer, rt', ServerReady config)
  end.

(** The handler of [preload_interface_data] *)
Definition preload_interface_data (argv : list string) (project_id : Z)
  : Startup -> Runtime -> option (Outcome (ToolResult Empty_set) * Runtime * Startup) :=
  handler argv
    (fun e =>
       required "project_id" project_id ;;;
       preloadInterfaceData e project_id ;;;
       ret (Text ("Successfully preloaded interface data for project "
                  ++ Number.toString project_id))).

(** The handler of [clear_project_cache] *)
Definition clear_project_cache (argv : list string) (project_id : Z)
  : Startup -> Runtime -> option (Outcome (ToolResult Empty_set) * Runtime * Startup) :=
  handler argv
    (fun e =>
       required "project_id" project_id ;;;
       clearProjectCache e project_id ;;;
       ret (Text ("Successfully cleared cache for project "
                  ++ Number.toString project_id))).

(** The handler of [clear_interface_cache] *)
Definition clear_interface_cache (argv : list string) (interface_id : Z)
  : Startup -> Runtime -> option (Outcome (ToolResult Empty_set) * Runtime * Startup) :=
  handler argv
    (fun e =>
       required "interface_id" interface_id ;;;
       clearInterfaceCache e interface_id ;;;
       ret (Text ("Successfully cleared cache for interface "
                  ++ Number.toString interface_id))).

(** The handler of [clear_all_cache] *)
Definition clear_all_cache (argv : list string)
  : Startup -> Runtime -> option (Outcome (ToolResult Empty_set) * Runtime * Startup) :=
  handler argv
    (fun _ => cache_clear ;;; ret (Text "Successfully cleared all cache data")).

(** The handler of [search_interfaces] *)
Definition search_interfaces (argv : list string) (project_id : Z)
  (query : string) (method : option string)
  : Startup -> Runtime -> option (Outcome (ToolResult SearchPayload) * Runtime * Startup) :=
  handler argv
    (fun e =>
       required "project_id" project_id ;;;
       (if Cache.truthy query then ret tt
        else throw (PlainError "query is required.")) ;;;
       interfaces <- getInterfaceList e project_id ;;
       searchResults <- search toLowerCase interfaces query method ;;
       ret (Stringified {| sp_total := List.length searchResults;
                           sp_results := searchResults |})).

End Server.

(** A computation that leaves the cache within its capacity when it finds
    it so. *)
Definition keeps {W A : Type} (c : Cache.Settings) (m : @M W A) : Prop :=
  forall rt, within c (cache rt) -> within c (cache (snd (m rt))).

(** The state of the process with two more events on its schedule. *)
Definition called {W : Type} (rt : @Runtime W) (id : Z) : Runtime :=
  {| cache := cache rt; world := world rt; requests := requests rt;
     schedule := (schedule rt ++ [Started id; Settled id])%list;
     console := console rt |}.

(** The number a decimal numeral stands for after the digits read so
    far. *)
Fixpoint numeral_value (d : Decimal.uint) (acc : Z) : Z :=
  match d with
  | Decimal.Nil => acc
  | Decimal.D0 d => numeral_value d (10 * acc)
  | Decimal.D1 d => numeral_value d (10 * acc + 1)
  | Decimal.D2 d => numeral_value d (10 * acc + 2)
  | Decimal.D3 d => numeral_value d (10 * acc + 3)
  | Decimal.D4 d => numeral_value d (10 * acc + 4)
  | Decimal.D5 d => numeral_value d (10 * acc + 5)
  | Decimal.D6 d => numeral_value d (10 * acc + 6)
  | Decimal.D7 d => numeral_value d (10 * acc + 7)
  | Decimal.D8 d => numeral_value d (10 * acc + 8)
  | Decimal.D9 d => numeral_value d (10 * acc + 9)
  end.

(** A cache configuration as the command line leaves it: a ttl of a
    positive number of minutes, whole or [Infinity], a positive size, and
    [enabled] set. *)
Definition from_cli (cc : Cache.CacheConfig) : Prop :=
  exists minutes size b,
    Cache.cfg_ttl cc = Some (Number.mul (Number.mul minutes 60) 1000)
    /\ 0 < minutes
    /\ Cache.cfg_maxSize cc = Some size /\ 0 < size
    /\ Cache.cfg_enabled cc = Some b.

(** What a call [getGroupInfo(id)] comes to in a state of the process, as
    the cache and the origin have it: the value of the cache, or else the
    answer of the origin, an error of the transport being replaced. *)
Definition fetched {W : Type} (env : Env W) (id : Z) (rt : Runtime)
  : Outcome JsValue :=
  let cached :=
    fst (lookup env (generateKey env "getGroupInfo" [JsNumber id]) rt) in
  if not_null cached then Resolved cached
  else
    match answered (fst (http env "/api/interface/get" id (world rt))) with
    | Resolved result => Resolved result
    | Rejected (ApiError code msg) => Rejected (ApiError code msg)
    | Rejected _ => Rejected (PlainError "获取接口详情时发生未知错误")
    end.

(** One identifier of a batch: the call of [getGroupInfo], and the line
    of the batch on the console when the call fails. *)
Definition attempt {W : Type} (env : Env W) (id : Z) (rt : Runtime)
  : Outcome JsValue * Runtime :=
  match getGroupInfo env id rt with
  | (Resolved apiData, rt1) => (Resolved apiData, rt1)
  | (Rejected error, rt1) =>
      (Rejected error, snd (log (BatchItemFailed id (message_of error)) rt1))
  end.

(** The identifiers in turn: each with the state in which its call is
    made, which is the state the calls before it have left, and with the
    outcome of its call. *)
Fixpoint in_turn {W : Type} (env : Env W) (ids : list Z) (rt : Runtime)
  : list (Z * Runtime * Outcome JsValue) :=
  match ids with
  | [] => []
  | id :: rest =>
      (id, rt, fst (attempt env id rt))
      :: in_turn env rest (snd (attempt env id rt))
  end.

(** The state after the last of them. *)
Definition after_all {W : Type} (env : Env W) (ids : list Z) (rt : Runtime)
  : Runtime :=
  fold_left (fun st id => snd (attempt env id st)) ids rt.

(** What the client has written to the console when a request has ended
    in [o]. *)
Definition client_lines (o : Outcome ApiResponse) : list LogLine :=
  match o with
  | Resolved _ => []
  | Rejected error => intercepted error
  end.

(** [b] is the element after an [a] of the list. *)
Definition follows {A : Type} (a b : A) (l : list A) : Prop :=
  exists l1 l2, l = (l1 ++ a :: b :: l2)%list.

(** The line [getInterfacesByCategory] writes for the error it fails
    with. *)
Definition category_line (e : JsError) : LogLine :=
  match e with
  | ApiError code msg => CategoryApiFailed msg code
  | _ => CategoryFailed (message_of e)
  end.

(** The lines that close a batch with failures. *)
Definition summary (errors : list (Z * string)) : list LogLine :=
  match errors with
  | [] => []
  | _ =>
      BatchSummary (List.length errors)
      :: map (fun ie => BatchSummaryItem (fst ie) (snd ie)) errors
  end.

(** ** More of the small world *)

Module Trial.

(** A stand-in for [toLowerCase] that knows the ASCII letters only. *)
Definition lower_char (c : ascii) : ascii :=
  let n := nat_of_ascii c in
  if (Nat.leb 65 n && Nat.leb n 90)%bool then ascii_of_nat (n + 32) else c.

Fixpoint lower (s : string) : string :=
  match s with
  | EmptyString => EmptyString
  | String c rest => String (lower_char c) (lower rest)
  end.

Definition named (id : Z) (name : string) (ids : list Z) : ApiCategoryItem :=
  {| cat_id := id; cat_name := name; cat_desc := "";
     cat_list := map (fun i => {| child_id := i; child_title := "item";
                                  child_path := "/user/info";
                                  child_method := if i =? 2 then "POST" else "GET";
                                  child_catid := id |}) ids |}.

Definition catalogue : list ApiCategoryItem :=
  [named 10 "Users" [1; 2]; named 20 "Orders" [3]].

(** A world whose origin lists [catalogue] for every project. *)
Definition origin (url : string) (param : Z) (w : Z)
  : Outcome ApiResponse * Z :=
  (if String.eqb url "/api/interface/list_menu" then
     Resolved {| errcode := 0; errmsg := "ok";
                 resp_data := JsCategories catalogue |}
   else fst (Demo.origin url param w), w + 1).

Definition env : Env Z :=
  {| clock := Demo.time; http := origin; pick := Demo.last_first;
     stringify := Demo.json; config := Demo.settings 10 true |}.

Definition valid_argv : list string :=
  ["node"; "server.js"; "-u"; "http://yapi"; "-c"; "sid=1"].

End Trial.

(** * Properties *)

Local Open Scope list_scope.

(** Case analysis on the next integer comparison of the goal. *)
Ltac cmp_cases :=
  match goal with
  | |- context [?a <? ?b] => destruct (Z.ltb_spec a b)
  | |- context [?a <=? ?b] => destruct (Z.leb_spec a b)
  | |- context [?a >=? ?b] => rewrite (Z.geb_leb a b)
  | |- context [?a >? ?b] => rewrite (Z.gtb_ltb a b)
  | |- context [?a =? ?b] => destruct (Z.eqb_spec a b)
  end.

(** ** Numbers *)

Module NumberFacts.
Import Number.

Lemma round_small (z : Z) : Z.abs z <= 2 ^ 53 -> round z = z.
Proof.
  intros H. unfold round. destruct (Z.leb_spec (Z.abs z) (2 ^ 53)); [reflexivity|lia].
Qed.


(** Beyond 2^53 the leading bits kept are at least 2^52. *)
Lemma leading_bits (a : Z) :
  2 ^ 53 < a -> 1 <= Z.log2 a - 52 /\ 0 < Z.shiftr a (Z.log2 a - 52).
Proof.
  intros Ha.
  assert (Hlog : 53 <= Z.log2 a).
  { change 53 with (Z.log2 (2 ^ 53)). apply Z.log2_le_mono. lia. }
  split; [lia|].
  rewrite Z.shiftr_div_pow2 by lia.
  apply Z.div_str_pos. split; [apply Z.pow_pos_nonneg; lia|].
  destruct (Z.log2_spec a) as [Hlow _]; [lia|].
  apply Z.le_trans with (2 ^ Z.log2 a); [|exact Hlow].
  apply Z.pow_le_mono_r; lia.
Qed.

Lemma round_sign (z : Z) : Z.sgn (round z) = Z.sgn z.
Proof.
  unfold round. destruct (Z.leb_spec (Z.abs z) (2 ^ 53)); [reflexivity|].
  destruct (leading_bits (Z.abs z)) as [Hshift Hq]; [lia|].
  set (shift := Z.log2 (Z.abs z) - 52) in *.
  set (q := Z.shiftr (Z.abs z) shift) in *.
  match goal with
  | |- context [Z.min ?x infinity] =>
      assert (Hpos : 0 < Z.min x infinity)
  end.
  { apply Z.min_glb_lt; [|reflexivity].
    rewrite Z.shiftl_mul_pow2 by lia.
    apply Z.mul_pos_pos; [|apply Z.pow_pos_nonneg; lia].
    destruct (_ || _)%bool; lia. }
  rewrite Z.sgn_mul, (Z.sgn_pos _ Hpos), Z.sgn_sgn. lia.
Qed.

Lemma round_pos (z : Z) : 0 < z -> 0 < round z.
Proof.
  intros H. apply Z.sgn_pos_iff. rewrite round_sign. now apply Z.sgn_pos_iff.
Qed.

Lemma round_not_pos (z : Z) : z <= 0 -> round z <= 0.
Proof.
  intros H. pose proof (round_sign z) as Hs.
  destruct (Z.sgn_spec z) as [[Hz E]|[[Hz E]|[Hz E]]]; rewrite E in Hs.
  - lia.
  - apply Z.sgn_null_iff in Hs. lia.
  - apply Z.sgn_neg_iff in Hs. lia.
Qed.

Lemma mul_pos (a b : Z) : 0 < a -> 0 < b -> 0 < mul a b.
Proof. intros Ha Hb. apply round_pos. now apply Z.mul_pos_pos. Qed.

End NumberFacts.

(** ** The map under the cache *)

Module CacheFacts.
Import Cache.

Lemma map_get_set_same (s : Store) (k : string) (e : CacheEntry) :
  map_get (map_set s k e) k = Some e.
Proof.
  induction s as [|[k' e'] s IH]; simpl.
  - now rewrite String.eqb_refl.
  - destruct (String.eqb k' k) eqn:E; simpl; rewrite E; auto.
Qed.

Lemma map_get_delete_same (s : Store) (k : string) :
  map_get (map_delete s k) k = None.
Proof.
  induction s as [|[k' e'] s IH]; simpl; auto.
  destruct (String.eqb k' k) eqn:E; simpl; auto.
  now rewrite E.
Qed.

Lemma map_get_delete_other (s : Store) (k k' : string) :
  k <> k' -> map_get (map_delete s k) k' = map_get s k'.
Proof.
  intros Hne. induction s as [|[k0 e0] s IH]; simpl; auto.
  destruct (String.eqb k0 k) eqn:E; simpl.
  - apply String.eqb_eq in E. subst k0.
    destruct (String.eqb k k') eqn:E'; auto.
    apply String.eqb_eq in E'. contradiction.
  - now rewrite IH.
Qed.

Lemma length_map_set (s : Store) (k : string) (e : CacheEntry) :
  (List.length (map_set s k e) <= S (List.length s))%nat.
Proof.
  induction s as [|[k' e'] s IH]; simpl; auto.
  destruct (String.eqb k' k); simpl; lia.
Qed.

Lemma map_set_fresh (s : Store) (k : string) (e : CacheEntry) :
  map_get s k = None -> map_set s k e = (s ++ [(k, e)])%list.
Proof.
  induction s as [|[k' e'] s IH]; simpl; auto.
  destruct (String.eqb k' k); [discriminate|].
  intros H. now rewrite IH.
Qed.

Lemma keys_map_set (s : Store) (k : string) (e : CacheEntry) (x : string) :
  In x (keys (map_set s k e)) -> x = k \/ In x (keys s).
Proof.
  induction s as [|[k' e'] s IH]; simpl.
  - intros [H|[]]; auto.
  - destruct (String.eqb k' k) eqn:E; simpl.
    + intros [H|H]; auto.
    + intros [H|H]; auto. destruct (IH H); auto.
Qed.

Lemma length_map_delete (s : Store) (k : string) :
  (List.length (map_delete s k) <= List.length s)%nat.
Proof. apply filter_length_le. Qed.

Lemma length_map_delete_in (s : Store) (k : string) :
  In k (keys s) -> (List.length (map_delete s k) < List.length s)%nat.
Proof.
  induction s as [|[k' e'] s IH]; simpl; [tauto|].
  intros [H|H].
  - subst k'. rewrite String.eqb_refl. simpl.
    pose proof (length_map_delete s k). lia.
  - specialize (IH H). destruct (String.eqb k' k); simpl; lia.
Qed.

Lemma keys_map_delete (s : Store) (k x : string) :
  In x (keys (map_delete s k)) -> In x (keys s).
Proof.
  unfold keys, map_delete. rewrite !in_map_iff.
  intros [ke [Hx Hin]]. apply filter_In in Hin. exists ke. tauto.
Qed.

Lemma map_delete_absent (s : Store) (k : string) :
  ~ In k (keys s) -> map_delete s k = s.
Proof.
  induction s as [|[k' e'] s IH]; simpl; auto.
  intros H. destruct (String.eqb k' k) eqn:E.
  - apply String.eqb_eq in E. tauto.
  - simpl. f_equal. apply IH. tauto.
Qed.

Lemma map_get_none (s : Store) (k : string) :
  map_get s k = None <-> ~ In k (keys s).
Proof.
  induction s as [|[k' e'] s IH]; simpl; [tauto|].
  destruct (String.eqb k' k) eqn:E.
  - apply String.eqb_eq in E. split; [discriminate | tauto].
  - apply String.eqb_neq in E. tauto.
Qed.

Lemma keys_cleanup (now : Z) (s : Store) (x : string) :
  In x (keys (cleanup now s)) -> In x (keys s).
Proof.
  unfold keys, cleanup. rewrite !in_map_iff.
  intros [ke [Hx Hin]]. apply filter_In in Hin. exists ke. tauto.
Qed.

(** *** The scan finds the oldest entry *)

Lemma scan_from (s : Store) (acc : string * option Z) :
  fold_left scan_step s acc = after acc (oldest s).
Proof.
  revert acc. induction s as [|ke s IH]; intros acc; simpl; auto.
  rewrite IH. destruct (oldest s) as [ke'|]; simpl; auto.
  unfold scan_step, older. destruct acc as [ok [ot|]]; simpl;
    repeat (cmp_cases; simpl; unfold scan_step, older; simpl);
    try reflexivity; lia.
Qed.

Lemma scan_oldest (s : Store) :
  scan s = match oldest s with
           | None => ("", None)
           | Some ke => (fst ke, Some (timestamp (snd ke)))
           end.
Proof.
  unfold scan. rewrite scan_from. destruct (oldest s); reflexivity.
Qed.

Lemma oldest_in (s : Store) (ke : string * CacheEntry) :
  oldest s = Some ke -> In ke s.
Proof.
  revert ke. induction s as [|x s IH]; intros ke; simpl; [discriminate|].
  destruct (oldest s) as [ke'|].
  - destruct (timestamp (snd x) <=? timestamp (snd ke'));
      intros [= <-]; auto.
  - intros [= <-]. auto.
Qed.

Lemma oldest_some (s : Store) : s <> [] -> exists ke, oldest s = Some ke.
Proof.
  destruct s as [|x s]; [congruence|]. intros _. simpl.
  destruct (oldest s) as [ke'|]; [|eauto].
  destruct (timestamp (snd x) <=? timestamp (snd ke')); eauto.
Qed.

(** The entry found has the least creation time, and is the first with
    that time. *)
Lemma oldest_least (s : Store) (ke : string * CacheEntry) :
  oldest s = Some ke ->
  Forall (fun x => timestamp (snd ke) <= timestamp (snd x)) s.
Proof.
  revert ke. induction s as [|x s IH]; intros ke; simpl; [constructor|].
  destruct (oldest s) as [ke'|] eqn:E.
  - specialize (IH ke' eq_refl).
    destruct (timestamp (snd x) <=? timestamp (snd ke')) eqn:E2;
      intros [= <-]; constructor; try lia; auto.
    eapply Forall_impl; [|exact IH]. simpl. intros. lia.
  - destruct s; [|destruct (oldest_some (p :: s)) as [? ?]; congruence].
    intros [= <-]. constructor; [lia | constructor].
Qed.

Lemma oldest_first (s1 s2 : Store) (ke : string * CacheEntry) :
  oldest (s1 ++ ke :: s2) = Some ke ->
  Forall (fun x => timestamp (snd ke) < timestamp (snd x)) s1 \/ In ke s1.
Proof.
  induction s1 as [|x s1 IH]; simpl; [left; constructor|].
  destruct (oldest (s1 ++ ke :: s2)) as [ke'|] eqn:E.
  - destruct (timestamp (snd x) <=? timestamp (snd ke')) eqn:E2.
    + intros [= ->]. right. now left.
    + intros [= ->]. destruct (IH eq_refl) as [H|H]; [left | right; now right].
      constructor; [lia | exact H].
  - intros [= ->]. right. now left.
Qed.

Lemma scan_in (s : Store) : s <> [] -> In (fst (scan s)) (keys s).
Proof.
  intros H. destruct (oldest_some s H) as [ke E].
  rewrite scan_oldest, E. simpl. apply in_map. now apply oldest_in.
Qed.

(** *** Eviction *)

Lemma evict_oldest (c : Settings) (s : Store) (ke : string * CacheEntry) :
  maxSize c <= size s ->
  oldest s = Some ke ->
  truthy (fst ke) = true ->
  evictIfNeeded c s = map_delete s (fst ke).
Proof.
  intros Hfull Hold Hkey. unfold evictIfNeeded.
  destruct (size s >=? maxSize c) eqn:E; [|lia].
  rewrite scan_oldest, Hold. simpl. now rewrite Hkey.
Qed.

Lemma length_delete_nodup (s : Store) (ke : string * CacheEntry) :
  NoDup (keys s) -> In ke s ->
  S (List.length (map_delete s (fst ke))) = List.length s.
Proof.
  induction s as [|x s IH]; simpl; [tauto|].
  intros Hnd [->|Hin]; inversion Hnd as [|? ? Hnot Hnd']; subst.
  - rewrite String.eqb_refl. simpl. f_equal. f_equal.
    now apply map_delete_absent.
  - destruct (String.eqb (fst x) (fst ke)) eqn:E.
    + apply String.eqb_eq in E. exfalso. apply Hnot. rewrite E.
      now apply (in_map fst).
    + simpl. f_equal. now apply IH.
Qed.

(** What [set] does on a full store whose oldest key is not the empty
    string: the oldest entry goes, the new one is appended. *)
Lemma set_on_full_store (c : Settings) (now : Z) (s : Store) (k : string)
  (v : JsValue) (ke : string * CacheEntry) :
  enabled c = true ->
  1 <= maxSize c ->
  size s = maxSize c ->
  NoDup (keys s) ->
  ~ In k (keys s) ->
  oldest s = Some ke ->
  truthy (fst ke) = true ->
  set c now s k v =
    (map_delete s (fst ke) ++
     [(k, {| data := v; timestamp := now; expireAt := now + ttl c |})])%list
  /\ size (set c now s k v) = maxSize c.
Proof.
  intros Hen Hpos Hfull Hnd Hfresh Hold Hkey.
  assert (Hset : set c now s k v =
    (map_delete s (fst ke) ++
     [(k, {| data := v; timestamp := now; expireAt := now + ttl c |})])%list).
  { unfold set. rewrite Hen. simpl.
    rewrite (evict_oldest c s ke); [|lia|assumption..].
    apply map_set_fresh. apply map_get_none.
    intros H. apply Hfresh. eapply keys_map_delete; eauto. }
  split; [exact Hset|].
  rewrite Hset. unfold size in *. rewrite length_app. simpl.
  pose proof (length_delete_nodup s ke Hnd (oldest_in _ _ Hold)). lia.
Qed.

(** Reads never touch the creation times: a [get] leaves the store as it
    is or removes the entry it was asked for. *)
Lemma get_store (c : Settings) (now : Z) (s : Store) (k : string) :
  snd (get c now s k) = s \/ snd (get c now s k) = map_delete s k.
Proof.
  unfold get. destruct (negb (enabled c)); simpl; auto.
  destruct (map_get s k) as [e|]; simpl; auto.
  destruct (now >=? expireAt e); simpl; auto.
Qed.

Lemma get_same_size (c : Settings) (now : Z) (s : Store) (k : string) :
  List.length (snd (get c now s k)) = List.length s ->
  snd (get c now s k) = s.
Proof.
  unfold get. destruct (negb (enabled c)); simpl; auto.
  destruct (map_get s k) as [e|] eqn:E; simpl; auto.
  destruct (now >=? expireAt e); simpl; auto.
  intros H. assert (In k (keys s)).
  { destruct (in_dec string_dec k (keys s)); auto.
    apply map_get_none in n. congruence. }
  pose proof (length_map_delete_in s k H0). lia.
Qed.

End CacheFacts.

(** ** The cache store *)

Module CacheSpec.
Import Cache CacheFacts.

(** C1, at the input where the code departs from it.  The cache holds at
    most one entry and is full: its only entry, hence its oldest, was stored
    under the empty string.  Storing a second key should evict that entry
    and leave one entry; [evictIfNeeded] finds it, but takes the empty
    [oldestKey] for no key found, evicts nothing, and the store has two
    entries, then three. *)
Theorem set_keeps_oldest_with_empty_key :
  let c := {| ttl := 1000; maxSize := 1; enabled := true |} in
  let s1 := set c 0 [] "" (JsNumber 1) in
  let s2 := set c 1 s1 "a" (JsNumber 2) in
  let s3 := set c 2 s2 "b" (JsNumber 3) in
  size s1 = maxSize c /\
  NoDup (keys s1) /\
  option_map fst (oldest s1) = Some "" /\
  evictIfNeeded c s1 = s1 /\
  keys s2 = [""; "a"] /\ size s2 = 2 /\
  keys s3 = [""; "a"; "b"] /\ size s3 = 3.
Proof.
  cbv zeta. repeat split; try reflexivity.
  repeat constructor; simpl; tauto.
Qed.




Lemma within_shrink (c : Settings) (s s' : Store) :
  within c s ->
  (List.length s' <= List.length s)%nat ->
  (forall x, In x (keys s') -> In x (keys s)) ->
  within c s'.
Proof.
  intros [Hsize Hkeys] Hlen Hin. split.
  - unfold size in *. lia.
  - rewrite Forall_forall in *. auto.
Qed.

Lemma within_set (c : Settings) (now : Z) (s : Store) (k : string)
  (v : JsValue) :
  1 <= maxSize c -> truthy k = true -> within c s ->
  within c (set c now s k v).
Proof.
  intros Hpos Hk [Hsize Hkeys]. unfold set.
  destruct (negb (enabled c)); [split; assumption|]. simpl.
  set (e := {| data := v; timestamp := now; expireAt := now + ttl c |}).
  assert (Hev : size (evictIfNeeded c s) < maxSize c
                /\ forall x, In x (keys (evictIfNeeded c s)) -> In x (keys s)).
  { unfold evictIfNeeded. cmp_cases. destruct (Z.leb_spec (maxSize c) (size s)).
    - assert (Hne : s <> []).
      { intros ->. unfold size in *. simpl in *. lia. }
      pose proof (scan_in s Hne) as Hin.
      rewrite Forall_forall in Hkeys. rewrite (Hkeys _ Hin).
      split; [|intros x; apply keys_map_delete].
      pose proof (length_map_delete_in s _ Hin). unfold size in *. lia.
    - split; [lia | auto]. }
  destruct Hev as [Hlt Hsub]. split.
  - pose proof (length_map_set (evictIfNeeded c s) k e). unfold size in *. lia.
  - rewrite Forall_forall in *. intros x Hx.
    destruct (keys_map_set _ _ _ _ Hx) as [->|Hx']; auto.
Qed.

Lemma within_step (c : Settings) (s : Store) (top : Z * Op) :
  1 <= maxSize c -> set_key_ok top = true -> within c s ->
  within c (step c s top).
Proof.
  intros Hpos Hok Hs. destruct top as [now op]. unfold step, set_key_ok in *.
  simpl in *. destruct op.
  - destruct (get_store c now s key) as [-> | ->]; auto.
    eapply within_shrink; eauto using length_map_delete, keys_map_delete.
  - now apply within_set.
  - simpl. eapply within_shrink; eauto using length_map_delete, keys_map_delete.
  - split; [unfold clear, size; simpl; lia | constructor].
  - simpl. eapply within_shrink; eauto using keys_cleanup.
    apply filter_length_le.
Qed.

Lemma within_run (c : Settings) (ops : list (Z * Op)) (s : Store) :
  1 <= maxSize c -> forallb set_key_ok ops = true -> within c s ->
  within c (fold_left (step c) ops s).
Proof.
  intros Hpos. revert s. induction ops as [|top ops IH]; intros s; simpl; auto.
  rewrite andb_true_iff. intros [Hok Hrest] Hs.
  apply IH; auto. now apply within_step.
Qed.

(** C3, as the code has it: in a cache built with a capacity of at least
    one (the constructor turns an absent or zero [maxSize] into 100), as
    long as no entry is stored under the empty string, the number of entries
    after a [set] that follows any sequence of [get], [set], [delete],
    [clear] and [getStats] is at most [maxSize]. *)
Theorem size_bounded_after_set (config : CacheConfig) (ops : list (Z * Op))
  (now : Z) (k : string) (v : JsValue) :
  let c := constructor config in
  1 <= maxSize c ->
  forallb set_key_ok (ops ++ [(now, OpSet k v)]) = true ->
  size (run c (ops ++ [(now, OpSet k v)])) <= maxSize c.
Proof.
  intros c Hpos Hok. unfold run.
  apply (within_run c (ops ++ [(now, OpSet k v)]) []); auto.
  split; [change (0 <= maxSize c); lia | constructor].
Qed.

Lemma size_bounded_after_set_witness :
  size (run (constructor {| cfg_ttl := None; cfg_maxSize := Some 2;
                            cfg_enabled := None |})
          ([(0, OpSet "a" (JsNumber 1)); (1, OpSet "b" (JsNumber 2));
            (2, OpGet "a")] ++ [(3, OpSet "c" (JsNumber 3))]))
  <= 2.
Proof.
  apply (size_bounded_after_set
           {| cfg_ttl := None; cfg_maxSize := Some 2; cfg_enabled := None |}
           [(0, OpSet "a" (JsNumber 1)); (1, OpSet "b" (JsNumber 2));
            (2, OpGet "a")] 3 "c" (JsNumber 3)).
  - simpl. lia.
  - reflexivity.
Defined.

(** C3 as stated fails: a cache built with a negative [maxSize] keeps it,
    and holds one entry after its first [set]; and a cache of capacity one
    whose oldest entry is stored under the empty string holds two after the
    second. *)
Lemma size_exceeds_maxSize :
  (let c := constructor {| cfg_ttl := None; cfg_maxSize := Some (-1);
                           cfg_enabled := None |} in
   ~ size (run c [(0, OpSet "a" (JsNumber 1))]) <= maxSize c)
  /\
  (let c := constructor {| cfg_ttl := None; cfg_maxSize := Some 1;
                           cfg_enabled := None |} in
   ~ size (run c [(0, OpSet "" (JsNumber 1)); (1, OpSet "a" (JsNumber 2))])
     <= maxSize c).
Proof. split; cbv zeta; vm_compute; intros H; apply H; reflexivity. Qed.

End CacheSpec.

(** ** Configuration *)

Module ConfigSpec.
Import Cache Cli.

Lemma turn_positive (arg : string) (nextArg : option string) (c : Config) :
  positive (cacheConfig c) -> positive (cacheConfig (fst (turn arg nextArg c))).
Proof.
  intros (t & m & Ht & Htpos & Hm & Hmpos). unfold turn.
  repeat match goal with
         | |- context [if ?b then _ else _] => destruct b
         end; simpl; try (exists t, m; tauto).
  - destruct (parseInt (text nextArg)) as [ttlMinutes|]; [|exists t, m; tauto].
    destruct (Z.gtb_spec ttlMinutes 0); [|exists t, m; tauto].
    exists (Number.mul (Number.mul ttlMinutes 60) 1000), m. simpl.
    repeat split; auto.
    apply NumberFacts.mul_pos; [apply NumberFacts.mul_pos|]; lia.
  - destruct (parseInt (text nextArg)) as [n|]; [|exists t, m; tauto].
    destruct (Z.gtb_spec n 0); [|exists t, m; tauto].
    exists t, n. simpl. repeat split; auto; lia.
Qed.

Lemma parse_positive_upto (n : nat) (args : list string) (c : Config) :
  (List.length args <= n)%nat ->
  positive (cacheConfig c) -> positive (cacheConfig (parse args c)).
Proof.
  revert args c. induction n as [|n IH]; intros args c Hlen Hc.
  - destruct args; [exact Hc | simpl in Hlen; lia].
  - destruct args as [|arg rest]; [exact Hc|]. simpl in *.
    pose proof (turn_positive arg (hd_error rest) c Hc) as Hturn.
    destruct (turn arg (hd_error rest) c) as [c' skip]. simpl in Hturn.
    destruct rest as [|next rest']; [exact Hturn|].
    destruct skip; apply IH; simpl in *; auto; lia.
Qed.

Lemma parse_positive (args : list string) (c : Config) :
  positive (cacheConfig c) -> positive (cacheConfig (parse args c)).
Proof. apply (parse_positive_upto (List.length args)). lia. Qed.

Lemma defaults_positive : positive (cacheConfig defaults).
Proof. exists (5 * 60 * 1000), 100. simpl. repeat split; lia. Qed.

Lemma cli_positive (argv : list string) (conf : Config) :
  getConfigFromArgs argv = Some conf ->
  positive (cacheConfig conf)
  /\ 0 < ttl (constructor (cacheConfig conf))
  /\ 0 < maxSize (constructor (cacheConfig conf)).
Proof.
  unfold getConfigFromArgs.
  pose proof (parse_positive (skipn 2 argv) defaults defaults_positive) as P.
  set (r := parse (skipn 2 argv) defaults) in *. clearbody r.
  destruct (negb (truthy (baseURL r))); [discriminate|].
  destruct (negb (truthy (cookie r))); [discriminate|].
  intros [= <-]. split; [exact P|].
  destruct P as (t & m & Ht & Htpos & Hm & Hmpos).
  unfold constructor, or_default. cbn [ttl maxSize]. rewrite Ht, Hm.
  split; cmp_cases; lia.
Qed.

(** C9, as the code has it: the constructor replaces an absent or zero
    [ttl] by 300000 and an absent or zero [maxSize] by 100, so that no cache
    has a [ttl] or [maxSize] of zero, and both are positive whenever the
    configuration gives no negative number (a negative one is kept);
    [enabled] is false only when the configuration says [false].  The
    command line yields positive numbers only, whatever the arguments, and
    so does the cache built from it. *)
Theorem constructor_settings (config : CacheConfig) :
  let c := constructor config in
  ((cfg_ttl config = None \/ cfg_ttl config = Some 0) ->
   ttl c = 300000)
  /\ ((cfg_maxSize config = None \/ cfg_maxSize config = Some 0) ->
      maxSize c = 100)
  /\ ((forall t, cfg_ttl config = Some t -> 0 <= t) -> 0 < ttl c)
  /\ ((forall m, cfg_maxSize config = Some m -> 0 <= m) -> 0 < maxSize c)
  /\ (forall t, cfg_ttl config = Some t -> t < 0 -> ttl c = t)
  /\ (forall m, cfg_maxSize config = Some m -> m < 0 -> maxSize c = m)
  /\ ttl c <> 0 /\ maxSize c <> 0
  /\ (enabled c = false <-> cfg_enabled config = Some false)
  /\ (forall argv conf,
        getConfigFromArgs argv = Some conf ->
        positive (cacheConfig conf)
        /\ 0 < ttl (constructor (cacheConfig conf))
        /\ 0 < maxSize (constructor (cacheConfig conf))).
Proof.
  destruct config as [t m e]. simpl. unfold or_default.
  split; [|split; [|split; [|split; [|split; [|split; [|split; [|split;
    [|split]]]]]]]].
  - intros [-> | ->]; reflexivity.
  - intros [-> | ->]; reflexivity.
  - intros H. destruct t as [t|]; [|lia].
    specialize (H t eq_refl). cmp_cases; lia.
  - intros H. destruct m as [m|]; [|lia].
    specialize (H m eq_refl). cmp_cases; lia.
  - intros t0 [= ->] Hneg. cmp_cases; lia.
  - intros m0 [= ->] Hneg. cmp_cases; lia.
  - destruct t as [t|]; [cmp_cases|]; lia.
  - destruct m as [m|]; [cmp_cases|]; lia.
  - destruct e as [[|]|]; split; congruence.
  - exact cli_positive.
Qed.

Lemma constructor_settings_witness :
  0 < ttl (constructor {| cfg_ttl := Some 0; cfg_maxSize := None;
                          cfg_enabled := None |})
  /\ 0 < maxSize (constructor {| cfg_ttl := Some 0; cfg_maxSize := None;
                                 cfg_enabled := None |})
  /\ 0 < maxSize (constructor (cacheConfig
        {| baseURL := "http://yapi"; cookie := "sid=1"; requestParams := [];
           cacheConfig := {| cfg_ttl := Some 300000; cfg_maxSize := Some 7;
                             cfg_enabled := Some true |} |})).
Proof.
  pose proof (constructor_settings
                {| cfg_ttl := Some 0; cfg_maxSize := None;
                   cfg_enabled := None |}) as H.
  cbv zeta in H.
  destruct H as (_ & _ & Httl & Hmax & _ & _ & _ & _ & _ & Hcli).
  split; [|split].
  - apply Httl. intros t [= <-]. lia.
  - apply Hmax. intros m [=].
  - apply (Hcli ["node"; "server.js"; "-u"; "http://yapi"; "-c"; "sid=1";
                 "--cache-size"; "7"; "-t"; "0"]).
    reflexivity.
Defined.

(** C9 as stated fails: a negative [ttl] or [maxSize] is truthy, and the
    constructor keeps it. *)
Lemma constructor_keeps_negative :
  let c := constructor {| cfg_ttl := Some (-1); cfg_maxSize := Some (-1);
                          cfg_enabled := None |} in
  ~ (0 < ttl c /\ 0 < maxSize c).
Proof. cbv zeta. vm_compute. intros [H _]. discriminate H. Qed.

End ConfigSpec.

(** ** The memoizing wrapper *)

Section WithCache.

Context {W : Type} (env : Env W).
Variable method : string.
Variable fn : list JsValue -> W -> Outcome JsValue * W.
Variable args : list JsValue.

Let key : string := generateKey env method args.

Lemma withCache_on_miss (rt : Runtime) :
  not_null (fst (lookup env key rt)) = false ->
  withCache env method fn args rt =
    let after := fn args (world rt) in
    let sent := requests rt ++ [Invoke method args] in
    match fst after with
    | Resolved result =>
        (Resolved result,
         {| cache := Cache.set (config env) (clock env (snd after))
                       (snd (lookup env key rt)) key result;
            world := snd after; requests := sent;
            schedule := schedule rt; console := console rt |})
    | Rejected e =>
        (Rejected e,
         {| cache := snd (lookup env key rt); world := snd after; requests := sent;
            schedule := schedule rt; console := console rt |})
    end.
Proof.
  cbv beta iota zeta delta [lookup withCache bind cache_get call send
    cache_set ret with_world with_cache].
  fold key. destruct (Cache.get _ _ _ key) as [cached s1]. simpl.
  intros ->. cbn.
  destruct (fn args (world rt)) as [[result|e] w']; reflexivity.
Qed.


(** C4, as the code has it: a call of the wrapped function that finds no
    value in the cache invokes the underlying function exactly once.  When
    that succeeds the result is handed to [set] under the computed key and
    returned: it is stored there when caching is enabled, and the cache is
    left alone when it is disabled.  When it fails the failure reaches the
    caller as it is and nothing is written: the cache is as the lookup left
    it, which is as it was but for an expired entry of that key. *)
Theorem withCache_miss (rt : Runtime) :
  not_null (fst (lookup env key rt)) = false ->
  let after := fn args (world rt) in
  let rt' := snd (withCache env method fn args rt) in
  requests rt' = requests rt ++ [Invoke method args]
  /\ world rt' = snd after
  /\ (forall result, fst after = Resolved result ->
        fst (withCache env method fn args rt) = Resolved result
        /\ cache rt' = Cache.set (config env) (clock env (snd after))
                         (snd (lookup env key rt)) key result
        /\ (Cache.enabled (config env) = true ->
            Cache.map_get (cache rt') key =
              Some {| Cache.data := result;
                      Cache.timestamp := clock env (snd after);
                      Cache.expireAt :=
                        clock env (snd after) + Cache.ttl (config env) |})
        /\ (Cache.enabled (config env) = false -> cache rt' = cache rt))
  /\ (forall e, fst after = Rejected e ->
        fst (withCache env method fn args rt) = Rejected e
        /\ cache rt' = snd (lookup env key rt)
        /\ (cache rt' = cache rt
            \/ cache rt' = Cache.map_delete (cache rt) key)).
Proof.
  intros Hmiss after rt'. subst rt'. rewrite (withCache_on_miss rt Hmiss).
  cbv zeta. fold after.
  destruct (fst after) as [result|e] eqn:E; simpl;
    (split; [reflexivity|]); (split; [reflexivity|]); split;
    try (intros ? [=]); try subst.
  - split; [reflexivity|]. split; [reflexivity|]. split; intros Hen.
    + unfold Cache.set. rewrite Hen. simpl. apply CacheFacts.map_get_set_same.
    + unfold Cache.set, lookup, Cache.get. rewrite Hen. reflexivity.
  - split; [reflexivity|]. split; [reflexivity|].
    apply CacheFacts.get_store.
Qed.

Lemma get_null (c : Cache.Settings) (now : Z) (s : Cache.Store) (k : string) :
  (Cache.map_get s k = None
   \/ exists e, Cache.map_get s k = Some e /\ Cache.data e = JsNull) ->
  fst (Cache.get c now s k) = JsNull.
Proof.
  unfold Cache.get. destruct (negb (Cache.enabled c)); [reflexivity|].
  intros [-> | [e [-> He]]]; [reflexivity|].
  destruct (now >=? Cache.expireAt e); simpl; auto.
Qed.

Lemma holds_null_miss (rt : Runtime) :
  holds_null env key rt -> not_null (fst (lookup env key rt)) = false.
Proof.
  intros H. unfold lookup.
  destruct (Cache.enabled (config env)) eqn:Hen.
  - rewrite get_null; [reflexivity|].
    destruct (Cache.map_get (cache rt) key) as [e|] eqn:E; eauto.
  - unfold Cache.get. now rewrite Hen.
Qed.

Lemma holds_null_after (rt : Runtime) :
  fst (fn args (world rt)) = Resolved JsNull ->
  not_null (fst (lookup env key rt)) = false ->
  withCache env method fn args rt =
    (Resolved JsNull, snd (withCache env method fn args rt))
  /\ requests (snd (withCache env method fn args rt)) =
       requests rt ++ [Invoke method args]
  /\ world (snd (withCache env method fn args rt)) = snd (fn args (world rt))
  /\ holds_null env key (snd (withCache env method fn args rt)).
Proof.
  intros Hfn Hmiss. rewrite (withCache_on_miss rt Hmiss). cbv zeta.
  rewrite Hfn. simpl. repeat split. unfold holds_null. simpl.
  intros Hen. unfold Cache.set. rewrite Hen. simpl.
  rewrite CacheFacts.map_get_set_same. now intros e [= <-].
Qed.

Lemma call_times_null (n : nat) (rt : Runtime) :
  (forall w, fst (fn args w) = Resolved JsNull) ->
  not_null (fst (lookup env key rt)) = false ->
  fst (call_times (S n) (withCache env method fn args) rt) =
    repeat (Resolved JsNull) (S n)
  /\ requests (snd (call_times (S n) (withCache env method fn args) rt)) =
       requests rt ++ repeat (Invoke method args) (S n)
  /\ world (snd (call_times (S n) (withCache env method fn args) rt)) =
       Nat.iter (S n) (fun w => snd (fn args w)) (world rt).
Proof.
  intros Hfn. revert rt. induction n as [|n IH]; intros rt Hmiss.
  - destruct (holds_null_after rt (Hfn _) Hmiss) as (E & Hreq & Hw & _).
    simpl. rewrite E. simpl. auto.
  - destruct (holds_null_after rt (Hfn _) Hmiss) as (E & Hreq & Hw & Hnull).
    change (call_times (S (S n)) (withCache env method fn args) rt)
      with (let (o, rt1) := withCache env method fn args rt in
            let (os, rt2) :=
              call_times (S n) (withCache env method fn args) rt1 in
            (o :: os, rt2)).
    rewrite E.
    specialize (IH _ (holds_null_miss _ Hnull)). destruct IH as (IH1 & IH2 & IH3).
    destruct (call_times (S n) (withCache env method fn args)
                (snd (withCache env method fn args rt))) as [os rt2].
    cbn [fst snd] in *. rewrite IH1, IH2, IH3, Hreq, Hw.
    split; [reflexivity|]. split; [now rewrite <- app_assoc|].
    symmetry. apply (Nat.iter_succ_r (S n)).
Qed.

(** C10: [get] answers [null] for a key that is absent and for a key that
    holds [null] alike.  So when the wrapped function resolves with [null],
    the wrapper, which has invoked it, returns [null], stores it if caching
    is enabled, and does not find it again: the next call with the same
    arguments invokes the underlying function again, in the world the
    first call left, and returns what it returns then; and as long as the
    function resolves with [null], each of any number of calls invokes it
    again. *)
Theorem null_is_never_a_hit (rt : Runtime) (n : nat) :
  fst (fn args (world rt)) = Resolved JsNull ->
  not_null (fst (lookup env key rt)) = false ->
  let first := withCache env method fn args rt in
  let second := withCache env method fn args (snd first) in
  let all := call_times (S n) (withCache env method fn args) rt in
  fst first = Resolved JsNull
  /\ requests (snd first) = requests rt ++ [Invoke method args]
  /\ world (snd first) = snd (fn args (world rt))
  /\ (Cache.enabled (config env) = true ->
      exists e, Cache.map_get (cache (snd first)) key = Some e
                /\ Cache.data e = JsNull)
  /\ not_null (fst (lookup env key (snd first))) = false
  /\ fst second = fst (fn args (world (snd first)))
  /\ world (snd second) = snd (fn args (world (snd first)))
  /\ requests (snd second) =
       requests rt ++ [Invoke method args; Invoke method args]
  /\ ((forall w, fst (fn args w) = Resolved JsNull) ->
      fst all = repeat (Resolved JsNull) (S n)
      /\ requests (snd all) = requests rt ++ repeat (Invoke method args) (S n)
      /\ world (snd all) =
           Nat.iter (S n) (fun w => snd (fn args w)) (world rt))
  /\ (forall c now s k,
        (Cache.map_get s k = None
         \/ exists e, Cache.map_get s k = Some e /\ Cache.data e = JsNull) ->
        fst (Cache.get c now s k) = JsNull).
Proof.
  intros Hfn Hmiss first second all.
  destruct (holds_null_after rt Hfn Hmiss) as (Hres & Hreq & Hw & Hnull).
  pose proof (holds_null_miss _ Hnull) as Hmiss1.
  split; [subst first; now rewrite Hres|].
  split; [exact Hreq|]. split; [exact Hw|].
  split; [|split; [exact Hmiss1|]].
  - intros Hen. subst first. rewrite (withCache_on_miss rt Hmiss). cbv zeta.
    rewrite Hfn. cbn. unfold Cache.set. rewrite Hen. cbn.
    rewrite CacheFacts.map_get_set_same. eexists. split; reflexivity.
  - assert (Hsecond :
      fst second = fst (fn args (world (snd first)))
      /\ world (snd second) = snd (fn args (world (snd first)))
      /\ requests (snd second) = requests (snd first) ++ [Invoke method args]).
    { subst second first. rewrite (withCache_on_miss _ Hmiss1). cbv zeta.
      destruct (fst (fn args (world (snd (withCache env method fn args rt)))));
        cbn; auto. }
    destruct Hsecond as (H1 & H2 & H3).
    split; [exact H1|]. split; [exact H2|]. split.
    + rewrite H3. subst first. rewrite Hreq, <- app_assoc. reflexivity.
    + split; [intros Hall; exact (call_times_null n rt Hall Hmiss)|].
      intros c now s k. apply get_null.
Qed.

End WithCache.

Lemma withCache_miss_witness :
  requests (snd (withCache (Demo.env 3 true) "op" Demo.answer [JsNumber 1]
                   (Demo.boot [] 0)))
  = [Invoke "op" [JsNumber 1]].
Proof.
  apply (withCache_miss (Demo.env 3 true) "op" Demo.answer [JsNumber 1]
           (Demo.boot [] 0)).
  reflexivity.
Defined.

(** C4 as stated fails twice.  With caching disabled the call misses, the
    underlying function succeeds with 42, and nothing is stored under the
    key.  With caching enabled and an expired entry under the key, the
    underlying function fails, and the cache is not what it was: the lookup
    has removed the entry. *)
Lemma withCache_store_not_as_claimed :
  (let rt := Demo.boot [] 0 in
   let r := withCache (Demo.env 3 false) "op" Demo.answer [JsNumber 1] rt in
   not_null (fst (lookup (Demo.env 3 false) "op:[1]" rt)) = false
   /\ fst r = Resolved (JsNumber 42)
   /\ Cache.map_get (cache (snd r)) "op:[1]" = None)
  /\
  (let rt := Demo.boot [("op:[1]", Demo.entry (JsNumber 7) 0)] 2000 in
   let r := withCache (Demo.env 3 true) "op" Demo.failing [JsNumber 1] rt in
   not_null (fst (lookup (Demo.env 3 true) "op:[1]" rt)) = false
   /\ fst r = Rejected (AxiosError "timeout of 1000ms exceeded")
   /\ cache (snd r) <> cache rt).
Proof.
  split; cbv zeta; repeat split; try reflexivity.
  vm_compute. discriminate.
Qed.

Lemma null_is_never_a_hit_witness :
  fst (call_times 3 (withCache (Demo.env 3 true) "op" Demo.nothing
                       [JsNumber 1]) (Demo.boot [] 0))
  = [Resolved JsNull; Resolved JsNull; Resolved JsNull]
  /\ requests (snd (call_times 3 (withCache (Demo.env 3 true) "op"
                                    Demo.nothing [JsNumber 1])
                      (Demo.boot [] 0)))
     = [Invoke "op" [JsNumber 1]; Invoke "op" [JsNumber 1];
        Invoke "op" [JsNumber 1]]
  /\ world (snd (call_times 3 (withCache (Demo.env 3 true) "op"
                                 Demo.nothing [JsNumber 1])
                   (Demo.boot [] 0)))
     = 3.
Proof.
  pose proof (null_is_never_a_hit (Demo.env 3 true) "op" Demo.nothing
                [JsNumber 1] (Demo.boot [] 0) 2 eq_refl eq_refl) as H.
  cbv zeta in H. destruct H as (_ & _ & _ & _ & _ & _ & _ & _ & Hall & _).
  exact (Hall (fun w => eq_refl)).
Defined.

(** ** The cached fetchers *)

(** Runs the monadic combinators of the goal. *)
Ltac run_m :=
  cbv beta iota zeta delta
    [bind ret throw try_catch lift cache_get cache_set send note log receive
     observed with_world with_cache lookup];
  cbn [world cache requests schedule console fst snd].

Section Fetchers.

Context {W : Type} (env : Env W).

Lemma getGroupInfo_begin_run (id : Z) (rt : Runtime) :
  let key := generateKey env "getGroupInfo" [JsNumber id] in
  getGroupInfo_begin env id rt =
    if not_null (fst (lookup env key rt)) then
      (Resolved (Ready (fst (lookup env key rt))),
       {| cache := snd (lookup env key rt); world := world rt;
          requests := requests rt;
          schedule := schedule rt ++ [Started id]; console := console rt |})
    else
      (Resolved (InFlight key),
       {| cache := snd (lookup env key rt); world := world rt;
          requests := requests rt ++ [HttpGet "/api/interface/get" id];
          schedule := schedule rt ++ [Started id]; console := console rt |}).
Proof.
  unfold getGroupInfo_begin. run_m.
  destruct (Cache.get _ _ _ _) as [cached s1]. run_m.
  destruct (not_null cached); reflexivity.
Qed.

Lemma getGroupInfo_end_ready (id : Z) (cached : JsValue) (rt : Runtime) :
  getGroupInfo_end env id (Ready cached) rt =
    (Resolved cached,
     {| cache := cache rt; world := world rt; requests := requests rt;
        schedule := schedule rt ++ [Settled id]; console := console rt |}).
Proof. reflexivity. Qed.

Lemma getGroupInfo_end_in_flight (id : Z) (key : string) (rt : Runtime) :
  getGroupInfo_end env id (InFlight key) rt =
    let got := http env "/api/interface/get" id (world rt) in
    match answered (fst got) with
    | Resolved result =>
        (Resolved result,
         {| cache := Cache.set (config env) (clock env (snd got)) (cache rt)
                       key result;
            world := snd got; requests := requests rt;
            schedule := schedule rt ++ [Settled id];
            console := console rt |})
    | Rejected (ApiError code msg) =>
        (Rejected (ApiError code msg),
         {| cache := cache rt; world := snd got; requests := requests rt;
            schedule := schedule rt ++ [Settled id];
            console := console rt ++ client_lines (fst got)
                       ++ [DetailApiFailed msg code] |})
    | Rejected e =>
        (Rejected (PlainError "获取接口详情时发生未知错误"),
         {| cache := cache rt; world := snd got; requests := requests rt;
            schedule := schedule rt ++ [Settled id];
            console := console rt ++ client_lines (fst got)
                       ++ [DetailFailed (message_of e)] |})
    end.
Proof.
  unfold getGroupInfo_end. run_m.
  destruct (http env _ id (world rt)) as [[response|e] w']; run_m.
  - unfold answered, checkApiResponse.
    destruct (errcode response =? 0); cbn; rewrite ?app_nil_r; reflexivity.
  - destruct e; cbn; rewrite <- ?app_assoc; reflexivity.
Qed.

Lemma getInterfaceList_run (projectId : Z) (rt : Runtime) :
  let key := generateKey env "getInterfaceList" [JsNumber projectId] in
  getInterfaceList env projectId rt =
    if not_null (fst (lookup env key rt)) then
      (Resolved (fst (lookup env key rt)),
       with_cache rt (snd (lookup env key rt)))
    else
      let got := http env "/api/interface/list_menu" projectId (world rt) in
      let sent := requests rt ++ [HttpGet "/api/interface/list_menu" projectId] in
      match answered (fst got) with
      | Resolved result =>
          (Resolved result,
           {| cache := Cache.set (config env) (clock env (snd got))
                         (snd (lookup env key rt)) key result;
              world := snd got; requests := sent;
              schedule := schedule rt; console := console rt |})
      | Rejected (ApiError code msg) =>
          (Rejected (ApiError code msg),
           {| cache := snd (lookup env key rt); world := snd got;
              requests := sent; schedule := schedule rt;
              console := console rt ++ client_lines (fst got)
                         ++ [ListApiFailed msg code] |})
      | Rejected e =>
          (Rejected (PlainError "获取接口列表时发生未知错误"),
           {| cache := snd (lookup env key rt); world := snd got;
              requests := sent; schedule := schedule rt;
              console := console rt ++ client_lines (fst got)
                         ++ [ListFailed (message_of e)] |})
      end.
Proof.
  unfold getInterfaceList. run_m.
  destruct (Cache.get _ _ _ _) as [cached s1]. run_m.
  destruct (not_null cached); [reflexivity|]. run_m.
  destruct (http env _ projectId (world rt)) as [[response|e] w']; run_m.
  - unfold answered, checkApiResponse.
    destruct (errcode response =? 0); cbn; rewrite ?app_nil_r; reflexivity.
  - destruct e; cbn; rewrite <- ?app_assoc; reflexivity.
Qed.

Lemma getGroupInfo_run (id : Z) (rt : Runtime) :
  let key := generateKey env "getGroupInfo" [JsNumber id] in
  getGroupInfo env id rt =
    let called := schedule rt ++ [Started id; Settled id] in
    if not_null (fst (lookup env key rt)) then
      (Resolved (fst (lookup env key rt)),
       {| cache := snd (lookup env key rt); world := world rt;
          requests := requests rt; schedule := called;
          console := console rt |})
    else
      let got := http env "/api/interface/get" id (world rt) in
      let sent := requests rt ++ [HttpGet "/api/interface/get" id] in
      match answered (fst got) with
      | Resolved result =>
          (Resolved result,
           {| cache := Cache.set (config env) (clock env (snd got))
                         (snd (lookup env key rt)) key result;
              world := snd got; requests := sent;
              schedule := called; console := console rt |})
      | Rejected (ApiError code msg) =>
          (Rejected (ApiError code msg),
           {| cache := snd (lookup env key rt); world := snd got;
              requests := sent; schedule := called;
              console := console rt ++ client_lines (fst got)
                       ++ [DetailApiFailed msg code] |})
      | Rejected e =>
          (Rejected (PlainError "获取接口详情时发生未知错误"),
           {| cache := snd (lookup env key rt); world := snd got;
              requests := sent; schedule := called;
              console := console rt ++ client_lines (fst got)
                       ++ [DetailFailed (message_of e)] |})
      end.
Proof.
  intros key. unfold getGroupInfo, bind.
  rewrite getGroupInfo_begin_run. fold key.
  destruct (not_null (fst (lookup env key rt))).
  - rewrite getGroupInfo_end_ready. cbn. now rewrite <- app_assoc.
  - rewrite getGroupInfo_end_in_flight. cbn.
    destruct (answered _) as [result|e]; cbn; rewrite <- app_assoc;
      [reflexivity|]. destruct e; reflexivity.
Qed.

(** C7, as the code has it.  When the cache has no value for the key and
    the awaited call ends in an error, [getGroupInfo] and [getInterfaceList]
    fail: no value is returned in its place and nothing is stored.  An error
    reported by the origin (a non-zero [errcode]) reaches the caller as the
    [ApiError] with that code and message, which are also written to the
    console; any other error, such as one of the transport, is replaced by
    a new error with a fixed message, and its own message goes to the
    console only, after what the client itself has written about the error.
    The request has left, once, and the world is as the answer left it. *)
Theorem fetch_failure_reaches_caller (param : Z) (rt : Runtime) :
  let detail_key := generateKey env "getGroupInfo" [JsNumber param] in
  let list_key := generateKey env "getInterfaceList" [JsNumber param] in
  (forall response, errcode response <> 0 ->
     answered (Resolved response) =
       Rejected (ApiError (errcode response) (errmsg response)))
  /\ (forall e, answered (Rejected e) = Rejected e)
  /\ (not_null (fst (lookup env detail_key rt)) = false ->
      forall e,
        answered (fst (http env "/api/interface/get" param (world rt)))
          = Rejected e ->
        let got := http env "/api/interface/get" param (world rt) in
        let failed := getGroupInfo env param rt in
        (is_ApiError e = true -> fst failed = Rejected e)
        /\ (is_ApiError e = false ->
            fst failed = Rejected (PlainError "获取接口详情时发生未知错误"))
        /\ cache (snd failed) = snd (lookup env detail_key rt)
        /\ (forall code msg, e = ApiError code msg ->
              console (snd failed) =
                console rt ++ client_lines (fst got)
                ++ [DetailApiFailed msg code])
        /\ (is_ApiError e = false ->
            console (snd failed) =
              console rt ++ client_lines (fst got)
              ++ [DetailFailed (message_of e)])
        /\ requests (snd failed) =
             requests rt ++ [HttpGet "/api/interface/get" param]
        /\ world (snd failed) = snd got)
  /\ (not_null (fst (lookup env list_key rt)) = false ->
      forall e,
        answered (fst (http env "/api/interface/list_menu" param (world rt)))
          = Rejected e ->
        let got := http env "/api/interface/list_menu" param (world rt) in
        let failed := getInterfaceList env param rt in
        (is_ApiError e = true -> fst failed = Rejected e)
        /\ (is_ApiError e = false ->
            fst failed = Rejected (PlainError "获取接口列表时发生未知错误"))
        /\ cache (snd failed) = snd (lookup env list_key rt)
        /\ (forall code msg, e = ApiError code msg ->
              console (snd failed) =
                console rt ++ client_lines (fst got)
                ++ [ListApiFailed msg code])
        /\ (is_ApiError e = false ->
            console (snd failed) =
              console rt ++ client_lines (fst got)
              ++ [ListFailed (message_of e)])
        /\ requests (snd failed) =
             requests rt ++ [HttpGet "/api/interface/list_menu" param]
        /\ world (snd failed) = snd got).
Proof.
  intros detail_key list_key. split; [|split; [|split]].
  - intros response Hcode. unfold answered, checkApiResponse.
    destruct (Z.eqb_spec (errcode response) 0); [contradiction | reflexivity].
  - reflexivity.
  - intros Hmiss e He. cbv zeta. rewrite getGroupInfo_run. fold detail_key.
    rewrite Hmiss. cbv zeta. rewrite He.
    destruct e; cbn [fst snd cache console requests world is_ApiError];
      repeat split; try reflexivity; try discriminate;
      intros code msg [= <- <-]; reflexivity.
  - intros Hmiss e He. cbv zeta. rewrite getInterfaceList_run. fold list_key.
    rewrite Hmiss. cbv zeta. rewrite He.
    destruct e; cbn [fst snd cache console requests world is_ApiError];
      repeat split; try reflexivity; try discriminate;
      intros code msg [= <- <-]; reflexivity.
Qed.

(** *** The sequential batch *)

Lemma getGroupInfo_schedule (id : Z) (rt : Runtime) :
  schedule (snd (getGroupInfo env id rt)) =
    schedule rt ++ [Started id; Settled id].
Proof.
  rewrite getGroupInfo_run. cbv zeta.
  destruct (not_null _); [reflexivity|].
  destruct (answered _) as [result|e]; [reflexivity|].
  destruct e; reflexivity.
Qed.

Lemma getGroupInfo_console (id : Z) (rt : Runtime) (l : LogLine) :
  In l (console rt) -> In l (console (snd (getGroupInfo env id rt))).
Proof.
  rewrite getGroupInfo_run. cbv zeta.
  destruct (not_null _); [auto|].
  destruct (answered _) as [result|e]; [auto|].
  destruct e; cbn; intros H; apply in_or_app; auto.
Qed.

Lemma batch_loop_run (ids : list Z) :
  forall (results : list JsValue) (errors : list (Z * string)) (rt : Runtime),
  exists (os : list (Outcome JsValue)) (rt' : Runtime),
    batch_loop env ids results errors rt =
      (Resolved (results ++ successes os,
                 errors ++ failures (combine ids os)), rt')
    /\ List.length os = List.length ids
    /\ Forall2 (fun id o => exists at_ : Runtime,
                  fst (getGroupInfo env id at_) = o) ids os
    /\ schedule rt' =
         schedule rt ++ flat_map (fun id => [Started id; Settled id]) ids
    /\ (forall id msg, In (id, msg) (failures (combine ids os)) ->
          In (BatchItemFailed id msg) (console rt'))
    /\ (forall l, In l (console rt) -> In l (console rt')).
Proof.
  induction ids as [|id rest IH]; intros results errors rt.
  - exists [], rt. cbn. rewrite !app_nil_r.
    repeat split; auto. intros ? ? [].
  - cbn [batch_loop]. unfold bind at 1. unfold try_catch, bind at 1.
    pose proof (getGroupInfo_schedule id rt) as Hsched.
    pose proof (getGroupInfo_console id rt) as Hcons.
    destruct (getGroupInfo env id rt) as [[apiData|error] rt1] eqn:E;
      cbn [fst snd] in *.
    + unfold ret at 1. cbn [fst snd].
      destruct (IH (results ++ [apiData]) errors rt1)
        as (os & rt' & Hrun & Hlen & Hall & Hs & Hfail & Hkeep).
      exists (Resolved apiData :: os), rt'. cbn.
      rewrite Hrun, <- app_assoc. cbn. repeat split; auto.
      * constructor; [exists rt; now rewrite E | exact Hall].
      * rewrite Hs, Hsched, <- app_assoc. reflexivity.
    + unfold log, bind, ret. cbn [fst snd world cache requests schedule console].
      match goal with
      | |- context [batch_loop env rest results ?errs ?st] =>
          destruct (IH results errs st)
            as (os & rt' & Hrun & Hlen & Hall & Hs & Hfail & Hkeep)
      end.
      exists (Rejected error :: os), rt'. cbn in *.
      rewrite Hrun, <- app_assoc. cbn. repeat split; auto.
      * constructor; [exists rt; now rewrite E | exact Hall].
      * rewrite Hs, Hsched, <- app_assoc. reflexivity.
      * intros id' msg [[= <- <-]|Hin]; [|now apply Hfail].
        apply Hkeep, in_or_app. right. now left.
      * intros l Hl. apply Hkeep, in_or_app. left. auto.
Qed.

Lemma warn_each_run (errors : list (Z * string)) (rt : @Runtime W) :
  fst (warn_each errors rt) = Resolved tt
  /\ schedule (snd (warn_each errors rt)) = schedule rt
  /\ (forall l, In l (console rt) -> In l (console (snd (warn_each errors rt)))).
Proof.
  revert rt. induction errors as [|[id error] rest IH]; intros rt.
  - cbn. auto.
  - cbn [warn_each]. unfold bind, log.
    cbn [fst snd world cache requests schedule console].
    match goal with
    | |- context [warn_each rest ?st] =>
        destruct (IH st) as (H1 & H2 & H3)
    end.
    repeat split; auto. intros l Hl. apply H3. cbn. apply in_or_app. auto.
Qed.

Lemma getGroupInfo_fetched (id : Z) (rt : Runtime) :
  fst (getGroupInfo env id rt) = fetched env id rt.
Proof.
  rewrite getGroupInfo_run. unfold fetched. cbv zeta.
  destruct (not_null _); [reflexivity|].
  destruct (answered _) as [result|e]; [reflexivity|].
  destruct e; reflexivity.
Qed.

Lemma attempt_run (id : Z) (rt : Runtime) :
  fst (attempt env id rt) = fst (getGroupInfo env id rt)
  /\ cache (snd (attempt env id rt)) = cache (snd (getGroupInfo env id rt))
  /\ world (snd (attempt env id rt)) = world (snd (getGroupInfo env id rt))
  /\ requests (snd (attempt env id rt))
     = requests (snd (getGroupInfo env id rt))
  /\ schedule (snd (attempt env id rt)) = schedule rt ++ [Started id; Settled id]
  /\ console (snd (attempt env id rt))
     = console (snd (getGroupInfo env id rt))
       ++ match fst (getGroupInfo env id rt) with
          | Resolved _ => []
          | Rejected e => [BatchItemFailed id (message_of e)]
          end.
Proof.
  unfold attempt. pose proof (getGroupInfo_schedule id rt) as Hs.
  destruct (getGroupInfo env id rt) as [[apiData|error] rt1];
    cbn [fst snd log cache world requests schedule console] in *;
    rewrite ?app_nil_r; repeat split; auto.
Qed.

Lemma batch_loop_in_turn (ids : list Z) :
  forall (results : list JsValue) (errors : list (Z * string)) (rt : Runtime),
    batch_loop env ids results errors rt =
      (Resolved (results ++ successes (map snd (in_turn env ids rt)),
                 errors ++ failures (combine ids (map snd (in_turn env ids rt)))),
       after_all env ids rt).
Proof.
  induction ids as [|id rest IH]; intros results errors rt.
  - cbn. now rewrite !app_nil_r.
  - cbn [batch_loop in_turn after_all fold_left map combine].
    unfold bind at 1. unfold try_catch, bind at 1. unfold attempt.
    destruct (getGroupInfo env id rt) as [[apiData|error] rt1].
    + unfold ret at 1. cbn [fst snd]. rewrite IH. cbn [successes failures].
      now rewrite <- app_assoc.
    + unfold log, bind, ret.
      cbn [fst snd world cache requests schedule console].
      rewrite IH. cbn [successes failures]. now rewrite <- app_assoc.
Qed.

Lemma in_turn_ids (ids : list Z) (rt : Runtime) :
  map (fun call => fst (fst call)) (in_turn env ids rt) = ids.
Proof.
  revert rt. induction ids as [|id rest IH]; intros rt; cbn; [reflexivity|].
  now rewrite IH.
Qed.

Lemma in_turn_states (ids : list Z) (rt : Runtime) :
  forall before id st o rest,
    in_turn env ids rt = before ++ (id, st, o) :: rest ->
    st = after_all env (map (fun call => fst (fst call)) before) rt.
Proof.
  revert rt. induction ids as [|id0 ids IH]; intros rt before id st o rest.
  - destruct before; discriminate.
  - cbn [in_turn]. destruct before as [|call before]; cbn [app].
    + intros [= _ <- _ _]. reflexivity.
    + intros [= <- Hrest]. cbn [map fst after_all fold_left].
      exact (IH _ _ _ _ _ _ Hrest).
Qed.

Lemma in_turn_outcomes (ids : list Z) (rt : Runtime) :
  Forall (fun call =>
            snd call = fst (getGroupInfo env (fst (fst call)) (snd (fst call)))
            /\ snd call = fetched env (fst (fst call)) (snd (fst call)))
         (in_turn env ids rt).
Proof.
  revert rt. induction ids as [|id rest IH]; intros rt; cbn [in_turn];
    constructor; [|apply IH].
  cbn [fst snd]. destruct (attempt_run id rt) as (-> & _).
  split; [reflexivity | apply getGroupInfo_fetched].
Qed.

Lemma after_all_schedule (ids : list Z) (rt : Runtime) :
  schedule (after_all env ids rt) =
    schedule rt ++ flat_map (fun id => [Started id; Settled id]) ids.
Proof.
  revert rt. induction ids as [|id rest IH]; intros rt;
    cbn [after_all fold_left flat_map]; [now rewrite app_nil_r|].
  change (fold_left _ rest ?st) with (after_all env rest st).
  rewrite IH. destruct (attempt_run id rt) as (_ & _ & _ & _ & -> & _).
  now rewrite <- app_assoc.
Qed.

Lemma after_all_console (ids : list Z) (rt : Runtime) (l : LogLine) :
  In l (console rt) -> In l (console (after_all env ids rt)).
Proof.
  revert rt. induction ids as [|id rest IH]; intros rt Hl;
    cbn [after_all fold_left]; [exact Hl|].
  change (fold_left _ rest ?st) with (after_all env rest st).
  apply IH. destruct (attempt_run id rt) as (_ & _ & _ & _ & _ & ->).
  apply in_or_app. left. now apply getGroupInfo_console.
Qed.

Lemma after_all_failures (ids : list Z) (rt : Runtime) (id : Z) (msg : string) :
  In (id, msg) (failures (combine ids (map snd (in_turn env ids rt)))) ->
  In (BatchItemFailed id msg) (console (after_all env ids rt)).
Proof.
  revert rt. induction ids as [|id0 rest IH]; intros rt;
    cbn [in_turn map combine after_all fold_left snd]; [intros []|].
  change (fold_left _ rest ?st) with (after_all env rest st).
  destruct (attempt_run id0 rt) as (Ho & _ & _ & _ & _ & Hc).
  rewrite Ho in *.
  destruct (fst (getGroupInfo env id0 rt)) as [v|e]; cbn [failures].
  - apply IH.
  - intros [[= <- <-]|Hin]; [|now apply IH].
    apply after_all_console. rewrite Hc. apply in_or_app. right. now left.
Qed.

Lemma warn_each_exact (errors : list (Z * string)) (rt : @Runtime W) :
  warn_each errors rt =
    (Resolved tt,
     {| cache := cache rt; world := world rt; requests := requests rt;
        schedule := schedule rt;
        console := console rt
                   ++ map (fun ie => BatchSummaryItem (fst ie) (snd ie)) errors |}).
Proof.
  revert rt. induction errors as [|[id error] rest IH]; intros rt.
  - cbn. rewrite app_nil_r. now destruct rt.
  - cbn [warn_each]. unfold bind, log.
    cbn [fst snd world cache requests schedule console]. rewrite IH.
    cbn [fst snd world cache requests schedule console map].
    now rewrite <- app_assoc.
Qed.

Lemma tally (ids : list Z) (os : list (Outcome JsValue)) :
  List.length os = List.length ids ->
  (List.length (successes os) + List.length (failures (combine ids os))
   = List.length ids)%nat.
Proof.
  revert os. induction ids as [|x l IHl]; intros [|[v|e] o] Hl; cbn in *;
    try discriminate; auto;
    injection Hl as Hl; specialize (IHl o Hl); lia.
Qed.

(** C8: [batchGetGroupInfo] calls [getGroupInfo] once for every identifier
    of its input, one after the other and in order, whatever the outcome of
    the calls before: each call is made in the state the calls before it
    have left, and comes to what the cache and the origin have for its
    identifier then.  Each call ends up exactly once, as its value in
    [results] or as its identifier and error message in [errors]; the
    values are what the function returns, in order; every failure is
    written to the console when it happens and again in the lines that
    close the batch; and the function itself never fails. *)
Theorem batch_accounts_for_every_identifier (ids : list Z) (rt : Runtime) :
  let calls := in_turn env ids rt in
  let os := map snd calls in
  let errors := failures (combine ids os) in
  let last := after_all env ids rt in
  let done := batchGetGroupInfo env ids rt in
  map (fun call => fst (fst call)) calls = ids
  /\ (forall before id st o rest,
        calls = before ++ (id, st, o) :: rest ->
        st = after_all env (map (fun call => fst (fst call)) before) rt
        /\ o = fst (getGroupInfo env id st)
        /\ o = fetched env id st)
  /\ batch_loop env ids [] [] rt = (Resolved (successes os, errors), last)
  /\ fst done = Resolved (successes os)
  /\ (List.length (successes os) + List.length errors = List.length ids)%nat
  /\ cache (snd done) = cache last
  /\ world (snd done) = world last
  /\ requests (snd done) = requests last
  /\ schedule (snd done) =
       schedule rt ++ flat_map (fun id => [Started id; Settled id]) ids
  /\ console (snd done) = console last ++ summary errors
  /\ (forall id msg, In (id, msg) errors ->
        In (BatchItemFailed id msg) (console last)).
Proof.
  intros calls os errors last done.
  assert (Hrun : batch_loop env ids [] [] rt
                 = (Resolved (successes os, errors), last))
    by apply batch_loop_in_turn.
  split; [apply in_turn_ids|]. split; [|split; [exact Hrun|]].
  { intros before id st o rest Hcalls.
    split; [exact (in_turn_states ids rt _ _ _ _ _ Hcalls)|].
    pose proof (in_turn_outcomes ids rt) as Hall. fold calls in Hall.
    rewrite Hcalls in Hall. apply Forall_app in Hall. destruct Hall as [_ Hall].
    inversion Hall as [|call tl Hcall _]. exact Hcall. }
  assert (Hdone : done =
    (Resolved (successes os),
     {| cache := cache last; world := world last; requests := requests last;
        schedule := schedule last;
        console := console last ++ summary errors |})).
  { subst done. unfold batchGetGroupInfo, bind. rewrite Hrun. cbn [fst snd].
    destruct errors as [|err errs]; cbn [List.length Nat.ltb Nat.leb summary].
    - cbn. rewrite app_nil_r. now destruct last.
    - unfold log. cbn [fst snd world cache requests schedule console].
      rewrite warn_each_exact.
      cbn [fst snd world cache requests schedule console ret].
      now rewrite <- app_assoc. }
  rewrite Hdone. cbn [fst snd cache world requests schedule console].
  repeat split.
  - apply tally. unfold os, calls.
    rewrite length_map, <- (length_map (fun call => fst (fst call))).
    now rewrite in_turn_ids.
  - apply after_all_schedule.
  - intros id msg Hin. now apply after_all_failures.
Qed.

End Fetchers.

(** ** Chunks and rounds *)

Module ChunkFacts.

Lemma chunks_upto_concat (c : nat) (fuel : nat) (ids : list Z) :
  (1 <= c)%nat -> (List.length ids <= fuel)%nat ->
  List.concat (chunks_upto fuel c ids) = ids.
Proof.
  intros Hc. revert ids. induction fuel as [|fuel IH]; intros ids Hlen.
  - destruct ids; [reflexivity | simpl in Hlen; lia].
  - destruct ids as [|x ids]; [reflexivity|].
    cbn [chunks_upto List.concat]. rewrite IH.
    + apply firstn_skipn.
    + rewrite length_skipn. cbn [List.length] in *. lia.
Qed.

Lemma chunks_upto_sizes (c : nat) (fuel : nat) (ids : list Z) :
  (1 <= c)%nat ->
  Forall (fun chunk => 1 <= List.length chunk <= c)%nat
         (chunks_upto fuel c ids).
Proof.
  intros Hc. revert ids. induction fuel as [|fuel IH]; intros ids.
  - constructor.
  - destruct ids as [|x ids]; [constructor|].
    cbn [chunks_upto]. constructor; [|apply IH].
    rewrite length_firstn. cbn [List.length]. lia.
Qed.

Lemma ceil_div_step (n c : nat) :
  (1 <= c)%nat -> (1 <= n)%nat -> ceil_div n c = S (ceil_div (n - c) c).
Proof.
  intros Hc Hn. unfold ceil_div.
  destruct (Nat.le_gt_cases c n) as [Hle|Hlt].
  - replace (n + c - 1)%nat with ((n - c + c - 1) + 1 * c)%nat by lia.
    rewrite Nat.div_add by lia. lia.
  - replace (n - c)%nat with 0%nat by lia.
    replace (n + c - 1)%nat with ((n - 1) + 1 * c)%nat by lia.
    rewrite Nat.div_add by lia.
    rewrite (Nat.div_small (n - 1) c) by lia.
    rewrite (Nat.div_small (0 + c - 1) c) by lia. lia.
Qed.

Lemma chunks_upto_count (c : nat) (fuel : nat) (ids : list Z) :
  (1 <= c)%nat -> (List.length ids <= fuel)%nat ->
  List.length (chunks_upto fuel c ids) = ceil_div (List.length ids) c.
Proof.
  intros Hc. revert ids. induction fuel as [|fuel IH]; intros ids Hlen.
  - destruct ids; [|simpl in Hlen; lia]. cbn. unfold ceil_div.
    symmetry. apply Nat.div_small. lia.
  - destruct ids as [|x ids].
    + cbn. unfold ceil_div. symmetry. apply Nat.div_small. lia.
    + cbn [chunks_upto List.length]. rewrite IH.
      * rewrite length_skipn. symmetry. apply ceil_div_step; cbn [List.length]; lia.
      * rewrite length_skipn. cbn [List.length] in *. lia.
Qed.

(** The chunks of the design document, in its own words: consecutive, in
    order, of at most [c] identifiers, and [ceil(N / c)] of them. *)
Lemma chunks_partition (c : nat) (ids : list Z) :
  (1 <= c)%nat ->
  List.concat (chunks c ids) = ids
  /\ Forall (fun chunk => 1 <= List.length chunk <= c)%nat (chunks c ids)
  /\ List.length (chunks c ids) = ceil_div (List.length ids) c.
Proof.
  intros Hc. unfold chunks.
  auto using chunks_upto_concat, chunks_upto_sizes, chunks_upto_count.
Qed.

Lemma count_rounds_started (chunk : list Z) (tr : list CallEvent) :
  count_rounds true (map Started chunk ++ tr) = count_rounds true tr.
Proof. induction chunk; simpl; auto. Qed.

Lemma count_rounds_settled (b : bool) (order : list Z) (tr : list CallEvent) :
  order <> [] ->
  count_rounds b (map Settled order ++ tr) = count_rounds false tr.
Proof.
  revert b. induction order as [|x order IH]; intros b Hne; [congruence|].
  simpl. destruct order as [|y order]; [reflexivity|].
  apply IH. discriminate.
Qed.

(** A schedule in rounds has as many rounds as there are chunks. *)
Lemma rounds_count (cs : list (list Z)) (tr : list CallEvent) :
  Rounds cs tr ->
  Forall (fun chunk => chunk <> []) cs ->
  rounds tr = List.length cs.
Proof.
  unfold rounds. induction 1 as [|chunk order rest tr Hperm Hrest IH];
    intros Hne; [reflexivity|].
  inversion Hne as [|? ? Hchunk Hne']; subst.
  destruct chunk as [|x chunk]; [congruence|]. simpl.
  rewrite count_rounds_started, count_rounds_settled.
  - now rewrite IH.
  - intros ->. apply Permutation_sym, Permutation_nil in Hperm. discriminate.
Qed.

Lemma rounds_one_by_one (ids : list Z) :
  Rounds (map (fun id => [id]) ids)
         (flat_map (fun id => [Started id; Settled id]) ids).
Proof.
  induction ids as [|id ids IH]; simpl; [constructor|].
  apply (Rounds_cons [id] [id]); auto.
Qed.

Lemma remove_nth_perm {A : Type} (l : list A) (i : nat) (x : A) :
  nth_error l i = Some x ->
  Permutation l (x :: remove_nth i l)
  /\ S (List.length (remove_nth i l)) = List.length l.
Proof.
  revert i. induction l as [|y l IH]; intros [|i]; simpl; try discriminate.
  - intros [= ->]. auto.
  - intros H. destruct (IH i H) as [Hp Hl]. split; [|lia].
    rewrite perm_swap. now constructor.
Qed.

End ChunkFacts.

(** ** Preloading *)

Section Preload.

Context {W : Type} (env : Env W).

Lemma start_all_run (batch : list Z) (rt : Runtime) :
  exists (ts : list (Z * Task)) (rt' : Runtime),
    start_all env batch rt = (Resolved ts, rt')
    /\ map fst ts = batch
    /\ schedule rt' = schedule rt ++ map Started batch.
Proof.
  revert rt. induction batch as [|id rest IH]; intros rt.
  - exists [], rt. cbn. rewrite app_nil_r. auto.
  - cbn [start_all]. unfold bind at 1. rewrite getGroupInfo_begin_run.
    cbv zeta.
    destruct (not_null _); cbv beta iota; unfold bind at 1;
      match goal with
      | |- context [start_all env rest ?st] =>
          destruct (IH st) as (ts & rt' & Hrun & Hids & Hs)
      end;
      unfold bind, ret; rewrite Hrun; cbn in *;
      eexists; eexists; (split; [reflexivity|]); cbn;
      rewrite Hids, Hs, <- app_assoc; auto.
Qed.

Lemma getGroupInfo_end_schedule (id : Z) (t : Task) (rt : Runtime) :
  schedule (snd (getGroupInfo_end env id t rt)) = schedule rt ++ [Settled id].
Proof.
  destruct t as [cached|key].
  - reflexivity.
  - rewrite getGroupInfo_end_in_flight. cbv zeta.
    destruct (answered _) as [result|e]; [reflexivity|].
    destruct e; reflexivity.
Qed.

(** A promise of the batch never rejects: a failure of its call becomes a
    warning on the console and the value [null]. *)
Lemma settle_run (it : Z * Task) (rt : Runtime) :
  exists v : JsValue,
    settle env it rt = (Resolved v, snd (settle env it rt))
    /\ schedule (snd (settle env it rt)) = schedule rt ++ [Settled (fst it)]
    /\ (forall e rt1,
          getGroupInfo_end env (fst it) (snd it) rt = (Rejected e, rt1) ->
          v = JsNull
          /\ cache (snd (settle env it rt)) = cache rt1
          /\ console (snd (settle env it rt)) =
               console rt1 ++ [PreloadItemFailed (fst it) (message_of e)])
    /\ (forall a rt1,
          getGroupInfo_end env (fst it) (snd it) rt = (Resolved a, rt1) ->
          v = a /\ snd (settle env it rt) = rt1).
Proof.
  unfold settle, try_catch.
  pose proof (getGroupInfo_end_schedule (fst it) (snd it) rt) as Hs.
  destruct (getGroupInfo_end env (fst it) (snd it) rt) as [[a|e] rt1];
    cbn [fst snd] in *.
  - exists a. split; [reflexivity|]. split; [exact Hs|].
    split; [intros ? ? [=] | intros ? ? [= <- <-]; auto].
  - exists JsNull. unfold bind, log, ret. cbn.
    split; [reflexivity|]. split; [exact Hs|].
    split; [intros ? ? [= <- <-]; auto | intros ? ? [=]].
Qed.

Lemma promise_all_run (n : nat) :
  forall (promises : list (Z * Task)) (rt : Runtime),
  n = List.length promises ->
  exists (vs : list (Z * JsValue)) (order : list Z) (rt' : Runtime),
    promise_all env n promises rt = (Resolved vs, rt')
    /\ schedule rt' = schedule rt ++ map Settled order
    /\ Permutation (map fst promises) order.
Proof.
  induction n as [|n IH]; intros promises rt Hn.
  - destruct promises; [|discriminate].
    exists [], [], rt. cbn. rewrite app_nil_r. auto.
  - cbn [promise_all].
    set (i := (pick env (world rt) (List.length promises)
               mod List.length promises)%nat).
    assert (Hi : (i < List.length promises)%nat).
    { apply Nat.mod_upper_bound. lia. }
    destruct (nth_error promises i) as [it|] eqn:E;
      [|apply nth_error_None in E; lia].
    destruct (ChunkFacts.remove_nth_perm promises i it E) as [Hperm Hlen].
    destruct (settle_run it rt) as (v & Hrun & Hs & _).
    unfold bind at 1. rewrite Hrun.
    destruct (IH (remove_nth i promises) (snd (settle env it rt)))
      as (vs & order & rt' & Hrest & Hs' & Hperm'); [lia|].
    unfold bind, ret. rewrite Hrest.
    exists ((fst it, v) :: vs), (fst it :: order), rt'.
    split; [reflexivity|]. split.
    + rewrite Hs', Hs, <- app_assoc. reflexivity.
    + rewrite (Permutation_map fst Hperm). cbn. now constructor.
Qed.

Lemma preload_round_run (i : nat) (ids : list Z) (rt : Runtime) :
  exists (order : list Z) (rt' : Runtime),
    preload_round env i ids rt = (Resolved tt, rt')
    /\ schedule rt' =
         schedule rt ++ map Started (firstn batchSize (skipn i ids))
                     ++ map Settled order
    /\ Permutation (firstn batchSize (skipn i ids)) order.
Proof.
  unfold preload_round, slice.
  replace (i + batchSize - i)%nat with batchSize by lia.
  destruct (start_all_run (firstn batchSize (skipn i ids)) rt)
    as (ts & rt1 & Hstart & Hids & Hs1).
  unfold bind at 1. rewrite Hstart.
  destruct (promise_all_run (List.length ts) ts rt1 eq_refl)
    as (vs & order & rt' & Hall & Hs2 & Hperm).
  unfold bind, ret. rewrite Hall.
  exists order, rt'. split; [reflexivity|]. split.
  - rewrite Hs2, Hs1, <- app_assoc. reflexivity.
  - now rewrite <- Hids.
Qed.

(** The loop of the preload runs the rounds of the chunks, and nothing
    else. *)
Lemma preload_loop_run (ids : list Z) (fuel : nat) :
  forall (i : nat) (rt : Runtime),
  exists (tr : list CallEvent) (rt' : Runtime),
    preload_loop env fuel i ids rt = (Resolved tt, rt')
    /\ schedule rt' = schedule rt ++ tr
    /\ Rounds (chunks_upto fuel batchSize (skipn i ids)) tr.
Proof.
  induction fuel as [|fuel IH]; intros i rt.
  - exists [], rt. cbn. rewrite app_nil_r. repeat split. constructor.
  - cbn [preload_loop chunks_upto].
    destruct (Nat.ltb_spec i (List.length ids)) as [Hlt|Hge].
    + destruct (preload_round_run i ids rt)
        as (order & rt1 & Hround & Hs1 & Hperm).
      unfold bind. rewrite Hround.
      destruct (IH (i + batchSize)%nat rt1) as (tr & rt' & Hloop & Hs & Hrounds).
      rewrite Hloop.
      destruct (skipn i ids) as [|x rest] eqn:E.
      { apply (f_equal (@List.length Z)) in E. rewrite length_skipn in E.
        simpl in E. lia. }
      exists (map Started (firstn batchSize (x :: rest))
              ++ map Settled order ++ tr), rt'.
      split; [reflexivity|]. split.
      * rewrite Hs, Hs1, <- !app_assoc. reflexivity.
      * constructor; [exact Hperm|].
        rewrite <- E, skipn_skipn. rewrite Nat.add_comm. exact Hrounds.
    + exists [], rt. rewrite skipn_all2 by lia. cbn.
      rewrite app_nil_r. repeat split. constructor.
Qed.

(** The loop ends by its test: fuel beyond the number of identifiers left
    changes nothing. *)
Lemma preload_loop_fuel (ids : list Z) (fuel more : nat) :
  forall (i : nat) (rt : Runtime),
  (List.length ids <= i + fuel)%nat ->
  preload_loop env (fuel + more) i ids rt = preload_loop env fuel i ids rt.
Proof.
  induction fuel as [|fuel IH]; intros i rt Hlen.
  - destruct more as [|more]; [reflexivity|]. cbn [Nat.add preload_loop].
    destruct (Nat.ltb_spec i (List.length ids)); [lia | reflexivity].
  - cbn [Nat.add preload_loop].
    destruct (Nat.ltb_spec i (List.length ids)); [|reflexivity].
    unfold bind. destruct (preload_round env i ids rt) as [[[]|e] rt1]; auto.
    apply IH. unfold batchSize. lia.
Qed.

Lemma getInterfaceList_schedule (projectId : Z) (rt : Runtime) :
  schedule (snd (getInterfaceList env projectId rt)) = schedule rt.
Proof.
  rewrite getInterfaceList_run. cbv zeta.
  destruct (not_null _); [reflexivity|].
  destruct (answered _) as [result|e]; [reflexivity|].
  destruct e; reflexivity.
Qed.

Lemma batchGetGroupInfo_schedule (ids : list Z) (rt : Runtime) :
  schedule (snd (batchGetGroupInfo env ids rt)) =
    schedule rt ++ flat_map (fun id => [Started id; Settled id]) ids.
Proof.
  destruct (batch_loop_run env ids [] [] rt)
    as (os & rt' & Hrun & _ & _ & Hs & _).
  unfold batchGetGroupInfo, bind. rewrite Hrun. cbn [fst snd].
  destruct (0 <? _)%nat; [|exact Hs].
  unfold log. cbn [fst snd world cache requests schedule console].
  match goal with
  | |- context [warn_each ?errs ?st] =>
      destruct (warn_each_run errs st) as (H1 & H2 & _);
      destruct (warn_each errs st) as [[[]|e] rt2]
  end; cbn in *; try discriminate.
  now rewrite H2.
Qed.

(** C5, as the code has it.  The preload takes the N identifiers of the
    listing in consecutive chunks of at most five (the size is a constant
    of the code), in order, and runs one round per chunk, [ceil(N / 5)] in
    all: in a round the calls of the chunk are all started, in order, before
    any of them settles, and the next round starts when all of them have
    settled.  [batchGetGroupInfo] does not work in chunks: it awaits every
    call before making the next one, in N rounds of one call. *)
Theorem preload_runs_in_rounds (projectId : Z) (rt : Runtime)
  (l : list ApiCategoryItem) :
  fst (getInterfaceList env projectId rt) = Resolved (JsCategories l) ->
  let ids := listed l in
  let done := preloadInterfaceData env projectId rt in
  exists tr : list CallEvent,
    fst done = Resolved tt
    /\ schedule (snd done) = schedule rt ++ tr
    /\ Rounds (chunks batchSize ids) tr
    /\ List.concat (chunks batchSize ids) = ids
    /\ Forall (fun chunk => 1 <= List.length chunk <= batchSize)%nat
              (chunks batchSize ids)
    /\ List.length (chunks batchSize ids) = ceil_div (List.length ids) batchSize
    /\ rounds tr = ceil_div (List.length ids) batchSize
    /\ (forall (ids' : list Z) (rt' : Runtime),
          let tr' := flat_map (fun id => [Started id; Settled id]) ids' in
          schedule (snd (batchGetGroupInfo env ids' rt')) = schedule rt' ++ tr'
          /\ Rounds (map (fun id => [id]) ids') tr'
          /\ rounds tr' = List.length ids').
Proof.
  intros Hlist ids done.
  assert (Hc : (1 <= batchSize)%nat) by (unfold batchSize; lia).
  destruct (ChunkFacts.chunks_partition batchSize ids Hc)
    as (Hconcat & Hsizes & Hcount).
  pose proof (getInterfaceList_schedule projectId rt) as Hs0.
  subst done. unfold preloadInterfaceData, try_catch, bind.
  destruct (getInterfaceList env projectId rt) as [o rt1].
  cbn [fst snd] in *. subst o. cbn [collect_ids]. unfold ret.
  fold (listed l). fold ids. cbv beta iota.
  destruct (preload_loop_run ids (List.length ids) 0%nat rt1)
    as (tr & rt' & Hloop & Hs & Hrounds).
  rewrite !Hloop. cbn [skipn] in Hrounds.
  fold (chunks batchSize ids) in Hrounds.
  exists tr. cbn [fst snd].
  split; [reflexivity|]. split; [now rewrite Hs, Hs0|].
  split; [exact Hrounds|]. split; [exact Hconcat|]. split; [exact Hsizes|].
  split; [exact Hcount|]. split.
  - rewrite <- Hcount. apply ChunkFacts.rounds_count; [exact Hrounds|].
    refine (Forall_impl _ _ Hsizes). intros chunk Hlen Hnil.
    subst chunk. cbn in Hlen. lia.
  - intros ids' rt'0. split; [apply batchGetGroupInfo_schedule|].
    split; [apply ChunkFacts.rounds_one_by_one|].
    rewrite (ChunkFacts.rounds_count _ _ (ChunkFacts.rounds_one_by_one ids')).
    + apply length_map.
    + apply Forall_forall. intros chunk Hin. apply in_map_iff in Hin.
      destruct Hin as [id [<- _]]. discriminate.
Qed.

(** C6, as the code has it: the preload never fails outward.  Whatever
    goes wrong inside it is caught and written to the console.  When the
    listing fails, that is all it does: no call for an interface is made.
    When the call for an interface fails, its promise resolves with [null]
    after a warning, so that waiting for the chunk cannot fail either. *)
Theorem preload_never_fails (projectId : Z) (rt : Runtime) :
  let done := preloadInterfaceData env projectId rt in
  fst done = Resolved tt
  /\ (forall e rt1,
        getInterfaceList env projectId rt = (Rejected e, rt1) ->
        schedule (snd done) = schedule rt
        /\ requests (snd done) = requests rt1
        /\ cache (snd done) = cache rt1
        /\ console (snd done) = console rt1 ++ [PreloadFailed (message_of e)])
  /\ (forall (it : Z * Task) (at_ : Runtime),
        exists v : JsValue,
          settle env it at_ = (Resolved v, snd (settle env it at_))
          /\ forall e rt1,
               getGroupInfo_end env (fst it) (snd it) at_ = (Rejected e, rt1) ->
               v = JsNull
               /\ console (snd (settle env it at_)) =
                    console rt1 ++ [PreloadItemFailed (fst it) (message_of e)]).
Proof.
  intros done. subst done. split; [|split].
  - unfold preloadInterfaceData, try_catch.
    destruct (bind _ _ rt) as [[[]|e] rt1]; reflexivity.
  - intros e rt1 Hlist.
    pose proof (getInterfaceList_schedule projectId rt) as Hs. rewrite Hlist in Hs.
    assert (E : preloadInterfaceData env projectId rt =
                (Resolved tt,
                 {| cache := cache rt1; world := world rt1;
                    requests := requests rt1; schedule := schedule rt1;
                    console := console rt1 ++ [PreloadFailed (message_of e)] |})).
    { unfold preloadInterfaceData, try_catch, bind. now rewrite Hlist. }
    rewrite E. cbn in Hs |- *. auto.
  - intros it at_. destruct (settle_run it at_) as (v & Hrun & _ & Hfail & _).
    exists v. split; [exact Hrun|]. intros e rt1 He.
    destruct (Hfail e rt1 He) as (Hv & _ & Hc). auto.
Qed.

End Preload.

(** ** The properties at work in the small world *)

Lemma fetch_failure_reaches_caller_witness :
  fst (getGroupInfo (Demo.env 3 true) 7 (Demo.boot [] 0))
  = Rejected (ApiError 404 "not found")
  /\ console (snd (getGroupInfo (Demo.env 3 true) 9 (Demo.boot [] 0)))
     = [] ++ [NetworkError "timeout of 1000ms exceeded"]
       ++ [DetailFailed "timeout of 1000ms exceeded"].
Proof.
  pose proof (fetch_failure_reaches_caller (Demo.env 3 true) 7
                (Demo.boot [] 0)) as H.
  pose proof (fetch_failure_reaches_caller (Demo.env 3 true) 9
                (Demo.boot [] 0)) as H'.
  cbv zeta in H, H'. destruct H as (_ & _ & Hdetail & _).
  destruct H' as (_ & _ & Hdetail' & _).
  destruct (Hdetail eq_refl (ApiError 404 "not found") eq_refl) as (Hsame & _).
  destruct (Hdetail' eq_refl (AxiosError "timeout of 1000ms exceeded") eq_refl)
    as (_ & _ & _ & _ & Hlog & _).
  split; [exact (Hsame eq_refl) | exact (Hlog eq_refl)].
Defined.

(** C7 as stated fails for the errors of the transport: the connection
    breaks on interface 9 and on project 2 with an error of the HTTP client,
    and the caller receives another error, with another message. *)
Lemma transport_error_is_replaced :
  let rt := Demo.boot [] 0 in
  fst (http (Demo.env 3 true) "/api/interface/get" 9 (world rt))
    = Rejected (AxiosError "timeout of 1000ms exceeded")
  /\ fst (getGroupInfo (Demo.env 3 true) 9 rt)
     <> Rejected (AxiosError "timeout of 1000ms exceeded")
  /\ message_of (PlainError "获取接口详情时发生未知错误")
     <> "timeout of 1000ms exceeded"
  /\ fst (http (Demo.env 3 true) "/api/interface/list_menu" 2 (world rt))
     = Rejected (AxiosError "connect ECONNREFUSED")
  /\ fst (getInterfaceList (Demo.env 3 true) 2 rt)
     <> Rejected (AxiosError "connect ECONNREFUSED").
Proof.
  cbv zeta. repeat split; try reflexivity; vm_compute; discriminate.
Qed.

Lemma preload_runs_in_rounds_witness :
  exists tr : list CallEvent,
    schedule (snd (preloadInterfaceData (Demo.env 10 true) 1 (Demo.boot [] 0)))
    = tr
    /\ Rounds [[1; 2; 3; 4; 5]; [6]] tr
    /\ rounds tr = 2%nat.
Proof.
  destruct (preload_runs_in_rounds (Demo.env 10 true) 1 (Demo.boot [] 0)
              Demo.project eq_refl)
    as (tr & _ & Hs & Hrounds & _ & _ & _ & Hcount & _).
  exists tr. split; [exact Hs|]. split; [exact Hrounds | exact Hcount].
Defined.

(** C5 as stated fails for [batchGetGroupInfo]: two identifiers make one
    chunk of at most five, hence one round in which both calls are started
    before either settles; the code makes the second call after the first
    has settled, in two rounds. *)
Lemma batch_is_not_chunked :
  let tr := schedule (snd (batchGetGroupInfo (Demo.env 10 true) [1; 2]
                             (Demo.boot [] 0))) in
  tr = [Started 1; Settled 1; Started 2; Settled 2]
  /\ chunks 5 [1; 2] = [[1; 2]]
  /\ ~ Rounds (chunks 5 [1; 2]) tr
  /\ rounds tr <> ceil_div 2 5.
Proof.
  cbv zeta. split; [reflexivity|]. split; [reflexivity|]. split.
  - vm_compute. intros H. inversion H; discriminate.
  - vm_compute. discriminate.
Qed.

Lemma preload_never_fails_witness :
  console (snd (preloadInterfaceData (Demo.env 3 true) 2 (Demo.boot [] 0)))
  = [NetworkError "connect ECONNREFUSED"; ListFailed "connect ECONNREFUSED";
     PreloadFailed "获取接口列表时发生未知错误"]
  /\ schedule (snd (preloadInterfaceData (Demo.env 3 true) 2 (Demo.boot [] 0)))
     = [].
Proof.
  pose proof (preload_never_fails (Demo.env 3 true) 2 (Demo.boot [] 0)) as H.
  cbv zeta in H. destruct H as (_ & Hlist & _).
  destruct (Hlist (PlainError "获取接口列表时发生未知错误")
                  (snd (getInterfaceList (Demo.env 3 true) 2 (Demo.boot [] 0)))
                  eq_refl) as (Hs & _ & _ & Hc).
  split; [exact Hc | exact Hs].
Defined.

(** C6 as stated fails: the listing of project 2 fails, and the preload
    does not; it fails exactly when the listing does in no world where
    a listing can fail. *)
Lemma preload_swallows_listing_failure :
  let rt := Demo.boot [] 0 in
  fst (getInterfaceList (Demo.env 3 true) 2 rt)
    = Rejected (PlainError "获取接口列表时发生未知错误")
  /\ fst (preloadInterfaceData (Demo.env 3 true) 2 rt) = Resolved tt
  /\ ~ ((exists e, fst (preloadInterfaceData (Demo.env 3 true) 2 rt)
                   = Rejected e)
        <-> (exists e, fst (getInterfaceList (Demo.env 3 true) 2 rt)
                       = Rejected e)).
Proof.
  cbv zeta. split; [reflexivity|]. split; [reflexivity|].
  intros [_ H]. destruct H as [e He]; [eexists; reflexivity|].
  vm_compute in He. discriminate.
Qed.

(** * Further properties of the code *)

(** ** The cache store *)

Module CacheMore.
Import Cache CacheFacts.

Lemma map_get_set_other (s : Store) (k k' : string) (e : CacheEntry) :
  k <> k' -> map_get (map_set s k e) k' = map_get s k'.
Proof.
  intros Hne. induction s as [|[k0 e0] s IH]; simpl.
  - destruct (String.eqb_spec k k'); [contradiction | reflexivity].
  - destruct (String.eqb_spec k0 k) as [->|Hk]; simpl.
    + destruct (String.eqb_spec k k'); [contradiction | reflexivity].
    + now rewrite IH.
Qed.

Lemma length_map_set_present (s : Store) (k : string) (e : CacheEntry) :
  In k (keys s) -> List.length (map_set s k e) = List.length s.
Proof.
  induction s as [|[k0 e0] s IH]; simpl; [tauto|].
  destruct (String.eqb_spec k0 k) as [->|Hk]; simpl; [reflexivity|].
  intros [H|H]; [contradiction | now rewrite IH].
Qed.

Lemma map_get_in (s : Store) (k : string) (e : CacheEntry) :
  map_get s k = Some e -> In (k, e) s.
Proof.
  induction s as [|[k0 e0] s IH]; simpl; [discriminate|].
  destruct (String.eqb_spec k0 k) as [->|Hk].
  - intros [= ->]. now left.
  - intros H. right. auto.
Qed.

Lemma in_map_get (s : Store) (k : string) (e : CacheEntry) :
  NoDup (keys s) -> In (k, e) s -> map_get s k = Some e.
Proof.
  induction s as [|[k0 e0] s IH]; simpl; [tauto|].
  intros Hnd [H|H]; inversion Hnd as [|? ? Hnot Hnd']; subst.
  - injection H as -> ->. now rewrite String.eqb_refl.
  - destruct (String.eqb_spec k0 k) as [->|Hk]; [|auto].
    exfalso. apply Hnot. change k with (fst (k, e)). now apply in_map.
Qed.

Lemma nodup_filter (f : string * CacheEntry -> bool) (s : Store) :
  NoDup (keys s) -> NoDup (keys (filter f s)).
Proof.
  induction s as [|x s IH]; simpl; [auto|].
  intros Hnd. inversion Hnd as [|? ? Hnot Hnd']; subst.
  destruct (f x); simpl; auto. constructor; auto.
  intros Hin. apply Hnot. unfold keys in *. rewrite in_map_iff in *.
  destruct Hin as [y [Hy Hin]]. apply filter_In in Hin. exists y. tauto.
Qed.

(** What [get] leaves in the store when it serves a value. *)
Lemma get_hit (c : Settings) (now : Z) (s : Store) (k : string) :
  not_null (fst (get c now s k)) = true ->
  enabled c = true
  /\ snd (get c now s k) = s
  /\ exists e, map_get s k = Some e /\ data e = fst (get c now s k)
               /\ now < expireAt e.
Proof.
  unfold get. destruct (enabled c); simpl; [|discriminate].
  destruct (map_get s k) as [e|]; simpl; [|discriminate].
  rewrite Z.geb_leb. destruct (Z.leb_spec (expireAt e) now); simpl;
    [discriminate|].
  intros _. repeat split. exists e. auto.
Qed.


(** X1.  A [get] that returns something other than [null] returns the
    data of the entry stored under the key, that entry has not reached its
    expiry time, caching is enabled, and the store is left as it was. *)
Theorem get_serves_live_entries_only (c : Settings) (now : Z) (s : Store)
  (k : string) (v : JsValue) :
  fst (get c now s k) = v ->
  not_null v = true ->
  enabled c = true
  /\ snd (get c now s k) = s
  /\ exists e, map_get s k = Some e /\ data e = v /\ now < expireAt e.
Proof.
  intros Hfst Hv.
  rewrite <- Hfst in Hv. destruct (get_hit c now s k Hv) as (Hen & Hs & e & He).
  rewrite Hfst in He. split; [exact Hen|]. split; [exact Hs|]. now exists e.
Qed.

Lemma get_serves_live_entries_only_witness :
  exists e, map_get [("k", Demo.entry (JsNumber 42) 0)] "k" = Some e
            /\ data e = JsNumber 42 /\ 999 < expireAt e.
Proof.
  apply (get_serves_live_entries_only (Demo.settings 2 true) 999
           [("k", Demo.entry (JsNumber 42) 0)] "k" (JsNumber 42));
    reflexivity.
Defined.

(** X2.  With caching disabled the store of a new cache stays empty
    whatever is done with it, and every [get] answers [null]. *)
Theorem disabled_cache_stays_empty (c : Settings) (ops : list (Z * Op))
  (now : Z) (k : string) :
  enabled c = false ->
  run c ops = [] /\ fst (get c now (run c ops) k) = JsNull.
Proof.
  intros Hoff.
  assert (Hrun : forall l s, s = [] -> fold_left (step c) l s = []).
  { induction l as [|[t op] l IH]; intros s ->; [reflexivity|].
    simpl. apply IH. unfold step. simpl.
    destruct op; unfold get, set; simpl; try rewrite Hoff; reflexivity. }
  split.
  - now apply Hrun.
  - unfold get. now rewrite Hoff.
Qed.

Lemma disabled_cache_stays_empty_witness :
  run (Demo.settings 2 false)
      [(0, OpSet "a" (JsNumber 1)); (1, OpGet "a"); (2, OpSet "b" JsNull)] = []
  /\ fst (get (Demo.settings 2 false) 3
            (run (Demo.settings 2 false)
               [(0, OpSet "a" (JsNumber 1)); (1, OpGet "a");
                (2, OpSet "b" JsNull)]) "a") = JsNull.
Proof.
  apply (disabled_cache_stays_empty (Demo.settings 2 false)
           [(0, OpSet "a" (JsNumber 1)); (1, OpGet "a"); (2, OpSet "b" JsNull)]
           3 "a").
  reflexivity.
Defined.

(** X3.  [delete] answers [true] exactly when the key is in the store;
    afterwards the key is gone, so a [get] of it is a miss at any time,
    and every other key finds what it found before. *)
Theorem delete_removes_its_key_only (s : Store) (k : string) :
  (fst (delete s k) = true <-> In k (keys s))
  /\ map_get (snd (delete s k)) k = None
  /\ (forall c now, get c now (snd (delete s k)) k = (JsNull, snd (delete s k)))
  /\ (forall k', k' <> k -> map_get (snd (delete s k)) k' = map_get s k')
  /\ (fst (delete s k) = false -> snd (delete s k) = s).
Proof.
  unfold delete, map_has. simpl.
  pose proof (map_get_none s k) as Hnone.
  split; [|split; [|split; [|split]]].
  - destruct (map_get s k) as [e|] eqn:E.
    + split; [intros _|reflexivity].
      destruct (in_dec string_dec k (keys s)) as [H|H]; [exact H|].
      apply Hnone in H. discriminate.
    + split; [discriminate|]. intros H. apply Hnone in H; [contradiction|].
      reflexivity.
  - apply map_get_delete_same.
  - intros c now. unfold get. rewrite map_get_delete_same.
    destruct (negb (enabled c)); reflexivity.
  - intros k' Hne. apply map_get_delete_other. congruence.
  - destruct (map_get s k) as [e|]; [discriminate|]. intros _.
    apply map_delete_absent. now apply Hnone.
Qed.

Lemma delete_removes_its_key_only_witness :
  map_get (snd (delete [("a", Demo.entry JsNull 0); ("b", Demo.entry JsNull 1)]
                  "a")) "b"
  = map_get [("a", Demo.entry JsNull 0); ("b", Demo.entry JsNull 1)] "b".
Proof.
  apply (delete_removes_its_key_only
           [("a", Demo.entry JsNull 0); ("b", Demo.entry JsNull 1)] "a").
  discriminate.
Defined.

(** X4.  [getStats] sweeps before it counts: the store it leaves holds
    exactly the entries that have not reached their expiry time, in the
    order they had; the size and the keys it reports are those of that
    store, and the settings are those of the cache.  Asking again at the
    same time changes nothing. *)
Theorem getStats_counts_live_entries (c : Settings) (now : Z) (s : Store) :
  let stats := fst (getStats c now s) in
  let s' := snd (getStats c now s) in
  s' = filter (fun ke => now <? expireAt (snd ke)) s
  /\ (forall k e, In (k, e) s' <-> In (k, e) s /\ now < expireAt e)
  /\ stats_size stats = Z.of_nat (List.length s')
  /\ stats_keys stats = keys s'
  /\ List.length (stats_keys stats) = List.length s'
  /\ stats_size stats <= size s
  /\ (stats_maxSize stats, stats_ttl stats, stats_enabled stats)
     = (maxSize c, ttl c, enabled c)
  /\ getStats c now s' = (stats, s').
Proof.
  cbv zeta. unfold getStats. cbn [fst snd stats_size stats_keys stats_maxSize
                                  stats_ttl stats_enabled].
  assert (E : cleanup now s = filter (fun ke => now <? expireAt (snd ke)) s).
  { unfold cleanup. apply filter_ext. intros ke. rewrite Z.geb_leb.
    destruct (Z.leb_spec (expireAt (snd ke)) now);
      destruct (Z.ltb_spec now (expireAt (snd ke))); simpl; auto; lia. }
  assert (Hidem : cleanup now (cleanup now s) = cleanup now s).
  { clear E. unfold cleanup. induction s as [|x s IH]; simpl; [reflexivity|].
    destruct (negb (now >=? expireAt (snd x))) eqn:Ex; simpl; [|exact IH].
    rewrite Ex. now f_equal. }
  split; [exact E|]. split; [|split; [|split; [|split; [|split; [|split]]]]].
  - intros k e. rewrite E, filter_In. simpl. rewrite Z.ltb_lt. tauto.
  - reflexivity.
  - reflexivity.
  - unfold keys. apply length_map.
  - unfold size, cleanup. pose proof (filter_length_le
      (fun ke : string * CacheEntry => negb (now >=? expireAt (snd ke))) s).
    lia.
  - reflexivity.
  - now rewrite Hidem.
Qed.

(** X5.  Sweeping does not change what is read afterwards: a [get] at a
    time not before the sweep answers the same with and without it. *)
Theorem sweep_is_invisible_to_reads (c : Settings) (now now' : Z) (s : Store)
  (k : string) :
  NoDup (keys s) ->
  now' <= now ->
  fst (get c now (snd (getStats c now' s)) k) = fst (get c now s k).
Proof.
  intros Hnd Hle. unfold getStats, get. cbn [snd].
  destruct (negb (enabled c)); [reflexivity|].
  destruct (map_get s k) as [e|] eqn:E.
  - destruct (Z.leb_spec (expireAt e) now') as [Hdead|Hlive].
    + assert (Hgone : map_get (cleanup now' s) k = None).
      { apply map_get_none. intros Hin. unfold keys in Hin.
        apply in_map_iff in Hin. destruct Hin as [[k0 e0] [Hk Hin]].
        simpl in Hk. subst k0. unfold cleanup in Hin. apply filter_In in Hin.
        destruct Hin as [Hin Hlive].
        rewrite (in_map_get s k e0 Hnd Hin) in E. injection E as ->.
        simpl in Hlive. rewrite Z.geb_leb in Hlive.
        destruct (Z.leb_spec (expireAt e) now'); [discriminate | lia]. }
      rewrite Hgone. rewrite Z.geb_leb.
      destruct (Z.leb_spec (expireAt e) now); [reflexivity | lia].
    + assert (Hkept : map_get (cleanup now' s) k = Some e).
      { apply in_map_get; [now apply nodup_filter|].
        unfold cleanup. apply filter_In. split; [now apply map_get_in|].
        simpl. rewrite Z.geb_leb.
        destruct (Z.leb_spec (expireAt e) now'); [lia | reflexivity]. }
      rewrite Hkept. destruct (now >=? expireAt e); reflexivity.
  - assert (Hgone : map_get (cleanup now' s) k = None).
    { apply map_get_none. intros Hin. apply keys_cleanup in Hin.
      apply map_get_none in E. contradiction. }
    now rewrite Hgone.
Qed.

Lemma sweep_is_invisible_to_reads_witness :
  fst (get (Demo.settings 5 true) 1500
         (snd (getStats (Demo.settings 5 true) 1200
                 [("a", Demo.entry (JsNumber 1) 0);
                  ("b", Demo.entry (JsNumber 2) 600)])) "b")
  = fst (get (Demo.settings 5 true) 1500
           [("a", Demo.entry (JsNumber 1) 0);
            ("b", Demo.entry (JsNumber 2) 600)] "b").
Proof.
  apply (sweep_is_invisible_to_reads (Demo.settings 5 true) 1500 1200
           [("a", Demo.entry (JsNumber 1) 0);
            ("b", Demo.entry (JsNumber 2) 600)] "b").
  - repeat constructor; simpl; intuition discriminate.
  - lia.
Defined.

(** X6.  Replacing the value of a key in a full store still evicts: the
    oldest entry is removed although no room is needed.  When the oldest
    entry is another key, the store is left one entry short of its
    capacity; when it is the key itself, the key moves to the end of the
    insertion order. *)
Theorem set_present_key_in_full_store (c : Settings) (now : Z) (s : Store)
  (k : string) (v : JsValue) (ke : string * CacheEntry) :
  enabled c = true ->
  size s = maxSize c ->
  NoDup (keys s) ->
  In k (keys s) ->
  oldest s = Some ke ->
  truthy (fst ke) = true ->
  let entry := {| data := v; timestamp := now; expireAt := now + ttl c |} in
  map_get (set c now s k v) k = Some entry
  /\ (fst ke <> k ->
      size (set c now s k v) = maxSize c - 1
      /\ map_get (set c now s k v) (fst ke) = None)
  /\ (fst ke = k ->
      set c now s k v = map_delete s k ++ [(k, entry)]
      /\ size (set c now s k v) = maxSize c).
Proof.
  intros Hen Hfull Hnd Hin Hold Hkey entry.
  assert (Hset : set c now s k v = map_set (map_delete s (fst ke)) k entry).
  { unfold set. rewrite Hen. simpl.
    rewrite (evict_oldest c s ke); [reflexivity | lia | assumption..]. }
  pose proof (length_delete_nodup s ke Hnd (oldest_in _ _ Hold)) as Hlen.
  rewrite Hset. split; [apply map_get_set_same|]. split.
  - intros Hne. split.
    + unfold size in *. rewrite length_map_set_present; [lia|].
      unfold keys, map_delete. apply in_map_iff in Hin.
      destruct Hin as [x [Hx Hin]]. apply in_map_iff. exists x.
      split; [exact Hx|]. apply filter_In. split; [exact Hin|].
      rewrite Hx. destruct (String.eqb_spec k (fst ke)); [congruence|reflexivity].
    + rewrite map_get_set_other by congruence. apply map_get_delete_same.
  - intros Heq. rewrite Heq in *. split.
    + apply map_set_fresh. apply map_get_delete_same.
    + rewrite map_set_fresh by apply map_get_delete_same.
      unfold size in *. rewrite length_app. cbn [List.length]. lia.
Qed.

Lemma set_present_key_in_full_store_witness :
  let c := Demo.settings 2 true in
  let s := [("a", Demo.entry (JsNumber 1) 0); ("b", Demo.entry (JsNumber 2) 1)] in
  size (set c 5 s "b" (JsNumber 3)) = maxSize c - 1
  /\ map_get (set c 5 s "b" (JsNumber 3)) "a" = None.
Proof.
  cbv zeta.
  apply (set_present_key_in_full_store (Demo.settings 2 true) 5
           [("a", Demo.entry (JsNumber 1) 0); ("b", Demo.entry (JsNumber 2) 1)]
           "b" (JsNumber 3) ("a", Demo.entry (JsNumber 1) 0)).
  - reflexivity.
  - reflexivity.
  - repeat constructor; simpl; intuition discriminate.
  - simpl. auto.
  - reflexivity.
  - reflexivity.
  - discriminate.
Defined.

(** X7.  A [set] touches two keys at most: its own, and the key the scan
    of [evictIfNeeded] singles out.  Every other key finds the entry it
    found before, and the size of the store changes by one at most. *)
Theorem set_touches_two_keys_at_most (c : Settings) (now : Z) (s : Store)
  (k : string) (v : JsValue) :
  (forall k', k' <> k -> k' <> fst (scan s) ->
     map_get (set c now s k v) k' = map_get s k')
  /\ (NoDup (keys s) -> size s - 1 <= size (set c now s k v) <= size s + 1).
Proof.
  unfold set. destruct (negb (enabled c)).
  { split; [reflexivity | lia]. }
  simpl. split.
  - intros k' Hk Hscan. rewrite map_get_set_other by congruence.
    unfold evictIfNeeded. destruct (size s >=? maxSize c); [|reflexivity].
    destruct (truthy (fst (scan s))); [|reflexivity].
    apply map_get_delete_other. congruence.
  - intros Hnd.
    set (e := {| data := v; timestamp := now; expireAt := now + ttl c |}).
    assert (Hev : size s - 1 <= size (evictIfNeeded c s) <= size s).
    { unfold evictIfNeeded. destruct (size s >=? maxSize c); [|lia].
      destruct (truthy (fst (scan s))); [|lia].
      destruct s as [|x s']; [unfold size; simpl; lia|].
      destruct (oldest_some (x :: s')) as [ke Hke]; [discriminate|].
      rewrite scan_oldest, Hke. simpl fst.
      pose proof (length_delete_nodup _ ke Hnd (oldest_in _ _ Hke)).
      unfold size. lia. }
    pose proof (length_map_set (evictIfNeeded c s) k e) as Hup.
    assert (Hlow : (List.length (evictIfNeeded c s)
                    <= List.length (map_set (evictIfNeeded c s) k e))%nat).
    { generalize (evictIfNeeded c s). intros l.
      induction l as [|[k0 e0] l IH]; simpl; [lia|].
      destruct (String.eqb k0 k); simpl; lia. }
    unfold size in *. lia.
Qed.

Lemma set_touches_two_keys_at_most_witness :
  let c := Demo.settings 2 true in
  let s := [("a", Demo.entry (JsNumber 1) 0); ("b", Demo.entry (JsNumber 2) 1)] in
  map_get (set c 5 s "c" (JsNumber 3)) "b" = map_get s "b".
Proof.
  cbv zeta.
  apply (set_touches_two_keys_at_most (Demo.settings 2 true) 5
           [("a", Demo.entry (JsNumber 1) 0); ("b", Demo.entry (JsNumber 2) 1)]
           "c" (JsNumber 3)); discriminate.
Defined.

End CacheMore.

(** ** The cache in the running program *)

Section Capacity.

Context {W : Type} (env : Env W).

Let c := config env.

Lemma keeps_ret {A : Type} (a : A) : keeps c (ret (W := W) a).
Proof. intros rt H. exact H. Qed.

Lemma keeps_throw {A : Type} (e : JsError) : keeps c (throw (W := W) (A := A) e).
Proof. intros rt H. exact H. Qed.

Lemma keeps_lift {A : Type} (o : Outcome A) : keeps c (lift (W := W) o).
Proof. intros rt H. exact H. Qed.

Lemma keeps_send (r : Request) : keeps c (send (W := W) r).
Proof. intros rt H. exact H. Qed.

Lemma keeps_note (ev : CallEvent) : keeps c (note (W := W) ev).
Proof. intros rt H. exact H. Qed.

Lemma keeps_log (l : LogLine) : keeps c (log (W := W) l).
Proof. intros rt H. exact H. Qed.

Lemma keeps_receive (url : string) (param : Z) : keeps c (receive env url param).
Proof.
  intros rt H. unfold receive.
  destruct (http env url param (world rt)) as [[response|error] w]; exact H.
Qed.

Lemma keeps_bind {A B : Type} (m : M A) (k : A -> @M W B) :
  keeps c m -> (forall a, keeps c (k a)) -> keeps c (bind m k).
Proof.
  intros Hm Hk rt H. unfold bind. specialize (Hm rt H).
  destruct (m rt) as [[a|e] rt']; cbn [snd] in *; [now apply Hk | exact Hm].
Qed.

Lemma keeps_try_catch {A : Type} (m : M A) (h : JsError -> @M W A) :
  keeps c m -> (forall e, keeps c (h e)) -> keeps c (try_catch m h).
Proof.
  intros Hm Hh rt H. unfold try_catch. specialize (Hm rt H).
  destruct (m rt) as [[a|e] rt']; cbn [snd] in *; [exact Hm | now apply Hh].
Qed.

Lemma keeps_observed {A : Type} (id : Z) (m : @M W A) :
  keeps c m -> keeps c (observed id m).
Proof.
  intros Hm rt H. unfold observed. specialize (Hm rt H).
  destruct (m rt) as [o rt']. exact Hm.
Qed.

Lemma keeps_cache_get (key : string) : keeps c (cache_get env key).
Proof.
  intros rt H. unfold cache_get. fold c.
  pose proof (CacheFacts.get_store c (clock env (world rt)) (cache rt) key) as Hs.
  destruct (Cache.get c (clock env (world rt)) (cache rt) key) as [v s].
  cbn [snd cache with_cache] in *. destruct Hs as [-> | ->]; [exact H|].
  eapply CacheSpec.within_shrink; [exact H | apply CacheFacts.length_map_delete |].
  intros x. apply CacheFacts.keys_map_delete.
Qed.

Lemma keeps_cache_set (key : string) (d : JsValue) :
  1 <= Cache.maxSize c -> Cache.truthy key = true ->
  keeps c (cache_set env key d).
Proof.
  intros Hpos Hkey rt H. unfold cache_set. cbn [snd cache with_cache].
  now apply CacheSpec.within_set.
Qed.

Lemma keeps_cache_delete (key : string) : keeps c (cache_delete (W := W) key).
Proof.
  intros rt H. unfold cache_delete, Cache.delete. cbn [snd cache with_cache].
  eapply CacheSpec.within_shrink; [exact H | apply CacheFacts.length_map_delete |].
  intros x. apply CacheFacts.keys_map_delete.
Qed.

Lemma generateKey_truthy (method : string) (args : list JsValue) :
  Cache.truthy (generateKey env method args) = true.
Proof. unfold generateKey. destruct method; reflexivity. Qed.

(** X8.  A key built by [generateKey] is never the empty string, and the
    keys of [getGroupInfo] never coincide with those of [getInterfaceList],
    whatever [JSON.stringify] makes of the arguments: an interface detail
    is never served for a listing, nor a listing for a detail. *)
Theorem generated_keys_are_apart (method : string) (args args' : list JsValue) :
  Cache.truthy (generateKey env method args) = true
  /\ generateKey env method args <> ""
  /\ generateKey env "getGroupInfo" args
     <> generateKey env "getInterfaceList" args'.
Proof.
  split; [apply generateKey_truthy|]. split.
  - unfold generateKey. destruct method; discriminate.
  - unfold generateKey. cbn. intros H. inversion H.
Qed.

Lemma keeps_getInterfaceList (projectId : Z) :
  1 <= Cache.maxSize c -> keeps c (getInterfaceList env projectId).
Proof.
  intros Hpos. unfold getInterfaceList.
  apply keeps_bind; [apply keeps_cache_get|]. intros cached.
  destruct (not_null cached); [apply keeps_ret|].
  apply keeps_try_catch.
  - apply keeps_bind; [apply keeps_send|]. intros _.
    apply keeps_bind; [apply keeps_receive|]. intros response.
    apply keeps_bind; [apply keeps_lift|]. intros result.
    apply keeps_bind; [|intros _; apply keeps_ret].
    apply keeps_cache_set; [exact Hpos | apply generateKey_truthy].
  - intros e. destruct e;
      (apply keeps_bind; [apply keeps_log | intros _; apply keeps_throw]).
Qed.

Lemma keeps_getGroupInfo_begin (id : Z) : keeps c (getGroupInfo_begin env id).
Proof.
  unfold getGroupInfo_begin.
  apply keeps_bind; [apply keeps_note|]. intros _.
  apply keeps_bind; [apply keeps_cache_get|]. intros cached.
  destruct (not_null cached); [apply keeps_ret|].
  apply keeps_bind; [apply keeps_send | intros _; apply keeps_ret].
Qed.

Lemma keeps_getGroupInfo_end (id : Z) (t : Task) :
  1 <= Cache.maxSize c ->
  (forall key, t = InFlight key -> Cache.truthy key = true) ->
  keeps c (getGroupInfo_end env id t).
Proof.
  intros Hpos Hkey. unfold getGroupInfo_end. apply keeps_observed.
  destruct t as [cached|key]; [apply keeps_ret|].
  apply keeps_try_catch.
  - apply keeps_bind; [apply keeps_receive|]. intros response.
    apply keeps_bind; [apply keeps_lift|]. intros result.
    apply keeps_bind; [|intros _; apply keeps_ret].
    apply keeps_cache_set; [exact Hpos | now apply Hkey].
  - intros e. destruct e;
      (apply keeps_bind; [apply keeps_log | intros _; apply keeps_throw]).
Qed.

Lemma begin_task_key (id : Z) (rt : Runtime) (t : Task) (rt' : Runtime) :
  getGroupInfo_begin env id rt = (Resolved t, rt') ->
  forall key, t = InFlight key -> Cache.truthy key = true.
Proof.
  rewrite getGroupInfo_begin_run. cbv zeta.
  destruct (not_null _); intros [= <- _] key; [discriminate|].
  intros [= <-]. apply generateKey_truthy.
Qed.

Lemma keeps_getGroupInfo (id : Z) :
  1 <= Cache.maxSize c -> keeps c (getGroupInfo env id).
Proof.
  intros Hpos rt H. unfold getGroupInfo, bind.
  pose proof (keeps_getGroupInfo_begin id rt H) as Hb.
  pose proof (begin_task_key id rt) as Hk.
  destruct (getGroupInfo_begin env id rt) as [[t|e] rt1]; cbn [snd] in *;
    [|exact Hb].
  apply keeps_getGroupInfo_end; auto. exact (Hk t rt1 eq_refl).
Qed.

Lemma keeps_batch_loop (ids : list Z) :
  1 <= Cache.maxSize c ->
  forall results errors, keeps c (batch_loop env ids results errors).
Proof.
  intros Hpos. induction ids as [|id rest IH]; intros results errors.
  - apply keeps_ret.
  - cbn [batch_loop]. apply keeps_bind; [|intros acc; apply IH].
    apply keeps_try_catch.
    + apply keeps_bind; [now apply keeps_getGroupInfo|].
      intros a. apply keeps_ret.
    + intros e. apply keeps_bind; [apply keeps_log|]. intros _. apply keeps_ret.
Qed.

Lemma keeps_warn_each (errors : list (Z * string)) :
  keeps c (warn_each (W := W) errors).
Proof.
  induction errors as [|[id error] rest IH]; [apply keeps_ret|].
  cbn [warn_each]. apply keeps_bind; [apply keeps_log | intros _; exact IH].
Qed.

Lemma keeps_batchGetGroupInfo (ids : list Z) :
  1 <= Cache.maxSize c -> keeps c (batchGetGroupInfo env ids).
Proof.
  intros Hpos. unfold batchGetGroupInfo.
  apply keeps_bind; [now apply keeps_batch_loop|]. intros acc.
  apply keeps_bind; [|intros _; apply keeps_ret].
  destruct (0 <? _)%nat; [|apply keeps_ret].
  apply keeps_bind; [apply keeps_log | intros _; apply keeps_warn_each].
Qed.

(** The promises of a chunk, all with keys of [generateKey]. *)
Lemma start_all_within (batch : list Z) (rt : Runtime) :
  within c (cache rt) ->
  within c (cache (snd (start_all env batch rt)))
  /\ forall ts, fst (start_all env batch rt) = Resolved ts ->
       Forall (fun it => forall key, snd it = InFlight key ->
                                     Cache.truthy key = true) ts.
Proof.
  revert rt. induction batch as [|id rest IH]; intros rt H.
  - cbn. split; [exact H|]. intros ts [= <-]. constructor.
  - cbn [start_all]. cbv beta delta [bind ret].
    pose proof (keeps_getGroupInfo_begin id rt H) as Hb.
    pose proof (begin_task_key id rt) as Hk.
    destruct (getGroupInfo_begin env id rt) as [[t|e] rt1]; cbn [fst snd] in *.
    + destruct (IH rt1 Hb) as [Hrest Hts].
      destruct (start_all env rest rt1) as [[ts|e] rt2]; cbn [fst snd] in *.
      * split; [exact Hrest|]. intros ts' [= Heq]. subst ts'.
        constructor; [|now apply Hts].
        cbn. exact (Hk t rt1 eq_refl).
      * split; [exact Hrest|]. discriminate.
    + split; [exact Hb|]. discriminate.
Qed.

Lemma remove_nth_forall {A : Type} (P : A -> Prop) (l : list A) (i : nat) :
  Forall P l -> Forall P (remove_nth i l).
Proof.
  revert i. induction l as [|x l IH]; intros i H; [destruct i; constructor|].
  inversion H; subst. destruct i; cbn; [assumption|]. constructor; auto.
Qed.

Lemma keeps_promise_all (n : nat) :
  1 <= Cache.maxSize c ->
  forall promises,
    Forall (fun it => forall key, snd it = InFlight key ->
                                  Cache.truthy key = true) promises ->
    keeps c (promise_all env n promises).
Proof.
  intros Hpos. induction n as [|n IH]; intros promises Hok; [apply keeps_ret|].
  intros rt H. cbn [promise_all].
  destruct (nth_error promises _) as [it|] eqn:E; [|exact H].
  refine (keeps_bind _ _ _ _ rt H).
  - unfold settle. apply keeps_try_catch.
    + apply keeps_getGroupInfo_end; [exact Hpos|].
      rewrite Forall_forall in Hok. apply Hok. eapply nth_error_In; eauto.
    + intros e. apply keeps_bind; [apply keeps_log | intros _; apply keeps_ret].
  - intros v. apply keeps_bind; [|intros vs; apply keeps_ret].
    apply IH. now apply remove_nth_forall.
Qed.

Lemma keeps_preload_round (i : nat) (ids : list Z) :
  1 <= Cache.maxSize c -> keeps c (preload_round env i ids).
Proof.
  intros Hpos rt H. unfold preload_round. cbv beta delta [bind ret].
  destruct (start_all_within (slice i (i + batchSize) ids) rt H) as [Hs Hts].
  destruct (start_all env _ rt) as [[ts|e] rt1]; cbn [fst snd] in *;
    [|exact Hs].
  pose proof (keeps_promise_all (List.length ts) Hpos ts (Hts ts eq_refl) rt1 Hs)
    as Hall.
  destruct (promise_all env _ ts rt1) as [[vs|e] rt2]; exact Hall.
Qed.

Lemma keeps_preload_loop (ids : list Z) (fuel : nat) :
  1 <= Cache.maxSize c -> forall i, keeps c (preload_loop env fuel i ids).
Proof.
  intros Hpos. induction fuel as [|fuel IH]; intros i; [apply keeps_ret|].
  cbn [preload_loop]. destruct (i <? _)%nat; [|apply keeps_ret].
  apply keeps_bind; [now apply keeps_preload_round | intros _; apply IH].
Qed.

Lemma keeps_preloadInterfaceData (projectId : Z) :
  1 <= Cache.maxSize c -> keeps c (preloadInterfaceData env projectId).
Proof.
  intros Hpos. unfold preloadInterfaceData. apply keeps_try_catch.
  - apply keeps_bind; [now apply keeps_getInterfaceList|]. intros interfaces.
    apply keeps_bind; [|intros ids; now apply keeps_preload_loop].
    destruct interfaces; first [apply keeps_ret | apply keeps_throw].
  - intros e. apply keeps_bind; [apply keeps_log | intros _; apply keeps_ret].
Qed.

Lemma keeps_withCache (method : string)
  (fn : list JsValue -> W -> Outcome JsValue * W) (args : list JsValue) :
  1 <= Cache.maxSize c -> keeps c (withCache env method fn args).
Proof.
  intros Hpos. unfold withCache.
  apply keeps_bind; [apply keeps_cache_get|]. intros cached.
  destruct (not_null cached); [apply keeps_ret|].
  apply keeps_bind.
  - unfold call. apply keeps_bind; [apply keeps_send|]. intros _ rt H.
    destruct (fn args (world rt)). exact H.
  - intros result. apply keeps_bind; [|intros _; apply keeps_ret].
    apply keeps_cache_set; [exact Hpos | apply generateKey_truthy].
Qed.

(** X9.  In a process whose cache has a capacity of at least one, the
    fetchers, the batch, the preload and any wrapped function store under
    keys of [generateKey] only; so when the store is within its capacity
    and holds no entry under the empty string, it is still so after any of
    them, whatever the origin answers and in whatever order. *)
Theorem program_keeps_cache_within (rt : Runtime) :
  1 <= Cache.maxSize (config env) ->
  within (config env) (cache rt) ->
  (forall projectId,
     within (config env) (cache (snd (getInterfaceList env projectId rt))))
  /\ (forall id, within (config env) (cache (snd (getGroupInfo env id rt))))
  /\ (forall ids,
        within (config env) (cache (snd (batchGetGroupInfo env ids rt))))
  /\ (forall projectId,
        within (config env) (cache (snd (preloadInterfaceData env projectId rt))))
  /\ (forall method fn args,
        within (config env) (cache (snd (withCache env method fn args rt))))
  /\ (forall projectId,
        within (config env) (cache (snd (clearProjectCache env projectId rt))))
  /\ (forall id,
        within (config env) (cache (snd (clearInterfaceCache env id rt)))).
Proof.
  intros Hpos H. change (config env) with c in Hpos, H |- *.
  split; [intros; now apply keeps_getInterfaceList|].
  split; [intros; now apply keeps_getGroupInfo|].
  split; [intros; now apply keeps_batchGetGroupInfo|].
  split; [intros; now apply keeps_preloadInterfaceData|].
  split; [intros; now apply keeps_withCache|].
  split; intros; unfold clearProjectCache, clearInterfaceCache;
    (refine (keeps_bind _ _ _ _ rt H);
     [apply keeps_cache_delete | intros _; apply keeps_ret]).
Qed.

End Capacity.

Lemma program_keeps_cache_within_witness :
  Cache.size (cache (snd (preloadInterfaceData (Demo.env 3 true) 1
                            (Demo.boot [] 0)))) <= 3.
Proof.
  destruct (program_keeps_cache_within (Demo.env 3 true) (Demo.boot [] 0))
    as (_ & _ & _ & Hpre & _).
  - simpl. lia.
  - split; [unfold Cache.size; simpl; lia | constructor].
  - exact (proj1 (Hpre 1)).
Defined.

(** ** Reading through the cache *)

Section ReadThrough.

Context {W : Type} (env : Env W).

Lemma lookup_same (key : string) (rt rt0 : Runtime) :
  cache rt0 = cache rt -> world rt0 = world rt ->
  lookup env key rt0 = lookup env key rt.
Proof. unfold lookup. now intros -> ->. Qed.

Lemma lookup_hit (key : string) (rt : Runtime) :
  not_null (fst (lookup env key rt)) = true -> snd (lookup env key rt) = cache rt.
Proof. intros H. now destruct (CacheMore.get_hit _ _ _ _ H) as (_ & Hs & _). Qed.

(** A miss stays a miss when the lookup is repeated at once. *)
Lemma get_miss_again (c : Cache.Settings) (now : Z) (s : Cache.Store)
  (k : string) :
  not_null (fst (Cache.get c now s k)) = false ->
  not_null (fst (Cache.get c now (snd (Cache.get c now s k)) k)) = false.
Proof.
  unfold Cache.get. destruct (negb (Cache.enabled c)); [reflexivity|].
  destruct (Cache.map_get s k) as [e|] eqn:E; cbn [fst snd].
  - destruct (now >=? Cache.expireAt e) eqn:Ex; cbn [fst snd].
    + now rewrite CacheFacts.map_get_delete_same.
    + rewrite E, Ex. auto.
  - now rewrite E.
Qed.



Lemma warm_batch_loop (rt : Runtime) (ids : list Z) :
  (forall id, In id ids ->
     not_null (fst (lookup env (generateKey env "getGroupInfo" [JsNumber id])
                      rt)) = true) ->
  forall results errors (rt0 : Runtime),
    cache rt0 = cache rt -> world rt0 = world rt ->
    exists rt',
      batch_loop env ids results errors rt0 =
        (Resolved
           (results ++
            map (fun id => fst (lookup env (generateKey env "getGroupInfo"
                                              [JsNumber id]) rt)) ids,
            errors), rt')
      /\ cache rt' = cache rt /\ world rt' = world rt
      /\ requests rt' = requests rt0 /\ console rt' = console rt0.
Proof.
  induction ids as [|id rest IH]; intros Hhits results errors rt0 Hc Hw.
  - exists rt0. cbn. rewrite app_nil_r. auto.
  - cbn [batch_loop]. cbv beta delta [bind try_catch ret].
    rewrite getGroupInfo_run. cbv zeta.
    rewrite (lookup_same _ rt rt0 Hc Hw).
    rewrite (Hhits id (or_introl eq_refl)). cbn [fst snd].
    match goal with
    | |- context [batch_loop env rest ?r ?e ?st] =>
        destruct (IH (fun i Hi => Hhits i (or_intror Hi)) r e st)
          as (rt' & Hrun & Hc' & Hw' & Hr' & Ho')
    end.
    + cbn [cache]. rewrite lookup_hit by apply Hhits, or_introl, eq_refl.
      reflexivity.
    + exact Hw.
    + exists rt'. rewrite Hrun, <- app_assoc. cbn in *. auto.
Qed.

Lemma warn_each_quiet (errors : list (Z * string)) (rt : @Runtime W) :
  cache (snd (warn_each errors rt)) = cache rt
  /\ world (snd (warn_each errors rt)) = world rt
  /\ requests (snd (warn_each errors rt)) = requests rt.
Proof.
  revert rt. induction errors as [|[id error] rest IH]; intros rt; cbn; auto.
  cbv beta delta [bind log]. cbn [fst snd].
  match goal with
  | |- context [warn_each rest ?st] => destruct (IH st) as (H1 & H2 & H3)
  end.
  now rewrite H1, H2, H3.
Qed.

(** X12.  When every identifier of the batch has a value other than
    [null] in the cache, not yet expired, [batchGetGroupInfo] returns
    these values, in the order of the identifiers, and sends nothing: the
    requests, the world, the store and the console are as before. *)
Theorem batch_is_served_from_warm_cache (ids : list Z) (rt : Runtime) :
  (forall id, In id ids ->
     not_null (fst (lookup env (generateKey env "getGroupInfo" [JsNumber id])
                      rt)) = true) ->
  let done := batchGetGroupInfo env ids rt in
  fst done =
    Resolved (map (fun id => fst (lookup env (generateKey env "getGroupInfo"
                                            [JsNumber id]) rt)) ids)
  /\ requests (snd done) = requests rt
  /\ world (snd done) = world rt
  /\ cache (snd done) = cache rt
  /\ console (snd done) = console rt.
Proof.
  intros Hhits done. subst done.
  destruct (warm_batch_loop rt ids Hhits [] [] rt eq_refl eq_refl)
    as (rt' & Hrun & Hc & Hw & Hr & Ho).
  unfold batchGetGroupInfo. cbv beta delta [bind]. rewrite Hrun.
  cbn. auto.
Qed.

Lemma disabled_batch_loop (ids : list Z) :
  Cache.enabled (config env) = false ->
  forall results errors (rt : Runtime),
    requests (snd (batch_loop env ids results errors rt)) =
      requests rt ++ map (HttpGet "/api/interface/get") ids
    /\ cache (snd (batch_loop env ids results errors rt)) = cache rt.
Proof.
  intros Hoff. induction ids as [|id rest IH]; intros results errors rt.
  - cbn. now rewrite app_nil_r.
  - cbn [batch_loop]. cbv beta delta [bind try_catch ret log].
    rewrite getGroupInfo_run. cbv zeta.
    assert (Hl : forall key, lookup env key rt = (JsNull, cache rt)).
    { intros key. unfold lookup, Cache.get. now rewrite Hoff. }
    rewrite !Hl. cbn [fst snd not_null].
    assert (Hset : forall now s k d, Cache.set (config env) now s k d = s).
    { intros. unfold Cache.set. now rewrite Hoff. }
    destruct (answered _) as [result|e]; [|destruct e];
      cbn [fst snd world cache requests schedule console];
      match goal with
      | |- context [batch_loop env rest ?r ?e ?st] =>
          destruct (IH r e st) as [Hr Hc]
      end;
      rewrite Hr, Hc; cbn; rewrite ?Hset, <- app_assoc; auto.
Qed.

(** X13.  With caching disabled [batchGetGroupInfo] asks the origin once
    for every identifier of its input, in order, repeated ones included,
    and stores nothing. *)
Theorem disabled_cache_asks_every_time (ids : list Z) (rt : Runtime) :
  Cache.enabled (config env) = false ->
  requests (snd (batchGetGroupInfo env ids rt)) =
    requests rt ++ map (HttpGet "/api/interface/get") ids
  /\ cache (snd (batchGetGroupInfo env ids rt)) = cache rt.
Proof.
  intros Hoff. destruct (disabled_batch_loop ids Hoff [] [] rt) as [Hr Hc].
  unfold batchGetGroupInfo. cbv beta delta [bind ret log].
  destruct (batch_loop env ids [] [] rt) as [[acc|e] rt1]; cbn [fst snd] in *;
    [|auto].
  destruct (0 <? _)%nat; cbn [fst snd world cache requests schedule console].
  - match goal with
    | |- context [warn_each ?errs ?st] =>
        destruct (warn_each_quiet errs st) as (H1 & _ & H3);
        destruct (warn_each errs st) as [[[]|e] rt2]
    end; cbn in *; rewrite H1, H3; auto.
  - auto.
Qed.

Lemma miss_survives_lookup (key key' : string) (rt rt1 : Runtime) :
  not_null (fst (lookup env key rt)) = false ->
  not_null (fst (lookup env key' rt)) = false ->
  cache rt1 = snd (lookup env key rt) -> world rt1 = world rt ->
  not_null (fst (lookup env key' rt1)) = false.
Proof.
  unfold lookup. intros Hm Hm' -> ->.
  destruct (String.eqb_spec key key') as [<-|Hne];
    [now apply get_miss_again|].
  destruct (CacheFacts.get_store (config env) (clock env (world rt))
              (cache rt) key) as [-> | ->]; [exact Hm'|].
  unfold Cache.get in *. destruct (negb (Cache.enabled (config env)));
    [reflexivity|].
  rewrite CacheFacts.map_get_delete_other by exact Hne.
  destruct (Cache.map_get (cache rt) key') as [e'|]; [|reflexivity].
  destruct (clock env (world rt) >=? Cache.expireAt e'); [reflexivity|].
  exact Hm'.
Qed.

Lemma start_all_misses (batch : list Z) :
  forall rt : Runtime,
  (forall id, In id batch ->
     not_null (fst (lookup env (generateKey env "getGroupInfo" [JsNumber id])
                      rt)) = false) ->
  requests (snd (start_all env batch rt)) =
    requests rt ++ map (HttpGet "/api/interface/get") batch.
Proof.
  induction batch as [|id rest IH]; intros rt Hmiss.
  - cbn. now rewrite app_nil_r.
  - cbn [start_all]. cbv beta delta [bind ret].
    rewrite getGroupInfo_begin_run. cbv zeta.
    rewrite (Hmiss id (or_introl eq_refl)).
    match goal with
    | |- context [start_all env rest ?st] =>
        assert (Hrest : requests (snd (start_all env rest st)) =
                        requests st ++ map (HttpGet "/api/interface/get") rest);
        [apply IH | destruct (start_all env rest st) as [[ts|e] rt2]]
    end.
    + intros id' Hin.
      apply (miss_survives_lookup
               (generateKey env "getGroupInfo" [JsNumber id]) _ rt);
        [apply Hmiss; now left | apply Hmiss; now right
        | reflexivity | reflexivity].
    + cbn [fst snd requests] in *. rewrite Hrest. now rewrite <- app_assoc.
    + cbn [fst snd requests] in *. rewrite Hrest. now rewrite <- app_assoc.
Qed.

(** X14.  The calls of a chunk are made before any answer arrives, so
    nothing is shared between them: when no identifier of the chunk has a
    value in the cache, a request leaves for every one of them, in order,
    and an identifier that occurs several times is requested as many
    times. *)
Theorem chunk_requests_every_occurrence (batch : list Z) (rt : Runtime) :
  (forall id, In id batch ->
     not_null (fst (lookup env (generateKey env "getGroupInfo" [JsNumber id])
                      rt)) = false) ->
  requests (snd (start_all env batch rt)) =
    requests rt ++ map (HttpGet "/api/interface/get") batch.
Proof. apply start_all_misses. Qed.

End ReadThrough.

(** ** Maintenance, lookup by category and search *)

Section ServiceFacts.

Context {W : Type} (env : Env W).
Variable toLowerCase : string -> string.

Lemma getGroupInfo_miss_requests (id : Z) (rt : Runtime) :
  not_null (fst (lookup env (generateKey env "getGroupInfo" [JsNumber id]) rt))
    = false ->
  requests (snd (getGroupInfo env id rt)) =
    requests rt ++ [HttpGet "/api/interface/get" id].
Proof.
  intros Hmiss. rewrite getGroupInfo_run. cbv zeta. rewrite Hmiss.
  destruct (answered _) as [result|e]; [reflexivity|]. destruct e; reflexivity.
Qed.

Lemma getInterfaceList_miss_requests (projectId : Z) (rt : Runtime) :
  not_null (fst (lookup env (generateKey env "getInterfaceList"
                               [JsNumber projectId]) rt)) = false ->
  requests (snd (getInterfaceList env projectId rt)) =
    requests rt ++ [HttpGet "/api/interface/list_menu" projectId].
Proof.
  intros Hmiss. rewrite getInterfaceList_run. cbv zeta. rewrite Hmiss.
  destruct (answered _) as [result|e]; [reflexivity|]. destruct e; reflexivity.
Qed.

Lemma lookup_after_delete (key : string) (rt rt1 : @Runtime W) :
  cache rt1 = Cache.map_delete (cache rt) key ->
  not_null (fst (lookup env key rt1)) = false.
Proof.
  intros Hc. unfold lookup, Cache.get. rewrite Hc.
  rewrite CacheFacts.map_get_delete_same.
  destruct (negb (Cache.enabled (config env))); reflexivity.
Qed.

(** X15.  Clearing the cache of an interface, of a project, or the whole
    cache never fails, and the next fetch of what was cleared goes to the
    origin, whatever had been cached; clearing one key leaves the entries
    of all other keys alone. *)
Theorem clearing_forces_a_request (param : Z) (rt : Runtime) :
  let detail := snd (clearInterfaceCache env param rt) in
  let listing := snd (clearProjectCache env param rt) in
  let all := snd (cache_clear rt) in
  fst (clearInterfaceCache env param rt) = Resolved tt
  /\ fst (clearProjectCache env param rt) = Resolved tt
  /\ requests (snd (getGroupInfo env param detail)) =
       requests rt ++ [HttpGet "/api/interface/get" param]
  /\ requests (snd (getInterfaceList env param listing)) =
       requests rt ++ [HttpGet "/api/interface/list_menu" param]
  /\ (forall key, key <> generateKey env "getGroupInfo" [JsNumber param] ->
        Cache.map_get (cache detail) key = Cache.map_get (cache rt) key)
  /\ (forall key, key <> generateKey env "getInterfaceList" [JsNumber param] ->
        Cache.map_get (cache listing) key = Cache.map_get (cache rt) key)
  /\ cache all = []
  /\ (forall id, requests (snd (getGroupInfo env id all)) =
                 requests rt ++ [HttpGet "/api/interface/get" id]).
Proof.
  cbv zeta. split; [reflexivity|]. split; [reflexivity|].
  split; [|split; [|split; [|split; [|split]]]].
  - rewrite getGroupInfo_miss_requests; [reflexivity|].
    now apply (lookup_after_delete _ rt).
  - rewrite getInterfaceList_miss_requests; [reflexivity|].
    now apply (lookup_after_delete _ rt).
  - intros key Hne.
    change (cache (snd (clearInterfaceCache env param rt)))
      with (Cache.map_delete (cache rt)
              (generateKey env "getGroupInfo" [JsNumber param])).
    apply CacheFacts.map_get_delete_other. now apply not_eq_sym.
  - intros key Hne.
    change (cache (snd (clearProjectCache env param rt)))
      with (Cache.map_delete (cache rt)
              (generateKey env "getInterfaceList" [JsNumber param])).
    apply CacheFacts.map_get_delete_other. now apply not_eq_sym.
  - reflexivity.
  - intros id. rewrite getGroupInfo_miss_requests; [reflexivity|].
    unfold lookup, Cache.get. cbn.
    destruct (negb (Cache.enabled (config env))); reflexivity.
Qed.

Lemma find_first {A : Type} (f : A -> bool) (l : list A) (x : A) :
  find f l = Some x ->
  exists l1 l2, l = l1 ++ x :: l2 /\ f x = true
                /\ Forall (fun y => f y = false) l1.
Proof.
  induction l as [|y l IH]; cbn; [discriminate|].
  destruct (f y) eqn:E.
  - intros [= ->]. exists [], l. auto.
  - intros H. destruct (IH H) as (l1 & l2 & -> & Hx & Hl1).
    exists (y :: l1), l2. auto.
Qed.

Lemma find_none_all {A : Type} (f : A -> bool) (l : list A) :
  find f l = None <-> Forall (fun y => f y = false) l.
Proof.
  induction l as [|y l IH]; cbn; [split; auto|].
  destruct (f y) eqn:E.
  - split; [discriminate|]. intros H. inversion H; congruence.
  - rewrite IH. split; [auto | intros H; now inversion H].
Qed.

Lemma getInterfaceList_rejection (projectId : Z) (rt : Runtime) (e : JsError) :
  fst (getInterfaceList env projectId rt) = Rejected e ->
  is_ApiError e = true \/ e = PlainError "获取接口列表时发生未知错误".
Proof.
  rewrite getInterfaceList_run. cbv zeta.
  destruct (not_null _); [discriminate|].
  destruct (answered _) as [result|e0]; [discriminate|].
  destruct e0; cbn; intros [= <-]; auto.
Qed.

Lemma getInterfacesByCategory_run (projectId : Z) (categoryName : string)
  (rt : Runtime) :
  getInterfacesByCategory env toLowerCase projectId categoryName rt =
    let failed (e : JsError) (rt1 : Runtime) :=
      (Rejected (A := list ApiCategoryChild) e,
       snd (log (category_line e) rt1)) in
    match getInterfaceList env projectId rt with
    | (Resolved (JsCategories l), rt1) =>
        match find (category_matches toLowerCase categoryName) l with
        | Some category => (Resolved (cat_list category), rt1)
        | None => failed (PlainError (no_category categoryName)) rt1
        end
    | (Resolved JsNull, rt1) =>
        failed (PlainError "Cannot read properties of null (reading 'find')") rt1
    | (Resolved JsUndefined, rt1) =>
        failed
          (PlainError "Cannot read properties of undefined (reading 'find')") rt1
    | (Resolved _, rt1) =>
        failed (PlainError "interfaces.find is not a function") rt1
    | (Rejected e, rt1) => failed e rt1
    end.
Proof.
  unfold getInterfacesByCategory. cbv beta zeta delta [bind try_catch].
  pose proof (getInterfaceList_rejection projectId rt) as Hrej.
  destruct (getInterfaceList env projectId rt) as [[interfaces|e] rt1];
    cbn [fst] in Hrej.
  - destruct interfaces; try reflexivity. cbn.
    destruct (find _ l); reflexivity.
  - destruct (Hrej e eq_refl) as [Hapi | ->]; [|reflexivity].
    destruct e; try discriminate. reflexivity.
Qed.

(** X16.  [getInterfacesByCategory] does to the cache, the world, the
    requests and the schedule what [getInterfaceList] does, and nothing
    more; when it fails it writes one line more to the console, for the
    error it fails with.  On a listing it returns the interfaces of the
    first category, in the order of the listing, whose name contains the
    given name or is contained in it, letter case apart; when no category
    is, it fails with a message that quotes the name.  A failure of the
    listing reaches the caller as the listing raised it. *)
Theorem category_lookup (projectId : Z) (categoryName : string)
  (rt : Runtime) :
  let listing := getInterfaceList env projectId rt in
  let found := getInterfacesByCategory env toLowerCase projectId categoryName rt in
  cache (snd found) = cache (snd listing)
  /\ world (snd found) = world (snd listing)
  /\ requests (snd found) = requests (snd listing)
  /\ schedule (snd found) = schedule (snd listing)
  /\ (forall items, fst found = Resolved items -> snd found = snd listing)
  /\ (forall e, fst found = Rejected e ->
        console (snd found) = console (snd listing) ++ [category_line e])
  /\ (forall e, fst listing = Rejected e -> fst found = Rejected e)
  /\ (forall l, fst listing = Resolved (JsCategories l) ->
        (forall items, fst found = Resolved items ->
           exists before category rest,
             l = before ++ category :: rest
             /\ items = cat_list category
             /\ category_matches toLowerCase categoryName category = true
             /\ Forall (fun other =>
                          category_matches toLowerCase categoryName other
                          = false) before)
        /\ (Forall (fun other =>
                      category_matches toLowerCase categoryName other = false) l
            -> fst found = Rejected (PlainError (no_category categoryName)))
        /\ (forall e, fst found = Rejected e ->
              e = PlainError (no_category categoryName))).
Proof.
  cbv zeta. rewrite getInterfacesByCategory_run. cbv zeta.
  destruct (getInterfaceList env projectId rt) as [[interfaces|e] rt1].
  - destruct interfaces as [| |n|str|l|d];
      try (cbn [fst snd log cache world requests schedule console];
           repeat split; try discriminate; now intros e [= <-]).
    destruct (find _ l) as [category|] eqn:E;
      cbn [fst snd log cache world requests schedule console];
      (split; [reflexivity|]); (split; [reflexivity|]);
      (split; [reflexivity|]); (split; [reflexivity|]).
    + split; [reflexivity|]. split; [discriminate|]. split; [discriminate|].
      intros l0 [= <-]. split; [|split].
      * intros items [= <-].
        destruct (find_first _ _ _ E) as (l1 & l2 & Hl & Hm & Hb).
        exists l1, category, l2. auto.
      * intros Hall. apply find_none_all in Hall. congruence.
      * discriminate.
    + split; [discriminate|]. split; [now intros e [= <-]|].
      split; [discriminate|].
      intros l0 [= <-]. split; [discriminate|].
      split; [reflexivity|]. now intros e [= <-].
  - cbn [fst snd log cache world requests schedule console].
    repeat split; try discriminate; now intros e0 [= <-].
Qed.

(** X17.  The search lists, in the order of the listing, the interfaces
    whose title, path or method contains the query, letter case apart,
    each with the name and identifier of its category; with a method
    given and not empty, only those whose method is that one, letter case
    apart.  It reads the listing and leaves the process alone. *)
Theorem search_lists_the_matches (l : list ApiCategoryItem) (query : string)
  (method : option string) (rt : @Runtime W) :
  exists rs,
    search toLowerCase (JsCategories l) query method rt = (Resolved rs, rt)
    /\ map sr_id rs =
         map child_id (filter (search_matches toLowerCase query method)
                         (flat_map cat_list l))
    /\ (forall r, In r rs <->
          exists category item,
            In category l /\ In item (cat_list category)
            /\ search_matches toLowerCase query method item = true
            /\ r = found category item)
    /\ (forall r, In r rs ->
          includes (toLowerCase (sr_title r)) (toLowerCase query) = true
          \/ includes (toLowerCase (sr_path r)) (toLowerCase query) = true
          \/ includes (toLowerCase (sr_method r)) (toLowerCase query) = true)
    /\ (forall m, method = Some m -> m <> "" ->
          forall r, In r rs -> toLowerCase (sr_method r) = toLowerCase m).
Proof.
  eexists. split; [reflexivity|].
  assert (Hin : forall r,
    In r (flat_map
            (fun category =>
               map (found category)
                 (filter (search_matches toLowerCase query method)
                    (cat_list category))) l) <->
    exists category item,
      In category l /\ In item (cat_list category)
      /\ search_matches toLowerCase query method item = true
      /\ r = found category item).
  { intros r. rewrite in_flat_map. split.
    - intros (category & Hc & Hr). apply in_map_iff in Hr.
      destruct Hr as (item & <- & Hi). apply filter_In in Hi.
      exists category, item. tauto.
    - intros (category & item & Hc & Hi & Hm & ->). exists category.
      split; [exact Hc|]. apply in_map. apply filter_In. auto. }
  split; [|split; [exact Hin|split]].
  - induction l as [|category l IH]; [reflexivity|]. cbn [flat_map].
    rewrite filter_app, !map_app, <- IH.
    + f_equal. rewrite map_map. reflexivity.
    + intros r. rewrite in_flat_map. split.
      * intros (c0 & Hc & Hr). apply in_map_iff in Hr.
        destruct Hr as (item & <- & Hi). apply filter_In in Hi.
        exists c0, item. tauto.
      * intros (c0 & item & Hc & Hi & Hm & ->). exists c0.
        split; [exact Hc|]. apply in_map. apply filter_In. auto.
  - intros r Hr. apply Hin in Hr.
    destruct Hr as (category & item & _ & _ & Hm & ->). cbn.
    unfold search_matches in Hm. apply andb_true_iff in Hm.
    destruct Hm as [Hq _]. rewrite !orb_true_iff in Hq. tauto.
  - intros m -> Hm r Hr. apply Hin in Hr.
    destruct Hr as (category & item & _ & _ & Hs & ->). cbn.
    unfold search_matches in Hs. apply andb_true_iff in Hs.
    destruct Hs as [_ Hs]. apply orb_true_iff in Hs.
    destruct Hs as [Hs|Hs]; [|now apply String.eqb_eq].
    destruct m; [contradiction | discriminate].
Qed.

End ServiceFacts.

(** ** The tools *)

Lemma initializeIfNeeded_cases (argv : list string) (config : Cli.Config) :
  initializeIfNeeded argv (ServerReady config) = Some config
  /\ initializeIfNeeded argv Cold = Cli.getConfigFromArgs argv
  /\ initializeIfNeeded argv (ModuleReady config) =
       match Cli.getConfigFromArgs argv with
       | Some _ => Some config
       | None => None
       end.
Proof.
  split; [reflexivity|]. unfold initializeIfNeeded. cbn [isInitialized].
  split; destruct (Cli.getConfigFromArgs argv); reflexivity.
Qed.

Lemma initializeIfNeeded_exits (argv : list string) (s : Startup) :
  initializeIfNeeded argv s = None <->
  isInitialized s = false /\ Cli.getConfigFromArgs argv = None.
Proof.
  destruct s as [|config|config];
    [destruct (initializeIfNeeded_cases argv Cli.defaults) as (_ & -> & _)
    |destruct (initializeIfNeeded_cases argv config) as (_ & _ & ->)
    |destruct (initializeIfNeeded_cases argv config) as (-> & _)];
    cbn [isInitialized]; destruct (Cli.getConfigFromArgs argv);
    split; try tauto; try discriminate; intros [? ?]; discriminate.
Qed.

Section ToolFacts.

Context {W : Type} (env : Env W).
Variable toLowerCase : string -> string.

Lemma required_zero (name : string) (rt : @Runtime W) :
  required name 0 rt = (Rejected (PlainError (name ++ " is required.")%string), rt).
Proof. reflexivity. Qed.

Lemma required_other (name : string) (id : Z) (rt : @Runtime W) :
  id <> 0 -> required name id rt = (Resolved tt, rt).
Proof.
  intros H. unfold required. destruct (Z.eqb_spec id 0); [contradiction|].
  reflexivity.
Qed.

Lemma preloadInterfaceData_resolves (e : Env W) (projectId : Z)
  (rt : Runtime) :
  preloadInterfaceData e projectId rt =
    (Resolved tt, snd (preloadInterfaceData e projectId rt)).
Proof.
  unfold preloadInterfaceData, try_catch.
  destruct (bind _ _ rt) as [[[]|err] rt1]; reflexivity.
Qed.

Lemma handler_exits {P : Type} (argv : list string)
  (body : Env W -> @M W (ToolResult P)) (s : Startup) (rt : Runtime) :
  handler env argv body s rt = None <->
  isInitialized s = false /\ Cli.getConfigFromArgs argv = None.
Proof.
  rewrite <- initializeIfNeeded_exits. unfold handler.
  destruct (initializeIfNeeded argv s) as [config|]; [|tauto].
  destruct (tool _ _). split; discriminate.
Qed.

Lemma handler_answers {P : Type} (argv : list string)
  (body : Env W -> @M W (ToolResult P)) (s : Startup) (rt : Runtime)
  (config : Cli.Config) :
  initializeIfNeeded argv s = Some config ->
  handler env argv body s rt =
    Some (tool (body (with_config env (Cache.constructor (Cli.cacheConfig config))))
            (store_in_use s rt),
          ServerReady config).
Proof.
  intros Hinit. unfold handler. rewrite Hinit. cbv zeta.
  now destruct (tool _ _).
Qed.

(** X18.  The handlers of [preload_interface_data],
    [clear_project_cache], [clear_interface_cache] and [clear_all_cache]
    end the process exactly when the server is not yet initialised and the
    command line lacks a base URL or a cookie.  Otherwise they answer, on
    the cache built from the configuration of the module, and leave the
    server initialised, so that no later call ends the process.  The
    identifier 0 is refused, with an error text and before anything is done
    with the cache.  For any other identifier the answer is the text of
    success: for the preload whether or not the listing or any interface
    could be fetched, for the clearing whether or not anything was
    cached. *)
Theorem maintenance_tools_answer (argv : list string) (s : Startup)
  (rt : Runtime) (id : Z) :
  ((isInitialized s = false /\ Cli.getConfigFromArgs argv = None) <->
   preload_interface_data env argv id s rt = None)
  /\ (preload_interface_data env argv id s rt = None <->
      clear_project_cache env argv id s rt = None)
  /\ (preload_interface_data env argv id s rt = None <->
      clear_interface_cache env argv id s rt = None)
  /\ (preload_interface_data env argv id s rt = None <->
      clear_all_cache env argv s rt = None)
  /\ (forall config, initializeIfNeeded argv s = Some config ->
      let e := with_config env (Cache.constructor (Cli.cacheConfig config)) in
      let rt0 := store_in_use s rt in
      let ready := ServerReady config in
      (id = 0 ->
       preload_interface_data env argv id s rt =
         Some (Resolved (Text "Error: project_id is required."), rt0, ready)
       /\ clear_project_cache env argv id s rt =
            Some (Resolved (Text "Error: project_id is required."), rt0, ready)
       /\ clear_interface_cache env argv id s rt =
            Some (Resolved (Text "Error: interface_id is required."), rt0,
                  ready))
      /\ (id <> 0 ->
          preload_interface_data env argv id s rt =
            Some (Resolved
                    (Text ("Successfully preloaded interface data for project "
                           ++ Number.toString id)%string),
                  snd (preloadInterfaceData e id rt0), ready)
          /\ clear_project_cache env argv id s rt =
               Some (Resolved (Text ("Successfully cleared cache for project "
                                     ++ Number.toString id)%string),
                     snd (clearProjectCache e id rt0), ready)
          /\ clear_interface_cache env argv id s rt =
               Some (Resolved (Text ("Successfully cleared cache for interface "
                                     ++ Number.toString id)%string),
                     snd (clearInterfaceCache e id rt0), ready))
      /\ clear_all_cache env argv s rt =
           Some (Resolved (Text "Successfully cleared all cache data"),
                 snd (cache_clear rt0), ready)
      /\ (forall argv', initializeIfNeeded argv' ready = Some config)
      /\ (isInitialized s = true -> rt0 = rt)
      /\ (s = Cold -> rt0 = with_cache rt []
                      /\ Cli.getConfigFromArgs argv = Some config)).
Proof.
  unfold preload_interface_data, clear_project_cache, clear_interface_cache,
    clear_all_cache.
  split; [symmetry; apply handler_exits|].
  split; [rewrite !handler_exits; tauto|].
  split; [rewrite !handler_exits; tauto|].
  split; [rewrite !handler_exits; tauto|].
  intros config Hinit.
  rewrite !(handler_answers _ _ _ _ _ Hinit).
  set (e := with_config env (Cache.constructor (Cli.cacheConfig config))).
  set (rt0 := store_in_use s rt).
  unfold tool. cbv beta delta [bind try_catch ret].
  split; [|split; [|split; [|split; [|split]]]].
  - intros ->. rewrite !required_zero. repeat split.
  - intros Hid. rewrite !(required_other _ id rt0 Hid).
    rewrite preloadInterfaceData_resolves. repeat split.
  - reflexivity.
  - reflexivity.
  - destruct s; [discriminate | discriminate | reflexivity].
  - intros ->. split; [reflexivity|].
    destruct (initializeIfNeeded_cases argv config) as (_ & <- & _).
    exact Hinit.
Qed.

(** X19.  The handler of [search_interfaces] ends the process exactly
    when the server is not yet initialised and the command line lacks a
    base URL or a cookie; otherwise it answers and leaves the server
    initialised.  It refuses the project 0 and the empty query with an
    error text, before the listing is asked for; a failure of the listing
    becomes the text [Error: ] followed by its message; and on a listing
    the answer carries the matches with their number. *)
Theorem search_tool_answers (argv : list string) (s : Startup) (rt : Runtime)
  (project_id : Z) (query : string) (method : option string) :
  let answer :=
    search_interfaces env toLowerCase argv project_id query method s rt in
  ((isInitialized s = false /\ Cli.getConfigFromArgs argv = None) <->
   answer = None)
  /\ (forall config, initializeIfNeeded argv s = Some config ->
      let e := with_config env (Cache.constructor (Cli.cacheConfig config)) in
      let rt0 := store_in_use s rt in
      let ready := ServerReady config in
      let listing := getInterfaceList e project_id rt0 in
      (exists t rt', answer = Some (Resolved t, rt', ready))
      /\ (project_id = 0 ->
          answer = Some (Resolved (Text "Error: project_id is required."),
                         rt0, ready))
      /\ (project_id <> 0 -> query = "" ->
          answer = Some (Resolved (Text "Error: query is required."),
                         rt0, ready))
      /\ (project_id <> 0 -> query <> "" ->
          (forall err, fst listing = Rejected err ->
             answer = Some (Resolved (Text (error_text err)), snd listing,
                            ready))
          /\ (forall l, fst listing = Resolved (JsCategories l) ->
                exists rs,
                  fst (search toLowerCase (JsCategories l) query method rt0)
                    = Resolved rs
                  /\ answer =
                       Some (Resolved
                               (Stringified {| sp_total := List.length rs;
                                               sp_results := rs |}),
                             snd listing, ready)))).
Proof.
  cbv zeta. unfold search_interfaces.
  split; [symmetry; apply handler_exits|].
  intros config Hinit. rewrite (handler_answers _ _ _ _ _ Hinit).
  set (e := with_config env (Cache.constructor (Cli.cacheConfig config))).
  set (rt0 := store_in_use s rt).
  split; [|split; [|split]].
  - unfold tool, try_catch.
    destruct (bind _ _ rt0) as [[t|err] rt1]; unfold ret; eauto.
  - intros ->. reflexivity.
  - intros Hid ->. unfold tool.
    cbv beta delta [bind try_catch ret]. rewrite (required_other _ _ rt0 Hid).
    reflexivity.
  - intros Hid Hq. unfold tool.
    cbv beta delta [bind try_catch ret throw].
    rewrite (required_other _ _ rt0 Hid).
    destruct query as [|ch query]; [contradiction|]. cbn [Cache.truthy].
    split.
    + intros err He. destruct (getInterfaceList e project_id rt0) as [o rt1].
      cbn [fst] in He. subst o. reflexivity.
    + intros l Hl. destruct (getInterfaceList e project_id rt0) as [o rt1].
      cbn [fst] in Hl. subst o. eexists. split; reflexivity.
Qed.

End ToolFacts.

(** ** The command line and the start-up *)

Module CliMore.
Import Cache Cli.

Lemma pos_numeral_value (d : Decimal.uint) (acc : BinNums.positive) :
  Zpos (Pos.of_uint_acc d acc) = numeral_value d (Zpos acc).
Proof.
  revert acc. induction d; intros acc; cbn [Pos.of_uint_acc numeral_value];
    [reflexivity | rewrite IHd; f_equal; lia ..].
Qed.

Lemma of_uint_numeral_value (d : Decimal.uint) :
  Z.of_uint d = numeral_value d 0.
Proof.
  unfold Z.of_uint.
  induction d; cbn [Pos.of_uint numeral_value Z.of_N];
    [reflexivity | exact IHd | apply pos_numeral_value ..].
Qed.

Lemma digits_numeral (d : Decimal.uint) (acc : Z) :
  digits (NilEmpty.string_of_uint d) (Some acc) = Some (numeral_value d acc).
Proof.
  revert acc. induction d; intros acc;
    cbn [NilEmpty.string_of_uint digits numeral_value];
    [reflexivity | ..];
    (match goal with
     | |- context [digit_of ?ch] =>
         let r := eval vm_compute in (digit_of ch) in
         change (digit_of ch) with r
     end; cbv iota beta; rewrite IHd; apply f_equal, f_equal; lia).
Qed.

Lemma digits_numeral_start (d : Decimal.uint) :
  digits (NilZero.string_of_uint d) None = Some (numeral_value d 0).
Proof.
  destruct d; cbn [NilZero.string_of_uint NilEmpty.string_of_uint digits
                   numeral_value];
    [reflexivity | ..];
    (match goal with
     | |- context [digit_of ?ch] =>
         let r := eval vm_compute in (digit_of ch) in
         change (digit_of ch) with r
     end; cbv iota beta; rewrite digits_numeral; apply f_equal, f_equal; lia).
Qed.

Lemma skip_spaces_plain (ch : ascii) (rest : string) :
  (nat_of_ascii ch < 128)%nat -> is_space ch = false ->
  skip_spaces (String ch rest) = String ch rest.
Proof.
  intros Hlow Hsp. cbn [skip_spaces]. rewrite Hsp.
  destruct rest as [|c2 rest2]; [reflexivity|].
  assert (H2 : is_space2 ch c2 = false).
  { unfold is_space2. destruct (Nat.eqb_spec (nat_of_ascii ch) 194); [lia|].
    reflexivity. }
  rewrite H2. destruct rest2 as [|c3 rest3]; [reflexivity|].
  assert (H3 : is_space3 ch c2 c3 = false).
  { unfold is_space3. cbv zeta.
    destruct (Nat.eqb_spec (nat_of_ascii ch) 225); [lia|].
    destruct (Nat.eqb_spec (nat_of_ascii ch) 226); [lia|].
    destruct (Nat.eqb_spec (nat_of_ascii ch) 227); [lia|].
    destruct (Nat.eqb_spec (nat_of_ascii ch) 239); [lia|].
    reflexivity. }
  now rewrite H3.
Qed.

Lemma parseInt_numeral (d : Decimal.uint) :
  parseInt (NilZero.string_of_uint d) = Some (Number.round (numeral_value d 0)).
Proof.
  assert (H : parseInt (NilZero.string_of_uint d) =
              option_map Number.round (digits (NilZero.string_of_uint d) None)).
  { unfold parseInt.
    destruct d; cbn [NilZero.string_of_uint NilEmpty.string_of_uint];
      (rewrite skip_spaces_plain; [reflexivity | cbn; lia | reflexivity]). }
  rewrite H, digits_numeral_start. reflexivity.
Qed.

(** [parseInt] reads every integer from its decimal writing, as the number
    it stands for. *)
Lemma parseInt_reads_decimals (z : Z) :
  parseInt (string_of_Z z) = Some (Number.round z).
Proof.
  unfold string_of_Z. rewrite <- (DecimalZ.of_to z) at 2.
  destruct (Z.to_int z) as [d|d]; cbn [NilZero.string_of_int Z.of_int].
  - rewrite parseInt_numeral. f_equal. f_equal. symmetry.
    apply of_uint_numeral_value.
  - unfold parseInt.
    rewrite skip_spaces_plain; [| cbn; lia | reflexivity].
    rewrite digits_numeral_start. cbn [option_map]. f_equal. f_equal.
    rewrite of_uint_numeral_value. reflexivity.
Qed.

Lemma string_of_Z_truthy (z : Z) : truthy (string_of_Z z) = true.
Proof.
  unfold string_of_Z. destruct (Z.to_int z) as [d|d]; [|reflexivity].
  destruct d; reflexivity.
Qed.

(** Computes the comparisons of literal strings in the goal. *)
Ltac eval_eqb :=
  repeat match goal with
         | |- context [String.eqb ?a ?b] =>
             let r := eval vm_compute in (String.eqb a b) in
             change (String.eqb a b) with r
         end;
  cbn [orb andb].

Lemma turn_number (arg : string) (z : Z) (c : Config) :
  (arg = "--cache-size" \/ arg = "-s" ->
   turn arg (Some (string_of_Z z)) c =
     (if z >? 0 then with_maxSize c (Number.round z) else c, true))
  /\ (arg = "--cache-ttl" \/ arg = "-t" ->
      turn arg (Some (string_of_Z z)) c =
        (if z >? 0
         then with_ttl c (Number.mul (Number.mul (Number.round z) 60) 1000)
         else c, true)).
Proof.
  assert (Hpos : (Number.round z >? 0) = (z >? 0)).
  { rewrite !Z.gtb_ltb. destruct (Z.ltb_spec 0 z) as [H|H].
    - apply Z.ltb_lt. now apply NumberFacts.round_pos.
    - apply Z.ltb_ge. now apply NumberFacts.round_not_pos. }
  split; intros [-> | ->]; unfold turn; cbn [present text];
    rewrite string_of_Z_truthy, parseInt_reads_decimals; eval_eqb;
    rewrite Hpos; reflexivity.
Qed.

(** X20.  A size or a ttl given on the command line as a decimal numeral
    is consumed together with its option.  A positive one becomes the
    [maxSize], or the ttl in minutes, the later options start from: the
    number the numeral stands for, which is the integer itself up to 2^53
    and [Infinity] from 2^1024 on, for the ttl multiplied by 60 and by
    1000.  A zero or negative one leaves the configuration as it was. *)
Theorem cli_numbers_are_configured (z : Z) (rest : list string) (c : Config) :
  (0 < z ->
   parse ("--cache-size" :: string_of_Z z :: rest) c
     = parse rest (with_maxSize c (Number.round z))
   /\ parse ("-s" :: string_of_Z z :: rest) c
      = parse rest (with_maxSize c (Number.round z))
   /\ parse ("--cache-ttl" :: string_of_Z z :: rest) c
      = parse rest
          (with_ttl c (Number.mul (Number.mul (Number.round z) 60) 1000))
   /\ parse ("-t" :: string_of_Z z :: rest) c
      = parse rest
          (with_ttl c (Number.mul (Number.mul (Number.round z) 60) 1000))
   /\ (z <= 2 ^ 53 -> Number.round z = z)
   /\ (z * 60 * 1000 <= 2 ^ 53 ->
       Number.mul (Number.mul (Number.round z) 60) 1000 = z * 60 * 1000))
  /\ (z <= 0 ->
      parse ("--cache-size" :: string_of_Z z :: rest) c = parse rest c
      /\ parse ("-s" :: string_of_Z z :: rest) c = parse rest c
      /\ parse ("--cache-ttl" :: string_of_Z z :: rest) c = parse rest c
      /\ parse ("-t" :: string_of_Z z :: rest) c = parse rest c).
Proof.
  assert (Hstep : forall arg,
    parse (arg :: string_of_Z z :: rest) c =
      let (c', skip) := turn arg (Some (string_of_Z z)) c in
      if skip then parse rest c' else parse (string_of_Z z :: rest) c')
    by reflexivity.
  destruct (turn_number "--cache-size" z c) as [Hsize _].
  destruct (turn_number "-s" z c) as [Hs _].
  destruct (turn_number "--cache-ttl" z c) as [_ Httl].
  destruct (turn_number "-t" z c) as [_ Ht].
  rewrite !Hstep, Hsize, Hs, Httl, Ht by auto.
  split; intros Hz; destruct (Z.gtb_spec z 0); try lia.
  - repeat split.
    + intros Hsmall. apply NumberFacts.round_small. lia.
    + intros Hsmall. unfold Number.mul.
      rewrite (NumberFacts.round_small z) by lia.
      rewrite (NumberFacts.round_small (z * 60)) by lia.
      apply NumberFacts.round_small. lia.
  - auto.
Qed.

Lemma cli_numbers_are_configured_witness :
  parse ["--cache-size"; string_of_Z 200; "--no-cache"] defaults
  = parse ["--no-cache"] (with_maxSize defaults (Number.round 200)).
Proof.
  apply (cli_numbers_are_configured 200 ["--no-cache"] defaults);
    reflexivity.
Defined.

Lemma turn_from_cli (arg : string) (nextArg : option string) (c : Config) :
  from_cli (cacheConfig c) -> from_cli (cacheConfig (fst (turn arg nextArg c))).
Proof.
  intros (m & size & b & Ht & Hm & Hs & Hsize & Hb). unfold turn.
  repeat match goal with
         | |- context [if ?x then _ else _] => destruct x
         end;
    try (destruct (parseInt (text nextArg)) as [n|]);
    try (destruct (Z.gtb_spec n 0));
    first [ exists m, size, b; cbn; tauto
          | exists m, size, false; cbn; tauto
          | exists m, size, true; cbn; tauto
          | exists n, size, b; cbn; repeat split; (assumption || lia)
          | exists m, n, b; cbn; repeat split; (assumption || lia) ].
Qed.

Lemma parse_from_cli_upto (n : nat) (args : list string) (c : Config) :
  (List.length args <= n)%nat ->
  from_cli (cacheConfig c) -> from_cli (cacheConfig (parse args c)).
Proof.
  revert args c. induction n as [|n IH]; intros args c Hlen Hc.
  - destruct args; [exact Hc | simpl in Hlen; lia].
  - destruct args as [|arg rest]; [exact Hc|]. cbn [parse List.length] in *.
    pose proof (turn_from_cli arg (hd_error rest) c Hc) as Hturn.
    destruct (turn arg (hd_error rest) c) as [c' skip]. cbn [fst] in Hturn.
    destruct rest as [|next rest']; [exact Hturn|].
    destruct skip; apply IH; cbn [List.length] in *; auto; lia.
Qed.

(** What one turn of the loop does to the base URL and to the cookie: it
    leaves them, or sets one of them to the argument that follows its
    option, which is not empty and is skipped. *)
Lemma turn_credentials (arg : string) (nextArg : option string) (c : Config) :
  (baseURL (fst (turn arg nextArg c)) = baseURL c
   \/ ((arg = "--baseURL" \/ arg = "-u")
       /\ nextArg = Some (baseURL (fst (turn arg nextArg c)))
       /\ baseURL (fst (turn arg nextArg c)) <> ""
       /\ snd (turn arg nextArg c) = true))
  /\ (cookie (fst (turn arg nextArg c)) = cookie c
      \/ ((arg = "--cookie" \/ arg = "-c")
          /\ nextArg = Some (cookie (fst (turn arg nextArg c)))
          /\ cookie (fst (turn arg nextArg c)) <> ""
          /\ snd (turn arg nextArg c) = true)).
Proof.
  assert (Hpresent : forall n, present n = true ->
                               n = Some (text n) /\ text n <> "").
  { intros [[|ch n]|]; cbn; try discriminate. split; [reflexivity|discriminate]. }
  unfold turn.
  destruct ((String.eqb arg "--baseURL" || String.eqb arg "-u")
            && present nextArg)%bool eqn:Eu.
  { apply andb_true_iff in Eu. destruct Eu as [Earg Enext].
    apply orb_true_iff in Earg. rewrite !String.eqb_eq in Earg.
    destruct (Hpresent _ Enext). cbn. split; [right|left]; tauto. }
  destruct ((String.eqb arg "--cookie" || String.eqb arg "-c")
            && present nextArg)%bool eqn:Ec.
  { apply andb_true_iff in Ec. destruct Ec as [Earg Enext].
    apply orb_true_iff in Earg. rewrite !String.eqb_eq in Earg.
    destruct (Hpresent _ Enext). cbn. split; [left|right]; tauto. }
  repeat match goal with
         | |- context [if ?x then _ else _] => destruct x
         end;
    try (destruct (parseInt (text nextArg)) as [n|]);
    try (destruct (n >? 0)); cbn; auto.
Qed.

Lemma follows_cons {A : Type} (a b x : A) (l : list A) :
  follows a b l -> follows a b (x :: l).
Proof. intros (l1 & l2 & ->). now exists (x :: l1), l2. Qed.

Lemma parse_credentials_upto (n : nat) (args : list string) (c : Config) :
  (List.length args <= n)%nat ->
  (baseURL (parse args c) = baseURL c
   \/ (baseURL (parse args c) <> ""
       /\ (follows "--baseURL" (baseURL (parse args c)) args
           \/ follows "-u" (baseURL (parse args c)) args)))
  /\ (cookie (parse args c) = cookie c
      \/ (cookie (parse args c) <> ""
          /\ (follows "--cookie" (cookie (parse args c)) args
              \/ follows "-c" (cookie (parse args c)) args))).
Proof.
  revert args c. induction n as [|n IH]; intros args c Hlen.
  - destruct args; [cbn; auto | simpl in Hlen; lia].
  - destruct args as [|arg rest]; [cbn; auto|]. cbn [parse List.length] in *.
    destruct (turn_credentials arg (hd_error rest) c) as [Hu Hc].
    destruct (turn arg (hd_error rest) c) as [c' skip]. cbn [fst snd] in Hu, Hc.
    destruct rest as [|next rest']; cbn [hd_error] in Hu, Hc.
    + split.
      * destruct Hu as [Hu|(_ & [=] & _)]. now left.
      * destruct Hc as [Hc|(_ & [=] & _)]. now left.
    + assert (Hlen' : (List.length (if skip then rest' else next :: rest') <= n)%nat)
        by (destruct skip; cbn [List.length] in *; lia).
      assert (Hsub : forall a b,
                follows a b (if skip then rest' else next :: rest') ->
                follows a b (arg :: next :: rest')).
      { intros a b H. destruct skip; auto using follows_cons. }
      destruct (IH (if skip then rest' else next :: rest') c' Hlen')
        as [IHu IHc].
      replace (if skip then parse rest' c' else parse (next :: rest') c')
        with (parse (if skip then rest' else next :: rest') c')
        by (destruct skip; reflexivity).
      set (r := parse (if skip then rest' else next :: rest') c') in *.
      split.
      * destruct IHu as [IHu|(Hne & [Hf|Hf])];
          [|right; split; auto ..].
        rewrite IHu.
        destruct Hu as [Hu|([-> | ->] & [= Hnext] & Hne & _)]; [now left|..];
          right; (split; [exact Hne|]); [left|right];
          exists [], rest'; rewrite Hnext; reflexivity.
      * destruct IHc as [IHc|(Hne & [Hf|Hf])];
          [|right; split; auto ..].
        rewrite IHc.
        destruct Hc as [Hc|([-> | ->] & [= Hnext] & Hne & _)]; [now left|..];
          right; (split; [exact Hne|]); [left|right];
          exists [], rest'; rewrite Hnext; reflexivity.
Qed.

(** X21.  A configuration read from the command line has a base URL and
    a cookie that are not empty, and each is an argument that follows its
    option on the command line; its ttl is a positive number of minutes,
    whole or [Infinity], multiplied by 60 and by 1000; its size is
    positive, and its cache is explicitly on or off.  On a command line
    without [--baseURL] and [-u], or without [--cookie] and [-c], the
    process exits instead, with a line on the console that names the one
    missing, the base URL first. *)
Theorem cli_configuration_shape (argv : list string) :
  (forall conf, getConfigFromArgs argv = Some conf ->
     baseURL conf <> "" /\ cookie conf <> ""
     /\ (follows "--baseURL" (baseURL conf) (skipn 2 argv)
         \/ follows "-u" (baseURL conf) (skipn 2 argv))
     /\ (follows "--cookie" (cookie conf) (skipn 2 argv)
         \/ follows "-c" (cookie conf) (skipn 2 argv))
     /\ from_cli (cacheConfig conf))
  /\ (~ In "--baseURL" (skipn 2 argv) /\ ~ In "-u" (skipn 2 argv) ->
      getConfigFromArgs argv = None
      /\ exit_message argv = Some "错误: 缺少 baseURL 参数")
  /\ (~ In "--cookie" (skipn 2 argv) /\ ~ In "-c" (skipn 2 argv) ->
      getConfigFromArgs argv = None
      /\ (exit_message argv = Some "错误: 缺少 baseURL 参数"
          \/ exit_message argv = Some "错误: 缺少 cookie 参数"))
  /\ (getConfigFromArgs argv = None <-> exit_message argv <> None).
Proof.
  assert (Hin : forall (a b : string) l, follows a b l -> In a l).
  { intros a b l (l1 & l2 & ->). apply in_or_app. right. now left. }
  unfold getConfigFromArgs, exit_message.
  assert (Hcli : from_cli (cacheConfig (parse (skipn 2 argv) defaults))).
  { apply (parse_from_cli_upto (List.length (skipn 2 argv))); [lia|].
    exists 5, 100, true. cbn. repeat split; lia. }
  destruct (parse_credentials_upto (List.length (skipn 2 argv))
              (skipn 2 argv) defaults (le_n _)) as [Hu Hc].
  set (r := parse (skipn 2 argv) defaults) in *. clearbody r.
  cbn [baseURL cookie defaults] in Hu, Hc.
  destruct (baseURL r) as [|b u] eqn:Eb; cbn [truthy negb].
  - split; [discriminate|]. repeat split; auto; discriminate.
  - destruct Hu as [[=]|(_ & Hu)].
    destruct (cookie r) as [|k ck] eqn:Ec; cbn [truthy negb].
    + split; [discriminate|]. split; [|repeat split; auto; discriminate].
      intros [H1 H2]. destruct Hu as [Hu|Hu]; apply Hin in Hu; contradiction.
    + destruct Hc as [[=]|(_ & Hc)]. split.
      * intros conf [= <-]. rewrite Eb, Ec.
        repeat split; try discriminate; assumption.
      * split; [|split].
        -- intros [H1 H2].
           destruct Hu as [Hu|Hu]; apply Hin in Hu; contradiction.
        -- intros [H1 H2].
           destruct Hc as [Hc|Hc]; apply Hin in Hc; contradiction.
        -- split; [discriminate | intros H; now contradiction H].
Qed.

Lemma cli_configuration_shape_witness :
  baseURL (parse (skipn 2 Trial.valid_argv) defaults) <> ""
  /\ getConfigFromArgs ["node"; "server.js"; "-c"; "sid=1"] = None.
Proof.
  destruct (cli_configuration_shape Trial.valid_argv) as [Hsome _].
  destruct (Hsome (parse (skipn 2 Trial.valid_argv) defaults) eq_refl)
    as (Hb & _).
  destruct (cli_configuration_shape ["node"; "server.js"; "-c"; "sid=1"])
    as (_ & Hnone & _).
  split; [exact Hb|]. apply Hnone. cbn. split; intros [H|[H|[]]]; discriminate.
Defined.

End CliMore.

Module InitFacts.
Import Init.

Lemma step_when_initialised (argv : list string) (st : State) (s : Step)
  (conf : Cli.Config) :
  config st = Some conf -> apiCache st <> None -> apiClient st <> None ->
  step argv st s = Some st.
Proof.
  intros Hc Hcache Hclient. destruct s; cbn.
  - unfold initialize. now rewrite Hc.
  - unfold initializeConfig. now rewrite Hc.
  - unfold getApiCache. destruct (apiCache st); [reflexivity | contradiction].
  - unfold getApiClient. destruct (apiClient st); [reflexivity | contradiction].
Qed.

(** X22.  The first [initialize] decides: it builds the client and an
    empty cache with the settings of its configuration, and after it no
    [initialize] with another configuration, no look at the command line
    and no request for the cache or the client changes anything or ends
    the process, so the cache and its settings stay the same.  Before it,
    a request for the cache reads the command line and builds the cache
    from it, or ends the process when the command line is not valid. *)
Theorem first_initialize_decides (newConfig : Cli.Config)
  (argv : list string) (l : list Step) :
  let st := initialize newConfig start in
  apiCache st = Some (Cache.constructor (Cli.cacheConfig newConfig), [])
  /\ (exists client,
        apiClient st = Some client
        /\ client_baseURL client = Cli.baseURL newConfig
        /\ In ("Cookie", Cli.cookie newConfig) (client_headers client))
  /\ config st = Some newConfig
  /\ steps argv st l = Some st
  /\ (forall other, initialize other st = st)
  /\ getApiCache argv st = Some (apiCache st, st)
  /\ (forall conf, Cli.getConfigFromArgs argv = Some conf ->
        getApiCache argv start
          = Some (Some (Cache.constructor (Cli.cacheConfig conf), []),
                  initialize conf start))
  /\ (Cli.getConfigFromArgs argv = None -> getApiCache argv start = None).
Proof.
  cbv zeta. split; [reflexivity|].
  split; [eexists; repeat split; cbn; auto|].
  split; [reflexivity|]. split; [|split].
  - induction l as [|s l IH]; [reflexivity|]. cbn [steps].
    rewrite (step_when_initialised argv _ s newConfig);
      [exact IH | reflexivity | discriminate | discriminate].
  - reflexivity.
  - split; [reflexivity|]. split.
    + intros conf Hconf. unfold getApiCache, initializeConfig. cbn.
      now rewrite Hconf.
    + intros Hnone. unfold getApiCache, initializeConfig. cbn.
      now rewrite Hnone.
Qed.

Lemma first_initialize_decides_witness :
  getApiCache Trial.valid_argv start
  = Some (Some (Cache.constructor
                  (Cli.cacheConfig
                     (Cli.parse (skipn 2 Trial.valid_argv) Cli.defaults)), []),
          initialize (Cli.parse (skipn 2 Trial.valid_argv) Cli.defaults) start).
Proof.
  destruct (first_initialize_decides Cli.defaults Trial.valid_argv [])
    as (_ & _ & _ & _ & _ & _ & Hcli & _).
  apply Hcli. reflexivity.
Defined.

End InitFacts.

(** ** The further properties at work in the small world *)



Lemma batch_is_served_from_warm_cache_witness :
  requests (snd (batchGetGroupInfo (Demo.env 3 true) [2; 1]
                   (Demo.boot [("getGroupInfo:[1]", Demo.entry (JsNumber 10) 0);
                               ("getGroupInfo:[2]", Demo.entry (JsNumber 20) 1)]
                              5)))
  = [].
Proof.
  apply (batch_is_served_from_warm_cache (Demo.env 3 true) [2; 1]
           (Demo.boot [("getGroupInfo:[1]", Demo.entry (JsNumber 10) 0);
                       ("getGroupInfo:[2]", Demo.entry (JsNumber 20) 1)] 5)).
  intros id [<-|[<-|[]]]; reflexivity.
Defined.

Lemma disabled_cache_asks_every_time_witness :
  requests (snd (batchGetGroupInfo (Demo.env 3 false) [1; 1; 7]
                   (Demo.boot [] 0)))
  = [] ++ map (HttpGet "/api/interface/get") [1; 1; 7].
Proof.
  apply (disabled_cache_asks_every_time (Demo.env 3 false) [1; 1; 7]
           (Demo.boot [] 0)).
  reflexivity.
Defined.

Lemma chunk_requests_every_occurrence_witness :
  requests (snd (start_all (Demo.env 3 true) [1; 1] (Demo.boot [] 0)))
  = [] ++ map (HttpGet "/api/interface/get") [1; 1].
Proof.
  apply (chunk_requests_every_occurrence (Demo.env 3 true) [1; 1]
           (Demo.boot [] 0)).
  intros id [<-|[<-|[]]]; reflexivity.
Defined.

Lemma clearing_forces_a_request_witness :
  requests (snd (getGroupInfo (Demo.env 3 true) 1
                   (snd (clearInterfaceCache (Demo.env 3 true) 1
                           (Demo.boot [("getGroupInfo:[1]",
                                        Demo.entry (JsNumber 10) 0)] 5)))))
  = [] ++ [HttpGet "/api/interface/get" 1].
Proof.
  apply (clearing_forces_a_request (Demo.env 3 true) 1
           (Demo.boot [("getGroupInfo:[1]", Demo.entry (JsNumber 10) 0)] 5)).
Defined.

Lemma category_lookup_witness :
  fst (getInterfacesByCategory Trial.env Trial.lower 1 "no such" (Demo.boot [] 0))
  = Rejected (PlainError (no_category "no such"))
  /\ console (snd (getInterfacesByCategory Trial.env Trial.lower 1 "no such"
                     (Demo.boot [] 0)))
     = [] ++ [CategoryFailed (no_category "no such")].
Proof.
  destruct (category_lookup Trial.env Trial.lower 1 "no such" (Demo.boot [] 0))
    as (_ & _ & _ & _ & _ & Hline & _ & Hl).
  destruct (Hl Trial.catalogue eq_refl) as (_ & Hnone & _).
  assert (H : fst (getInterfacesByCategory Trial.env Trial.lower 1 "no such"
                     (Demo.boot [] 0))
              = Rejected (PlainError (no_category "no such")))
    by (apply Hnone; repeat constructor).
  split; [exact H | exact (Hline _ H)].
Defined.

Lemma search_tool_answers_witness :
  search_interfaces Trial.env Trial.lower Trial.valid_argv 1 "" None Cold
    (Demo.boot [] 0)
  = Some (Resolved (Text "Error: query is required."),
          store_in_use Cold (Demo.boot [] 0),
          ServerReady (Cli.parse (skipn 2 Trial.valid_argv) Cli.defaults))
  /\ search_interfaces Trial.env Trial.lower ["node"; "server.js"] 1 "" None
       Cold (Demo.boot [] 0)
     = None.
Proof.
  destruct (search_tool_answers Trial.env Trial.lower Trial.valid_argv Cold
              (Demo.boot [] 0) 1 "" None) as (_ & Hgo).
  destruct (Hgo (Cli.parse (skipn 2 Trial.valid_argv) Cli.defaults) eq_refl)
    as (_ & _ & Hq & _).
  destruct (search_tool_answers Trial.env Trial.lower ["node"; "server.js"]
              Cold (Demo.boot [] 0) 1 "" None) as (Hexit & _).
  split; [apply Hq; [discriminate | reflexivity]|].
  apply Hexit. split; reflexivity.
Defined.

Lemma maintenance_tools_answer_witness :
  preload_interface_data (Demo.env 3 true) Trial.valid_argv 2 Cold
    (Demo.boot [] 0)
  = Some (Resolved (Text ("Successfully preloaded interface data for project "
                          ++ Number.toString 2)%string),
          snd (preloadInterfaceData
                 (with_config (Demo.env 3 true)
                    (Cache.constructor
                       (Cli.cacheConfig
                          (Cli.parse (skipn 2 Trial.valid_argv) Cli.defaults))))
                 2 (store_in_use Cold (Demo.boot [] 0))),
          ServerReady (Cli.parse (skipn 2 Trial.valid_argv) Cli.defaults))
  /\ preload_interface_data (Demo.env 3 true) ["node"; "server.js"] 2 Cold
       (Demo.boot [] 0)
     = None.
Proof.
  destruct (maintenance_tools_answer (Demo.env 3 true) Trial.valid_argv Cold
              (Demo.boot [] 0) 2) as (_ & _ & _ & _ & Hgo).
  destruct (Hgo (Cli.parse (skipn 2 Trial.valid_argv) Cli.defaults) eq_refl)
    as (_ & Hok & _).
  destruct Hok as (Hpre & _); [discriminate|].
  destruct (maintenance_tools_answer (Demo.env 3 true) ["node"; "server.js"]
              Cold (Demo.boot [] 0) 2) as (Hexit & _).
  split; [exact Hpre|]. apply Hexit. split; reflexivity.
Defined.
